(** * Behavioural discovery engine: hover / popup probing and the pipeline

    A shallow embedding of [core/browser.py] (the in-page scripts and the
    Python probing loops around them) and of [orchestrator.py] (the node
    functions and the workflow graph), followed by the properties the
    specification states about them.

    Conventions.
    - A JavaScript or Python string is a [string]; one character stands for
      one code unit.  Whitespace is the ASCII whitespace of [Ascii.is_space].
    - A Python exception (an instance of [Exception]) is identified with its
      message [str(e)].  Signals outside [Exception] (task cancellation,
      keyboard interrupt) are not part of the model.
    - Everything outside the process (the browser, the durable store, the
      language model, the file system, the clock) is an oracle acting on an
      abstract world; the code's own calls to it are recorded. *)

From Stdlib Require Import Ascii QArith Qround.
From stdpp Require Import base gmap sets list strings pretty sorting.
Set Warnings "-register-all".

(** ** Strings as the scripts use them *)

Definition lower_ascii (c : ascii) : ascii :=
  let n := nat_of_ascii c in
  if (65 <=? n)%nat && (n <=? 90)%nat then ascii_of_nat (n + 32) else c.

(** [String.prototype.toLowerCase] / [str.lower], on ASCII letters. *)
Fixpoint toLowerCase (s : string) : string :=
  match s with
  | EmptyString => EmptyString
  | String c r => String (lower_ascii c) (toLowerCase r)
  end.

Fixpoint trimStart (s : string) : string :=
  match s with
  | EmptyString => EmptyString
  | String c r => if Ascii.is_space c then trimStart r else s
  end.

(** [str.rstrip]. *)
Definition trimEnd (s : string) : string := String.rev (trimStart (String.rev s)).

(** [String.prototype.trim] / [str.strip]. *)
Definition trim (s : string) : string := trimEnd (trimStart s).

(** [String.prototype.includes] / Python's [in] on strings. *)
Fixpoint includes (sub s : string) : bool :=
  String.prefix sub s ||
  match s with
  | EmptyString => false
  | String _ r => includes sub r
  end.

(** [str.startswith]. *)
Definition startswith (p s : string) : bool := String.prefix p s.

Fixpoint drop_chars (n : nat) (s : string) : string :=
  match n, s with
  | O, _ => s
  | S k, EmptyString => EmptyString
  | S k, String _ r => drop_chars k r
  end.

(** [String.prototype.replace] with a string pattern: the first occurrence
    only. *)
Fixpoint replace_first (pat rep s : string) : string :=
  if String.prefix pat s then rep +:+ drop_chars (String.length pat) s
  else match s with
       | EmptyString => EmptyString
       | String c r => String c (replace_first pat rep r)
       end.

(** [str.replace]: every occurrence, left to right.  [fuel] bounds the number
    of characters still to be scanned. *)
Fixpoint replace_all_go (fuel : nat) (pat rep s : string) : string :=
  match fuel with
  | O => s
  | S k =>
      match s with
      | EmptyString => EmptyString
      | String c r =>
          if String.prefix pat s && negb (String.eqb pat EmptyString)
          then rep +:+ replace_all_go (k - (String.length pat - 1)) pat rep
                         (drop_chars (String.length pat) s)
          else String c (replace_all_go k pat rep r)
      end
  end.

Definition replace_all (pat rep s : string) : string :=
  replace_all_go (String.length s) pat rep s.

(** [s.substring(0, n)] and [s[:n]]. *)
Definition substring0 (n : nat) (s : string) : string := String.substring 0 n s.

(** [s.split('\n')]. *)
Fixpoint split_lines_go (cur : string) (s : string) : list string :=
  match s with
  | EmptyString => [String.rev cur]
  | String c r =>
      if Ascii.eqb c "010"%char then String.rev cur :: split_lines_go EmptyString r
      else split_lines_go (String c cur) r
  end.

Definition split_lines (s : string) : list string := split_lines_go EmptyString s.

(** ['\n'.join(lines)] and [parts.join('/')]. *)
Fixpoint join (sep : string) (parts : list string) : string :=
  match parts with
  | [] => EmptyString
  | [p] => p
  | p :: rest => p +:+ sep +:+ join sep rest
  end.

(** JavaScript truthiness of a possibly missing string, and [a || b]. *)
Definition truthy (v : option string) : bool :=
  match v with
  | Some s => negb (String.eqb s EmptyString)
  | None => false
  end.

Definition js_or (a b : option string) : option string := if truthy a then a else b.

(** [v || null] and [v || ''] *)
Definition or_null (v : option string) : option string := if truthy v then v else None.
Definition or_empty (v : option string) : string :=
  match or_null v with Some s => s | None => EmptyString end.

(** [Math.round]: the nearest integer, ties towards positive infinity. *)
Definition Math_round (q : Q) : Z := Qfloor (q + (1 # 2)).

(** ** The document as the in-page scripts observe it *)

Record DOMRect := {
  rect_x : Q;
  rect_y : Q;
  rect_width : Q;
  rect_height : Q
}.

(** The properties of [window.getComputedStyle(element)] the scripts read. *)
Record ComputedStyle := {
  display : string;
  visibility : string;
  opacity : string;
  cursor : string;
  position : string
}.

(** An element node.  [attributes] are the (name, value) pairs of
    [element.attributes], names in lower case.  [innerText] is [None] where the property is undefined
    (elements that are not HTML elements); [href] likewise.  [matches sel] is
    [None] when [element.matches(sel)] throws a syntax error. *)
Record Element := {
  nodeName : string;
  attributes : list (string * string);
  innerText : option string;
  textContent : string;
  href : option string;
  boundingClientRect : DOMRect;
  computedStyle : ComputedStyle;
  matches : string → option bool
}.

(** A node of the tree: an element with its child nodes, or a node of another
    type (text, comment, doctype). *)
Inductive Node :=
| ElementNode (e : Element) (childNodes : list Node)
| CharacterData.

(** Where a node sits: its [previousSibling] chain (nearest first), its
    following siblings, and its [parentNode], which is the document node or
    an element that sits somewhere itself. *)
Inductive Place :=
| InDocument (previous next : list Node)
| InElement (previous next : list Node) (parent : Element) (up : Place).

(** An element of the live tree. *)
Record Loc := {
  element : Element;
  childNodes : list Node;
  place : Place
}.

(** A style rule ([selectorText] is undefined for rules that are not style
    rules) and a style sheet ([None] when reading its rules throws, as for a
    cross-origin sheet). *)
Record CSSRule := { selectorText : option string }.
Definition StyleSheet := option (list CSSRule).

Record Document := {
  documentChildNodes : list Node;
  styleSheets : list StyleSheet;
  (** [document.body.innerHTML.length]; [None] when the document has no
      body. *)
  body_innerHTML_length : option nat
}.

Definition hasAttribute (e : Element) (name : string) : bool :=
  existsb (λ a, String.eqb (fst a) name) (attributes e).

Fixpoint assoc (name : string) (l : list (string * string)) : option string :=
  match l with
  | [] => None
  | (k, v) :: r => if String.eqb k name then Some v else assoc name r
  end.

Definition getAttribute (e : Element) (name : string) : option string :=
  assoc name (attributes e).

(** [element.id] and [element.className] reflect the attributes and are the
    empty string when the attribute is absent. *)
Definition id (e : Element) : string := default EmptyString (getAttribute e "id").
Definition className (e : Element) : string := default EmptyString (getAttribute e "class").

(** *** The locator: [getXPath] *)

(** The double-quote character of the id form. *)
Definition dquote : ascii := ascii_of_nat 34.

Definition previous_of (p : Place) : list Node :=
  match p with
  | InDocument prev _ => prev
  | InElement prev _ _ _ => prev
  end.

(** The inner [while (sibling)] loop: walk the [previousSibling] chain and
    count the element siblings with the same [nodeName]. *)
Fixpoint count_previous (current : string) (sibling : list Node) (index : nat) : nat :=
  match sibling with
  | [] => index
  | ElementNode s _ :: rest =>
      count_previous current rest
        (if String.eqb (nodeName s) current then S index else index)
  | CharacterData :: rest => count_previous current rest index
  end.

Definition path_step (current : Element) (p : Place) : string :=
  let index := count_previous (nodeName current) (previous_of p) 0 in
  let tagName := toLowerCase (nodeName current) in
  let pathIndex :=
    if (0 <? index)%nat then "[" +:+ pretty (index + 1)%nat +:+ "]" else EmptyString in
  tagName +:+ pathIndex.

(** The outer [while (current && current.nodeType === Node.ELEMENT_NODE)]
    loop; [parts.unshift] puts the new step in front. *)
Fixpoint getXPath_walk (current : Element) (p : Place) (parts : list string) : list string :=
  let parts := path_step current p :: parts in
  match p with
  | InDocument _ _ => parts
  | InElement _ _ parent up => getXPath_walk parent up parts
  end.

Definition getXPath (l : Loc) : string :=
  if negb (String.eqb (id (element l)) EmptyString) then
    "//*[@id=" +:+ String dquote (id (element l) +:+ String dquote "]")
  else "/" +:+ join "/" (getXPath_walk (element l) (place l) []).

(** *** Walking the tree *)

(** An element and the elements below it, in document order. *)
Fixpoint subtree (n : Node) (p : Place) : list Loc :=
  match n with
  | CharacterData => []
  | ElementNode e kids =>
      {| element := e; childNodes := kids; place := p |} ::
      (fix below (prev rest : list Node) : list Loc :=
         match rest with
         | [] => []
         | k :: next => subtree k (InElement prev next e p) ++ below (k :: prev) next
         end) [] kids
  end.

Fixpoint below_element (e : Element) (p : Place) (prev rest : list Node) : list Loc :=
  match rest with
  | [] => []
  | k :: next => subtree k (InElement prev next e p) ++ below_element e p (k :: prev) next
  end.

Fixpoint below_document (prev rest : list Node) : list Loc :=
  match rest with
  | [] => []
  | k :: next => subtree k (InDocument prev next) ++ below_document (k :: prev) next
  end.

(** [document.querySelectorAll('*')]. *)
Definition all_elements (d : Document) : list Loc :=
  below_document [] (documentChildNodes d).

(** The selectors the scripts pass to [querySelectorAll] / [querySelector]. *)
Inductive Selector :=
| SelTag (t : string)
| SelHasAttr (a : string)
| SelAttrEq (a v : string)
| SelAttrSub (a v : string)
| SelClass (c : string).

Definition selector_matches (s : Selector) (e : Element) : bool :=
  match s with
  | SelTag t => String.eqb (toLowerCase (nodeName e)) t
  | SelHasAttr a => hasAttribute e a
  | SelAttrEq a v =>
      match getAttribute e a with Some w => String.eqb w v | None => false end
  | SelAttrSub a v =>
      match getAttribute e a with
      | Some w => negb (String.eqb v EmptyString) && includes v w
      | None => false
      end
  | SelClass c => existsb (String.eqb c) (String.words (className e))
  end.

(** [document.querySelectorAll(s1, s2, ...)]: the elements matching one of
    the alternatives, in document order. *)
Definition querySelectorAll (alts : list Selector) (d : Document) : list Loc :=
  filter (λ l, existsb (λ s, selector_matches s (element l)) alts = true) (all_elements d).

(** [el.querySelector(s1, s2, ...)], as a truth value: is there a matching
    element strictly below [l]? *)
Definition hasDescendant (alts : list Selector) (l : Loc) : bool :=
  existsb (λ k, existsb (λ s, selector_matches s (element k)) alts)
          (below_element (element l) (place l) [] (childNodes l)).

Definition elements_of (ns : list Node) : list Element :=
  omap (λ n, match n with ElementNode e _ => Some e | CharacterData => None end) ns.

(** ** Static candidacy: the hover scan *)

Module Hover.
Record Position := { x : Z; y : Z; width : Z; height : Z }.
Record Candidate := {
  tag : string;
  text : string;
  xpath : string;
  class : string;
  id : option string;
  href : option string;
  role : option string;
  ariaLabel : option string;
  position : Position
}.
End Hover.

Definition Qpos (q : Q) : bool := match Qlt_le_dec 0 q with left _ => true | right _ => false end.

(** [isVisible] of the hover scan. *)
Definition isVisible (e : Element) : bool :=
  let rect := boundingClientRect e in
  let style := computedStyle e in
  Qpos (rect_width rect) && Qpos (rect_height rect) &&
  negb (String.eqb (display style) "none") &&
  negb (String.eqb (visibility style) "hidden") &&
  negb (String.eqb (opacity style) "0").

(** The rule loop of one style sheet; [None] when [element.matches] threw. *)
Fixpoint hover_rule_in (e : Element) (rules : list CSSRule) : option bool :=
  match rules with
  | [] => Some false
  | rule :: rest =>
      if truthy (selectorText rule) && includes ":hover" (or_empty (selectorText rule)) then
        match matches e (replace_first ":hover" EmptyString (or_empty (selectorText rule))) with
        | None => None
        | Some true => Some true
        | Some false => hover_rule_in e rest
        end
      else hover_rule_in e rest
  end.

(** The sheet loop: a sheet whose rules cannot be read, or in which
    [matches] threw, is skipped. *)
Fixpoint hover_rule_matches (e : Element) (sheets : list StyleSheet) : bool :=
  match sheets with
  | [] => false
  | None :: rest => hover_rule_matches e rest
  | Some rules :: rest =>
      match hover_rule_in e rules with
      | Some true => true
      | _ => hover_rule_matches e rest
      end
  end.

Definition hidden_style (c : Element) : bool :=
  let childStyle := computedStyle c in
  String.eqb (display childStyle) "none" ||
  String.eqb (visibility childStyle) "hidden" ||
  String.eqb (opacity childStyle) "0".

(** The [while (parent && depth < 3)] loop; [fuel] is [3 - depth].  [self]
    is the child through which the walk reached the parent. *)
Fixpoint dropdown_shape (fuel : nat) (self : Element) (p : Place) : bool :=
  match fuel with
  | O => false
  | S k =>
      match p with
      | InDocument _ _ => false
      | InElement prev next parent up =>
          let parentStyle := computedStyle parent in
          let children := elements_of (rev prev) ++ self :: elements_of next in
          if (String.eqb (position parentStyle) "relative" ||
              String.eqb (position parentStyle) "absolute") &&
             existsb hidden_style children
          then true
          else dropdown_shape k parent up
      end
  end.

Definition hasHoverBehavior (sheets : list StyleSheet) (l : Loc) : bool :=
  let e := element l in
  if String.eqb (cursor (computedStyle e)) "pointer" then true
  else if hasAttribute e "onmouseover" || hasAttribute e "onmouseenter" ||
          hasAttribute e "onmouseleave" then true
  else if hover_rule_matches e sheets then true
  else dropdown_shape 3 e (place l).

Definition hover_text (e : Element) : string :=
  or_empty (js_or (trim <$> innerText e)
           (js_or (Some (trim (textContent e)))
           (js_or (getAttribute e "aria-label") (getAttribute e "title")))).

(** The body of [allElements.forEach]: the state is the pair
    ([hoverableElements], [seenElements]). *)
Definition hover_visit (sheets : list StyleSheet)
    (st : list Hover.Candidate * gset string) (l : Loc) : list Hover.Candidate * gset string :=
  let '(hoverableElements, seenElements) := st in
  let e := element l in
  if negb (isVisible e) then st else
  let tagName := toLowerCase (nodeName e) in
  let text := hover_text e in
  if String.eqb text EmptyString && negb (String.eqb tagName "img") &&
     negb (String.eqb tagName "svg") then st else
  if (200 <? String.length text)%nat then st else
  if hasHoverBehavior sheets l then
    let xpath := getXPath l in
    if bool_decide (xpath ∈ seenElements) then st else
    let rect := boundingClientRect e in
    (hoverableElements ++ [
       {| Hover.tag := tagName;
          Hover.text := substring0 100 text;
          Hover.xpath := xpath;
          Hover.class := className e;
          Hover.id := or_null (Some (id e));
          Hover.href := or_null (href e);
          Hover.role := or_null (getAttribute e "role");
          Hover.ariaLabel := or_null (getAttribute e "aria-label");
          Hover.position := {| Hover.x := Math_round (rect_x rect);
                               Hover.y := Math_round (rect_y rect);
                               Hover.width := Math_round (rect_width rect);
                               Hover.height := Math_round (rect_height rect) |} |}],
     {[xpath]} ∪ seenElements)
  else st.

(** The script [dynamic_hover_detection], run on a document. *)
Definition dynamic_hover_detection (d : Document) : list Hover.Candidate :=
  take 50 (fst (foldl (hover_visit (styleSheets d)) ([], ∅) (all_elements d))).

(** ** Static candidacy: the popup scan *)

Module Popup.
Record Position := { x : Z; y : Z }.
Record Trigger := {
  tag : string;
  text : string;
  xpath : string;
  class : string;
  id : option string;
  onclick : option string;
  dataAttrs : list (string * string);
  ariaHaspopup : option string;
  position : Position
}.
End Popup.

(** [isVisible] of the popup scan (no opacity test). *)
Definition isVisible_popup (e : Element) : bool :=
  let rect := boundingClientRect e in
  let style := computedStyle e in
  Qpos (rect_width rect) && Qpos (rect_height rect) &&
  negb (String.eqb (display style) "none") &&
  negb (String.eqb (visibility style) "hidden").

Definition popupKeywords : list string :=
  ["modal"; "popup"; "dialog"; "overlay"; "toggle"; "open"; "show"; "trigger"].

Definition textKeywords : list string :=
  ["learn more"; "sign up"; "login"; "subscribe"; "register"; "join";
   "get started"; "more info"; "details"; "view"; "show"; "open"].

Definition data_attributes (e : Element) : list (string * string) :=
  filter (λ a, startswith "data-" (fst a) = true) (attributes e).

Definition mightTriggerPopup (e : Element) : bool :=
  if hasAttribute e "onclick" then true else
  let dataAttrs := (λ a, toLowerCase (fst a)) <$> data_attributes e in
  if existsb (λ attr, existsb (λ keyword, includes keyword attr) popupKeywords) dataAttrs
  then true else
  let ariaExpanded := getAttribute e "aria-expanded" in
  let ariaHaspopup := getAttribute e "aria-haspopup" in
  if truthy ariaExpanded || truthy ariaHaspopup then true else
  let text := toLowerCase (or_empty (js_or (innerText e) (Some (textContent e)))) in
  existsb (λ keyword, includes keyword text) textKeywords.

Definition popup_text (e : Element) : string :=
  or_empty (js_or (trim <$> innerText e) (Some (trim (textContent e)))).

(** The body of [clickables.forEach]: the state is the pair
    ([popupTriggers], [seenElements]). *)
Definition popup_visit (st : list Popup.Trigger * gset string) (l : Loc)
    : list Popup.Trigger * gset string :=
  let '(popupTriggers, seenElements) := st in
  let e := element l in
  if negb (isVisible_popup e) then st else
  let text := popup_text e in
  if String.eqb text EmptyString || (100 <? String.length text)%nat then st else
  if mightTriggerPopup e then
    let xpath := getXPath l in
    if bool_decide (xpath ∈ seenElements) then st else
    let rect := boundingClientRect e in
    (popupTriggers ++ [
       {| Popup.tag := toLowerCase (nodeName e);
          Popup.text := substring0 100 text;
          Popup.xpath := xpath;
          Popup.class := className e;
          Popup.id := or_null (Some (id e));
          Popup.onclick := or_null (getAttribute e "onclick");
          Popup.dataAttrs := data_attributes e;
          Popup.ariaHaspopup := getAttribute e "aria-haspopup";
          Popup.position := {| Popup.x := Math_round (rect_x rect);
                               Popup.y := Math_round (rect_y rect) |} |}],
     {[xpath]} ∪ seenElements)
  else st.

Definition clickables (d : Document) : list Loc :=
  querySelectorAll [SelTag "button"; SelTag "a"; SelHasAttr "onclick"; SelAttrEq "role" "button"] d.

(** The script [dynamic_popup_detection], run on a document. *)
Definition dynamic_popup_detection (d : Document) : list Popup.Trigger :=
  take 30 (fst (foldl popup_visit ([], ∅) (clickables d))).

(** ** Page snapshots *)

Module Snapshot.
Record Visible := {
  text : option string;
  tag : string;
  href : option string;
  visible : bool
}.
Record State := {
  visible_elements : list Visible;
  html_length : nat
}.
End Snapshot.

Global Instance Visible_eq_dec : EqDecision Snapshot.Visible.
Proof. solve_decision. Defined.

(** A Python exception, identified with its message. *)
Definition exn := string.

(** The script of [_capture_page_state], run on a document: it throws when
    [document.body] is null. *)
Definition capture_script (d : Document) : exn + Snapshot.State :=
  let elements :=
    (λ l, let el := element l in
          {| Snapshot.text := (λ t, substring0 100 (trim t)) <$> innerText el;
             Snapshot.tag := nodeName el;
             Snapshot.href := or_null (href el);
             Snapshot.visible := true |}) <$>
    filter (λ l, isVisible (element l) = true)
      (querySelectorAll [SelTag "a"; SelTag "button"; SelAttrEq "role" "menuitem";
                         SelAttrEq "role" "button"] d) in
  match body_innerHTML_length d with
  | None => inl "TypeError: Cannot read properties of null (reading 'innerHTML')"
  | Some n => inr {| Snapshot.visible_elements := elements; Snapshot.html_length := n |}
  end.

(** [_has_content_changed]. *)
Definition _has_content_changed (before after : Snapshot.State) : bool :=
  let before_count := length (Snapshot.visible_elements before) in
  let after_count := length (Snapshot.visible_elements after) in
  if (before_count <? after_count)%nat then true
  else if negb (Snapshot.html_length after =? Snapshot.html_length before)%nat then true
  else false.

(** Python truthiness of [elem['text']]. *)
Definition text_truthy (t : option string) : bool := truthy t.

(** [_get_revealed_elements]: [before_texts] is a Python set of texts; the
    loop appends in the order of [after_elements]. *)
Definition _get_revealed_elements (before after : Snapshot.State) : list Snapshot.Visible :=
  let before_texts : gset (option string) :=
    list_to_set (Snapshot.text <$> Snapshot.visible_elements before) in
  let after_elements := Snapshot.visible_elements after in
  let revealed :=
    foldl (λ revealed elem,
             if bool_decide (Snapshot.text elem ∉ before_texts) && text_truthy (Snapshot.text elem)
             then revealed ++ [elem] else revealed)
          [] after_elements in
  take 5 revealed.

(** ** Modal detection scripts *)

Definition modal_selectors : list Selector :=
  [SelAttrEq "role" "dialog"; SelClass "modal"; SelClass "popup";
   SelAttrSub "class" "modal"; SelAttrSub "class" "popup";
   SelAttrSub "class" "dialog"; SelAttrSub "class" "overlay"].

(** The script of [_count_modals]: one count per (selector, matching visible
    element) pair. *)
Definition count_modals_script (d : Document) : nat :=
  foldl (λ count selector,
           foldl (λ count l, if isVisible_popup (element l) then S count else count)
                 count (querySelectorAll [selector] d))
        0%nat modal_selectors.

Module Modal.
Record Detail := {
  text : option string;
  class : string;
  role : option string;
  hasCloseButton : bool
}.
End Modal.

Definition detail_selectors : list Selector :=
  [SelAttrEq "role" "dialog"; SelClass "modal"; SelClass "popup";
   SelAttrSub "class" "modal"; SelAttrSub "class" "popup"].

Definition Qgt100 (q : Q) : bool :=
  match Qlt_le_dec 100 q with left _ => true | right _ => false end.

Definition modal_sized (e : Element) : bool :=
  let style := computedStyle e in
  let rect := boundingClientRect e in
  negb (String.eqb (display style) "none") &&
  negb (String.eqb (visibility style) "hidden") &&
  Qgt100 (rect_width rect) && Qgt100 (rect_height rect).

(** The script of [_get_modal_details]. *)
Definition modal_details_script (d : Document) : list Modal.Detail :=
  foldl (λ modals selector,
           foldl (λ modals l,
                    let el := element l in
                    if modal_sized el then
                      modals ++ [
                        {| Modal.text := (λ t, substring0 200 (trim t)) <$> innerText el;
                           Modal.class := className el;
                           Modal.role := getAttribute el "role";
                           Modal.hasCloseButton :=
                             hasDescendant [SelAttrSub "aria-label" "close";
                                            SelAttrSub "class" "close"; SelTag "button"] l |}]
                    else modals)
                 modals (querySelectorAll [selector] d))
        [] detail_selectors.

(** ** Effects: state and exceptions

    [M S A] is a computation over a state [S] that returns an [A] or raises.
    The state reached when an exception is raised is kept, so that an
    [except] clause sees every mutation made before the raise. *)

Definition M (S A : Type) : Type := S → (exn + A) * S.

Definition ret {S A} (a : A) : M S A := λ s, (inr a, s).

Definition bind {S A B} (m : M S A) (k : A → M S B) : M S B :=
  λ s, match m s with
       | (inl e, s') => (inl e, s')
       | (inr a, s') => k a s'
       end.

Definition raise {S A} (e : exn) : M S A := λ s, (inl e, s).

(** [try: m  except Exception as e: h e] (and the bare [except:]). *)
Definition try_except {S A} (m : M S A) (h : exn → M S A) : M S A :=
  λ s, match m s with
       | (inl e, s') => h e s'
       | (inr a, s') => (inr a, s')
       end.

Notation "x <- m ;; k" := (bind m (λ x, k))
  (at level 20, m at level 99, k at level 200, only parsing).
Notation "m ;; k" := (bind m (λ _, k))
  (at level 100, k at level 200, right associativity, only parsing).

(** [for x in xs: body x]. *)
Fixpoint for_each {S X} (xs : list X) (body : X → M S unit) : M S unit :=
  match xs with
  | [] => ret tt
  | x :: rest => body x ;; for_each rest body
  end.

(** [enumerate(xs)]. *)
Definition enumerate {X} (xs : list X) : list (nat * X) := zip (seq 0 (length xs)) xs.

(** A block with a local variable of type [L] next to the state [S]. *)
Definition outer {S L A} (m : M S A) : M (S * L) A :=
  λ sl, let '(r, s') := m (fst sl) in (r, (s', snd sl)).

Definition update_local {S L} (f : L → L) : M (S * L) unit :=
  λ sl, (inr tt, (fst sl, f (snd sl))).

Definition with_local {S L A} (l0 : L) (m : M (S * L) A) : M S (A * L) :=
  λ s, let '(r, sl) := m (s, l0) in
       (match r with inl e => inl e | inr a => inr (a, snd sl) end, fst sl).

(** ** The page session (Playwright) *)

Record LogRecord := { levelname : string; message : string }.

Record BrowserConfig := {
  headless : bool;
  timeout : Z;
  viewport_width : Z;
  viewport_height : Z;
  slow_mo : Z
}.

(** The browser as the code drives it.  Each call acts on the world [W] and
    returns normally or raises.  [page_evaluate] yields the document the
    evaluated script runs on.  [chromium_launch] stands for the whole start
    sequence of [initialize] (start, launch, new context, new page) and
    [browser_close] for the three closing calls of [close]. *)
Class Playwright (W : Type) := {
  ElementHandle : Type;
  chromium_launch : BrowserConfig → W → (exn + unit) * W;
  browser_close : W → (exn + unit) * W;
  page_goto : string → W → (exn + unit) * W;
  page_evaluate : W → (exn + Document) * W;
  page_query_selector : string → W → (exn + option ElementHandle) * W;
  page_query_selector_all : string → W → (exn + list ElementHandle) * W;
  element_hover : ElementHandle → W → (exn + unit) * W;
  element_click : ElementHandle → W → (exn + unit) * W;
  mouse_move : Z → Z → W → (exn + unit) * W;
  keyboard_press : string → W → (exn + unit) * W;
  page_content : W → (exn + string) * W;
  page_title : W → (exn + string) * W;
  page_url : W → string;
  (** [len(BeautifulSoup(html, 'lxml').find_all(tags))] *)
  soup_count : string → list string → nat;
  (** [asyncio.sleep(ms / 1000)]: time passes, the world moves on. *)
  asyncio_sleep : nat → W → W
}.

(** The process state of the browser module: the world and what was handed
    to the logger. *)
Record Session (W : Type) := {
  world : W;
  logged : list LogRecord
}.
Arguments world {W} _.
Arguments logged {W} _.

Module config.
Definition MAX_HOVER_ELEMENTS : nat := 20.
Definition MAX_POPUP_ELEMENTS : nat := 10.
Definition HOVER_DELAY_MS : nat := 500.
End config.

Module Confirmed.
Record HoverElement := {
  elem_info : Hover.Candidate;
  hover_confirmed : bool;
  revealed_elements : list Snapshot.Visible
}.
Record PopupTrigger := {
  trigger_info : Popup.Trigger;
  popup_confirmed : bool;
  popup_details : list Modal.Detail
}.
End Confirmed.

Module PageStructure.
Record t := {
  title : string;
  url : string;
  nav_elements : nat;
  buttons : nat;
  links : nat;
  forms : nat;
  has_navigation : bool
}.
End PageStructure.

(** The dictionary [get_page_structure] returns: empty on failure. *)
Inductive StructureDict :=
| EmptyDict
| Structure (s : PageStructure.t).

Section BrowserAutomation.
Context {W : Type} `{Playwright W}.

Definition call {A} (op : W → (exn + A) * W) : M (Session W) A :=
  λ s, let '(r, w) := op (world s) in (r, {| world := w; logged := logged s |}).

Definition sleep (ms : nat) : M (Session W) unit :=
  λ s, (inr tt, {| world := asyncio_sleep ms (world s); logged := logged s |}).

Definition log (lvl msg : string) : M (Session W) unit :=
  λ s, (inr tt, {| world := world s;
                   logged := logged s ++ [{| levelname := lvl; message := msg |}] |}).

(** [page.evaluate(script)]: the script runs on the current document and
    may throw. *)
Definition evaluate {A} (script : Document → exn + A) : M (Session W) A :=
  doc <- call page_evaluate ;;
  match script doc with
  | inl e => raise e
  | inr a => ret a
  end.

Definition initialize (browser_config : BrowserConfig) : M (Session W) unit :=
  try_except
    (call (chromium_launch browser_config) ;;
     log "INFO" "Browser initialized successfully")
    (λ e, log "ERROR" ("Failed to initialize browser: " +:+ e) ;; raise e).

Definition close : M (Session W) unit :=
  try_except
    (call browser_close ;;
     log "INFO" "Browser closed successfully")
    (λ e, log "ERROR" ("Error closing browser: " +:+ e)).

Definition navigate_to_url (url : string) : M (Session W) bool :=
  try_except
    (log "INFO" ("Navigating to: " +:+ url) ;;
     call (page_goto url) ;;
     sleep 2000 ;;
     log "INFO" ("Successfully loaded: " +:+ url) ;;
     ret true)
    (λ e, log "ERROR" ("Failed to navigate to " +:+ url +:+ ": " +:+ e) ;;
          ret false).

Definition _capture_page_state : M (Session W) Snapshot.State :=
  try_except
    (evaluate capture_script)
    (λ _, ret {| Snapshot.visible_elements := []; Snapshot.html_length := 0 |}).

(** The body of the [for] loop of [analyze_hover_elements]; the local
    variable is [confirmed_hover_elements]. *)
Definition hover_probe (i : nat) (elem_info : Hover.Candidate)
    : M (Session W * list Confirmed.HoverElement) unit :=
  try_except
    (element <- outer (call (page_query_selector ("xpath=" +:+ Hover.xpath elem_info))) ;;
     match element with
     | None => ret tt
     | Some element =>
         before_snapshot <- outer _capture_page_state ;;
         outer (call (element_hover element)) ;;
         outer (sleep config.HOVER_DELAY_MS) ;;
         after_snapshot <- outer _capture_page_state ;;
         (if _has_content_changed before_snapshot after_snapshot then
            let revealed := _get_revealed_elements before_snapshot after_snapshot in
            update_local (λ confirmed_hover_elements,
              confirmed_hover_elements ++ [
                {| Confirmed.elem_info := elem_info;
                   Confirmed.hover_confirmed := true;
                   Confirmed.revealed_elements := revealed |}]) ;;
            outer (log "INFO" ("✓ Confirmed hover element: " +:+
                               substring0 50 (Hover.text elem_info)))
          else ret tt) ;;
         outer (call (mouse_move 0 0)) ;;
         outer (sleep 300)
     end)
    (λ e, outer (log "DEBUG" ("Error testing hover element " +:+ pretty i +:+ ": " +:+ e))).

Definition analyze_hover_elements : M (Session W) (list Confirmed.HoverElement) :=
  try_except
    (log "INFO" "Analyzing hover elements dynamically..." ;;
     potential_hover_elements <- evaluate (λ d, inr (dynamic_hover_detection d)) ;;
     log "INFO" ("Found " +:+ pretty (length potential_hover_elements) +:+
                 " potential hover elements") ;;
     r <- with_local []
            (for_each (enumerate (take config.MAX_HOVER_ELEMENTS potential_hover_elements))
                      (λ ie, hover_probe (fst ie) (snd ie))) ;;
     let confirmed_hover_elements := snd r in
     log "INFO" ("Confirmed " +:+ pretty (length confirmed_hover_elements) +:+
                 " hover-interactive elements") ;;
     ret confirmed_hover_elements)
    (λ e, log "ERROR" ("Error analyzing hover elements: " +:+ e) ;;
          ret []).

Definition _count_modals : M (Session W) nat :=
  try_except (evaluate (λ d, inr (count_modals_script d))) (λ _, ret 0%nat).

Definition _get_modal_details : M (Session W) (list Modal.Detail) :=
  try_except (evaluate (λ d, inr (modal_details_script d))) (λ _, ret []).

Definition close_selectors : list string :=
  ["[aria-label*=" +:+ String dquote ("close" +:+ String dquote "]");
   "[class*=" +:+ String dquote ("close" +:+ String dquote "]");
   "button[class*=" +:+ String dquote ("close" +:+ String dquote "]");
   ".modal button";
   "[role=" +:+ String dquote ("dialog" +:+ String dquote "] button")].

(** The [for selector in close_selectors] loop, with its [break]. *)
Fixpoint close_button_loop (selectors : list string) : M (Session W) unit :=
  match selectors with
  | [] => ret tt
  | selector :: rest =>
      clicked <- try_except
                   (close_btn <- call (page_query_selector selector) ;;
                    match close_btn with
                    | Some close_btn =>
                        call (element_click close_btn) ;; sleep 300 ;; ret true
                    | None => ret false
                    end)
                   (λ _, ret false) ;;
      if clicked : bool then ret tt else close_button_loop rest
  end.

Definition _close_any_modal : M (Session W) unit :=
  try_except
    (call (keyboard_press "Escape") ;;
     sleep 300 ;;
     close_button_loop close_selectors)
    (λ _, ret tt).

(** The body of the [for] loop of [analyze_popup_elements]; the local
    variable is [confirmed_popup_triggers]. *)
Definition popup_probe (i : nat) (trigger_info : Popup.Trigger)
    : M (Session W * list Confirmed.PopupTrigger) unit :=
  try_except
    (element <- outer (call (page_query_selector ("xpath=" +:+ Popup.xpath trigger_info))) ;;
     match element with
     | None => ret tt
     | Some element =>
         before_modals <- outer _count_modals ;;
         outer (call (element_click element)) ;;
         outer (sleep 1000) ;;
         after_modals <- outer _count_modals ;;
         modal_details <- outer _get_modal_details ;;
         if (before_modals <? after_modals)%nat || negb (bool_decide (modal_details = [])) then
           update_local (λ confirmed_popup_triggers,
             confirmed_popup_triggers ++ [
               {| Confirmed.trigger_info := trigger_info;
                  Confirmed.popup_confirmed := true;
                  Confirmed.popup_details := modal_details |}]) ;;
           outer (log "INFO" ("✓ Confirmed popup trigger: " +:+
                              substring0 50 (Popup.text trigger_info))) ;;
           outer _close_any_modal ;;
           outer (sleep 500)
         else ret tt
     end)
    (λ e, outer (log "DEBUG" ("Error testing popup trigger " +:+ pretty i +:+ ": " +:+ e)) ;;
          outer (try_except _close_any_modal (λ _, ret tt))).

Definition popup_prefilter : string :=
  "a[href*=" +:+ String dquote ("modal" +:+ String dquote
  ("], button[data-toggle=" +:+ String dquote ("modal" +:+ String dquote
  ("], a[data-toggle=" +:+ String dquote ("modal" +:+ String dquote
  ("], button[aria-haspopup=" +:+ String dquote ("dialog" +:+ String dquote
  ("], [onclick*=" +:+ String dquote ("modal" +:+ String dquote
  ("], [onclick*=" +:+ String dquote ("popup" +:+ String dquote
  ("], a[href=" +:+ String dquote ("#" +:+ String dquote
  ("], button[type=" +:+ String dquote ("button" +:+ String dquote "]"))))))))))))))).

Definition analyze_popup_elements : M (Session W) (list Confirmed.PopupTrigger) :=
  try_except
    (log "INFO" "Analyzing popup/modal elements dynamically..." ;;
     call (page_query_selector_all popup_prefilter) ;;
     potential_triggers <- evaluate (λ d, inr (dynamic_popup_detection d)) ;;
     log "INFO" ("Found " +:+ pretty (length potential_triggers) +:+
                 " potential popup triggers") ;;
     r <- with_local []
            (for_each (enumerate (take config.MAX_POPUP_ELEMENTS potential_triggers))
                      (λ it, popup_probe (fst it) (snd it))) ;;
     let confirmed_popup_triggers := snd r in
     log "INFO" ("Confirmed " +:+ pretty (length confirmed_popup_triggers) +:+
                 " popup-triggering elements") ;;
     ret confirmed_popup_triggers)
    (λ e, log "ERROR" ("Error analyzing popup elements: " +:+ e) ;;
          ret []).

Definition get_page_structure : M (Session W) StructureDict :=
  try_except
    (html <- call page_content ;;
     title <- call page_title ;;
     url <- (λ s, (inr (page_url (world s)), s)) ;;
     ret (Structure {| PageStructure.title := title;
                       PageStructure.url := url;
                       PageStructure.nav_elements := soup_count html ["nav"; "header"];
                       PageStructure.buttons := soup_count html ["button"];
                       PageStructure.links := soup_count html ["a"];
                       PageStructure.forms := soup_count html ["form"];
                       PageStructure.has_navigation :=
                         (0 <? soup_count html ["nav"; "header"])%nat |}))
    (λ e, log "ERROR" ("Error getting page structure: " +:+ e) ;;
          ret EmptyDict).

End BrowserAutomation.

(** ** Scenario generation ([core/gherkin_generator.py]) *)

Record LLMConfig := {
  provider : string;
  model : string;
  temperature : Q;
  max_tokens : Z;
  api_key : option string
}.

(** What the prompt templates interpolate.  The fixed template text around
    it is left out: the language model is an oracle on these data. *)
Inductive Prompt :=
| HoverPrompt (url title : string) (hover_info : list (string * list string))
| PopupPrompt (url title : string) (popup_info : list (string * string)).

Definition nl : string := String "010"%char EmptyString.
Definition quoted (s : string) : string := String dquote (s +:+ String dquote EmptyString).

(** The first loop of [_clean_gherkin_output]: the state is
    ([cleaned_lines], [skip_until_scenario]). *)
Definition clean_line (st : list string * bool) (line : string) : list string * bool :=
  let '(cleaned_lines, skip_until_scenario) := st in
  let stripped := trim line in
  if startswith "As a" stripped || startswith "I want" stripped || startswith "So that" stripped
  then (cleaned_lines, true)
  else if startswith "Background:" stripped then (cleaned_lines, true)
  else
    let skip_until_scenario :=
      if startswith "Feature:" stripped || startswith "Scenario:" stripped then false
      else skip_until_scenario in
    if negb skip_until_scenario && negb (String.eqb (trim line) EmptyString)
    then (cleaned_lines ++ [trimEnd line], skip_until_scenario)
    else (cleaned_lines, skip_until_scenario).

(** The second loop: the state is ([final_lines], [prev_blank]). *)
Definition space_line (st : list string * bool) (line : string) : list string * bool :=
  let '(final_lines, prev_blank) := st in
  if String.eqb (trim line) EmptyString then
    if negb prev_blank then (final_lines ++ [line], true) else (final_lines, prev_blank)
  else
    let final_lines := final_lines ++ [line] in
    if startswith "Feature:" (trim line) then (final_lines ++ [EmptyString], false)
    else (final_lines, false).

Definition _clean_gherkin_output (content : string) : string :=
  let content := replace_all "```" EmptyString (replace_all "```gherkin" EmptyString content) in
  let lines := split_lines content in
  let cleaned_lines := fst (foldl clean_line ([], false) lines) in
  let final_lines := fst (foldl space_line ([], false) cleaned_lines) in
  join nl final_lines.

Definition _generate_generic_hover_feature (url : string) : string :=
  join nl [
    "Feature: Validate navigation menu functionality";
    EmptyString;
    "Scenario: Verify hover reveals dropdown menu";
    "  Given the user is on the " +:+ quoted url +:+ " page";
    "  When the user hovers over a navigation menu item";
    "  Then a dropdown menu should appear";
    "  And the menu should contain clickable options";
    EmptyString;
    "Scenario: Verify navigation through dropdown menu";
    "  Given the user is on the " +:+ quoted url +:+ " page";
    "  When the user hovers over a navigation menu item";
    "  And clicks a link from the dropdown";
    "  Then the page URL should change to the selected page"].

Definition _generate_generic_popup_feature (url : string) : string :=
  join nl [
    "Feature: Validate pop-up functionality";
    EmptyString;
    "Scenario: Verify the cancel button in the pop-up";
    "  Given the user is on the " +:+ quoted url +:+ " page";
    "  When the user clicks a button that triggers a pop-up";
    "  Then a pop-up should appear";
    "  And the user clicks the " +:+ quoted "Cancel" +:+ " button";
    "  Then the pop-up should close and the user should remain on the same page";
    EmptyString;
    "Scenario: Verify the continue button in the pop-up";
    "  Given the user is on the " +:+ quoted url +:+ " page";
    "  When the user clicks a button that triggers a pop-up";
    "  Then a pop-up should appear";
    "  And the user clicks the " +:+ quoted "Continue" +:+ " button";
    "  Then the expected action should be performed"].

(** [x[:n]] on a value that may be [None]. *)
Definition slice_text (n : nat) (t : option string) : exn + string :=
  match t with
  | Some s => inr (substring0 n s)
  | None => inl "TypeError: 'NoneType' object is not subscriptable"
  end.

Fixpoint collect {A B} (f : A → exn + B) (l : list A) : exn + list B :=
  match l with
  | [] => inr []
  | a :: rest =>
      match f a with
      | inl e => inl e
      | inr b => match collect f rest with
                 | inl e => inl e
                 | inr bs => inr (b :: bs)
                 end
      end
  end.

(** [page_structure.get('title', 'Unknown')] on the value held by the state. *)
Definition structure_title (page_structure : option StructureDict) : exn + string :=
  match page_structure with
  | None => inl "AttributeError: 'NoneType' object has no attribute 'get'"
  | Some EmptyDict => inr "Unknown"
  | Some (Structure s) => inr (PageStructure.title s)
  end.

Definition _create_hover_prompt (url : string) (hover_elements : list Confirmed.HoverElement)
    (page_structure : option StructureDict) : exn + Prompt :=
  match collect (λ elem,
           match collect (λ r, slice_text 30 (Snapshot.text r)) (Confirmed.revealed_elements elem) with
           | inl e => inl e
           | inr revealed => inr (substring0 50 (Hover.text (Confirmed.elem_info elem)), revealed)
           end) hover_elements with
  | inl e => inl e
  | inr hover_info =>
      match structure_title page_structure with
      | inl e => inl e
      | inr title => inr (HoverPrompt url title hover_info)
      end
  end.

Definition _create_popup_prompt (url : string) (popup_elements : list Confirmed.PopupTrigger)
    (page_structure : option StructureDict) : exn + Prompt :=
  match collect (λ elem,
           let popup_details := Confirmed.popup_details elem in
           match match popup_details with
                 | d :: _ => slice_text 150 (Modal.text d)
                 | [] => inr "modal content"
                 end with
           | inl e => inl e
           | inr popup_text =>
               inr (substring0 100 (Popup.text (Confirmed.trigger_info elem)), popup_text)
           end) popup_elements with
  | inl e => inl e
  | inr popup_info =>
      match structure_title page_structure with
      | inl e => inl e
      | inr title => inr (PopupPrompt url title popup_info)
      end
  end.

(** ** The pipeline ([orchestrator.py]) *)

Inductive Status := pending | running | completed | failed.

Global Instance Status_eq_dec : EqDecision Status.
Proof. solve_decision. Defined.

Module Ws.
(** The message handed to the progress sink. *)
Record Update := {
  type : string;
  task_id : option nat;
  status : Status;
  progress : option Z;
  current_step : option string;
  error : option string
}.
End Ws.

Module db.
(** A call to the durable store ([core/database.py]) or a file write to the
    output directory. *)
Inductive call :=
| create_task (url llm_provider llm_model : string)
| update_task_status (task_id : option nat) (status : Status) (progress : option Z)
    (current_step error_message : option string)
| add_log (task_id : option nat) (log_level message : string) (details : option nat)
| save_dom_analysis (task_id : option nat) (hover_elements : list Confirmed.HoverElement)
    (popup_elements : list Confirmed.PopupTrigger) (page_structure : StructureDict)
| save_feature (task_id : option nat) (feature_type feature_content file_path : string)
| write_text (filepath content : string).
End db.

(** The collaborators of the pipeline.  [durable_store] performs one call
    (its number is the new row id for [create_task]); [create_provider] is
    [LLMFactory.create_provider] and [llm_generate] the provider's
    [generate], with what they log themselves left out;
    [manager_send_update] is the registered sink's [send_update], acting on
    the sink's own state [K].  The configuration records held by the state
    were validated when the run was set up, so rebuilding them in a node does
    not raise. *)
Class Collaborators (W K : Type) := {
  OUTPUTS_DIR : string;
  durable_store : db.call → W → (exn + nat) * W;
  create_provider : LLMConfig → W → (exn + unit) * W;
  llm_generate : LLMConfig → Prompt → W → (exn + string) * W;
  strftime_now : W → string * W;
  manager_send_update : option nat → Ws.Update → K → (exn + unit) * K
}.

(** The process state of the pipeline: the browser module's session, the
    sink and whether one is registered ([websocket_manager]), and the record
    of what was handed to the sink and to the store, in call order. *)
Record World (W K : Type) := {
  session : Session W;
  sink : K;
  websocket_manager : bool;
  sent : list Ws.Update;
  store : list db.call
}.
Arguments session {W K} _.
Arguments sink {W K} _.
Arguments websocket_manager {W K} _.
Arguments sent {W K} _.
Arguments store {W K} _.

Record Feature := {
  content : string;
  file : string;
  path : string
}.

Module Result.
Record t := {
  task_id : option nat;
  status : Status;
  url : string;
  features_hover : option Feature;
  features_popup : option Feature;
  analysis_hover_elements : option (list Confirmed.HoverElement);
  analysis_popup_elements : option (list Confirmed.PopupTrigger);
  analysis_page_structure : option StructureDict
}.
End Result.

Module WorkflowState.
Record t := {
  url : string;
  llm_config : LLMConfig;
  browser_config : BrowserConfig;
  task_id : option nat;
  status : Status;
  progress : Z;
  current_step : string;
  error_message : option string;
  browser_initialized : bool;
  page_structure : option StructureDict;
  hover_elements : option (list Confirmed.HoverElement);
  popup_elements : option (list Confirmed.PopupTrigger);
  hover_features : option Feature;
  popup_features : option Feature;
  result : option Result.t;
  logs : list string
}.
End WorkflowState.

Module Update.
(** The dictionary a node returns: each key is present or absent. *)
Record t := {
  task_id : option nat;
  status : option Status;
  progress : option Z;
  current_step : option string;
  error_message : option string;
  browser_initialized : option bool;
  page_structure : option StructureDict;
  hover_elements : option (list Confirmed.HoverElement);
  popup_elements : option (list Confirmed.PopupTrigger);
  hover_features : option Feature;
  popup_features : option Feature;
  result : option Result.t;
  logs : list string
}.

(** The dictionary of every [except] clause of a node. *)
Definition failure (error_msg : string) : t :=
  {| task_id := None; status := Some failed; progress := None; current_step := None;
     error_message := Some error_msg; browser_initialized := None; page_structure := None;
     hover_elements := None; popup_elements := None; hover_features := None;
     popup_features := None; result := None; logs := [error_msg] |}.
End Update.

Definition overwrite {A} (old : option A) (new : option A) : option A :=
  match new with Some v => Some v | None => old end.

(** The graph merges a node's dictionary into the state: a present key
    replaces the value, [logs] is concatenated ([operator.add]). *)
Definition merge (s : WorkflowState.t) (u : Update.t) : WorkflowState.t :=
  {| WorkflowState.url := WorkflowState.url s;
     WorkflowState.llm_config := WorkflowState.llm_config s;
     WorkflowState.browser_config := WorkflowState.browser_config s;
     WorkflowState.task_id := overwrite (WorkflowState.task_id s) (Update.task_id u);
     WorkflowState.status := default (WorkflowState.status s) (Update.status u);
     WorkflowState.progress := default (WorkflowState.progress s) (Update.progress u);
     WorkflowState.current_step := default (WorkflowState.current_step s) (Update.current_step u);
     WorkflowState.error_message :=
       overwrite (WorkflowState.error_message s) (Update.error_message u);
     WorkflowState.browser_initialized :=
       default (WorkflowState.browser_initialized s) (Update.browser_initialized u);
     WorkflowState.page_structure :=
       overwrite (WorkflowState.page_structure s) (Update.page_structure u);
     WorkflowState.hover_elements :=
       overwrite (WorkflowState.hover_elements s) (Update.hover_elements u);
     WorkflowState.popup_elements :=
       overwrite (WorkflowState.popup_elements s) (Update.popup_elements u);
     WorkflowState.hover_features :=
       overwrite (WorkflowState.hover_features s) (Update.hover_features u);
     WorkflowState.popup_features :=
       overwrite (WorkflowState.popup_features s) (Update.popup_features u);
     WorkflowState.result := overwrite (WorkflowState.result s) (Update.result u);
     WorkflowState.logs := WorkflowState.logs s ++ Update.logs u |}.

Inductive Route :=
| to_handle_error
| to_browser_analysis
| to_generate_features
| to_complete.

Module node.
(** The nodes [build_workflow] adds to the graph. *)
Inductive name :=
| create_task
| browser_analysis
| generate_hover_features
| generate_popup_features
| complete_task
| handle_error.
End node.

(** [after_create_task], [after_browser_analysis], [after_feature_generation]. *)
Definition after_create_task (state : WorkflowState.t) : Route :=
  if decide (WorkflowState.status state = failed) then to_handle_error else to_browser_analysis.

Definition after_browser_analysis (state : WorkflowState.t) : Route :=
  if decide (WorkflowState.status state = failed) then to_handle_error else to_generate_features.

Definition after_feature_generation (state : WorkflowState.t) : Route :=
  if decide (WorkflowState.status state = failed) then to_handle_error else to_complete.

(** The edges of [build_workflow]; [None] is [END].  A route that a
    conditional edge does not map raises in the graph library. *)
Definition edge (n : node.name) (state : WorkflowState.t) : exn + option node.name :=
  match n with
  | node.create_task =>
      match after_create_task state with
      | to_browser_analysis => inr (Some node.browser_analysis)
      | to_handle_error => inr (Some node.handle_error)
      | _ => inl "KeyError"
      end
  | node.browser_analysis =>
      match after_browser_analysis state with
      | to_generate_features => inr (Some node.generate_hover_features)
      | to_handle_error => inr (Some node.handle_error)
      | _ => inl "KeyError"
      end
  | node.generate_hover_features => inr (Some node.generate_popup_features)
  | node.generate_popup_features =>
      match after_feature_generation state with
      | to_complete => inr (Some node.complete_task)
      | to_handle_error => inr (Some node.handle_error)
      | _ => inl "KeyError"
      end
  | node.complete_task => inr None
  | node.handle_error => inr None
  end.

Section Pipeline.
Context {W K : Type} `{Playwright W} `{Collaborators W K}.

Definition in_session {A} (m : M (Session W) A) : M (World W K) A :=
  λ w, let '(r, s) := m (session w) in
       (r, {| session := s; sink := sink w; websocket_manager := websocket_manager w;
              sent := sent w; store := store w |}).

Definition logger (lvl msg : string) : M (World W K) unit := in_session (log lvl msg).

(** One call to the durable store: the call is put on record, then made. *)
Definition db_call (c : db.call) : M (World W K) nat :=
  λ w, let '(r, s) := call (durable_store c) (session w) in
       (r, {| session := s; sink := sink w; websocket_manager := websocket_manager w;
              sent := sent w; store := store w ++ [c] |}).

(** [websocket_manager.send_update(task_id, update)]. *)
Definition manager_call (task_id : option nat) (update : Ws.Update) : M (World W K) unit :=
  λ w, let '(r, k) := manager_send_update task_id update (sink w) in
       (r, {| session := session w; sink := k; websocket_manager := websocket_manager w;
              sent := sent w ++ [update]; store := store w |}).

Definition send_ws_update (task_id : option nat) (update : Ws.Update) : M (World W K) unit :=
  λ w, if websocket_manager w then
         try_except (manager_call task_id update)
                    (λ e, logger "DEBUG" ("WebSocket update failed: " +:+ e)) w
       else ret tt w.

Definition status_update (task_id : option nat) (progress : Z) (current_step : string)
    : Ws.Update :=
  {| Ws.type := "status"; Ws.task_id := task_id; Ws.status := running;
     Ws.progress := Some progress; Ws.current_step := Some current_step; Ws.error := None |}.

Definition show_task (task_id : option nat) : string :=
  match task_id with Some n => pretty n | None => "None" end.

Definition create_task_node (state : WorkflowState.t) : M (World W K) Update.t :=
  try_except
    (let url := WorkflowState.url state in
     let llm_config := WorkflowState.llm_config state in
     task_id <- db_call (db.create_task url (provider llm_config) (model llm_config)) ;;
     logger "INFO" ("Created task " +:+ pretty task_id +:+ " for URL: " +:+ url) ;;
     db_call (db.update_task_status (Some task_id) running (Some 0%Z) (Some "Initializing") None) ;;
     db_call (db.add_log (Some task_id) "INFO" ("Starting test generation for " +:+ url) None) ;;
     send_ws_update (Some task_id) (status_update (Some task_id) 0 "Initializing browser") ;;
     ret {| Update.task_id := Some task_id; Update.status := Some running;
            Update.progress := Some 5%Z; Update.current_step := Some "Task created";
            Update.error_message := None; Update.browser_initialized := None;
            Update.page_structure := None; Update.hover_elements := None;
            Update.popup_elements := None; Update.hover_features := None;
            Update.popup_features := None; Update.result := None;
            Update.logs := ["Task " +:+ pretty task_id +:+ " created for " +:+ url] |})
    (λ e, let error_msg := "Failed to create task: " +:+ e in
          logger "ERROR" error_msg ;;
          ret (Update.failure error_msg)).

(** [async with BrowserAutomation(browser_config) as browser: body]: the
    session is closed on every exit of the body; a failed [initialize] skips
    both. *)
Definition async_with_browser {A} (browser_config : BrowserConfig) (body : M (World W K) A)
    : M (World W K) A :=
  in_session (initialize browser_config) ;;
  (λ w, match body w with
        | (r, w') =>
            match in_session close w' with
            | (inl e, w'') => (inl e, w'')
            | (inr _, w'') => (r, w'')
            end
        end).

Definition structure_title_or_unknown (page_structure : StructureDict) : string :=
  match page_structure with
  | EmptyDict => "Unknown"
  | Structure s => PageStructure.title s
  end.

Definition browser_analysis_subgraph (state : WorkflowState.t) : M (World W K) Update.t :=
  let task_id := WorkflowState.task_id state in
  let url := WorkflowState.url state in
  let browser_config := WorkflowState.browser_config state in
  try_except
    (db_call (db.update_task_status task_id running (Some 10%Z) (Some "Launching browser") None) ;;
     send_ws_update task_id (status_update task_id 10 "Launching browser") ;;
     analysis <- async_with_browser browser_config
       (db_call (db.update_task_status task_id running (Some 20%Z) (Some ("Loading " +:+ url)) None) ;;
        send_ws_update task_id (status_update task_id 20 ("Loading " +:+ url)) ;;
        loaded <- in_session (navigate_to_url url) ;;
        (if loaded : bool then ret tt else raise ("Failed to load URL: " +:+ url)) ;;
        db_call (db.add_log task_id "INFO" ("Successfully loaded " +:+ url) None) ;;
        db_call (db.update_task_status task_id running (Some 30%Z)
                   (Some "Analyzing page structure") None) ;;
        send_ws_update task_id (status_update task_id 30 "Analyzing page structure") ;;
        page_structure <- in_session get_page_structure ;;
        db_call (db.add_log task_id "INFO"
                   ("Page structure analyzed: " +:+ structure_title_or_unknown page_structure)
                   None) ;;
        db_call (db.update_task_status task_id running (Some 40%Z)
                   (Some "Detecting hover elements") None) ;;
        send_ws_update task_id (status_update task_id 40 "Detecting hover elements") ;;
        hover_elements <- in_session analyze_hover_elements ;;
        db_call (db.add_log task_id "INFO"
                   ("Found " +:+ pretty (length hover_elements) +:+ " hover elements")
                   (Some (length hover_elements))) ;;
        db_call (db.update_task_status task_id running (Some 60%Z)
                   (Some "Detecting popup/modal elements") None) ;;
        send_ws_update task_id (status_update task_id 60 "Detecting popup/modal elements") ;;
        popup_elements <- in_session analyze_popup_elements ;;
        db_call (db.add_log task_id "INFO"
                   ("Found " +:+ pretty (length popup_elements) +:+ " popup elements")
                   (Some (length popup_elements))) ;;
        ret (page_structure, hover_elements, popup_elements)) ;;
     let '(page_structure, hover_elements, popup_elements) := analysis in
     db_call (db.save_dom_analysis task_id hover_elements popup_elements page_structure) ;;
     ret {| Update.task_id := None; Update.status := None;
            Update.progress := Some 65%Z;
            Update.current_step := Some "Browser analysis complete";
            Update.error_message := None; Update.browser_initialized := Some true;
            Update.page_structure := Some page_structure;
            Update.hover_elements := Some hover_elements;
            Update.popup_elements := Some popup_elements;
            Update.hover_features := None; Update.popup_features := None;
            Update.result := None;
            Update.logs :=
              ["Page structure analyzed: " +:+ structure_title_or_unknown page_structure;
               "Found " +:+ pretty (length hover_elements) +:+ " hover elements";
               "Found " +:+ pretty (length popup_elements) +:+ " popup elements"] |})
    (λ e, let error_msg := "Browser analysis error: " +:+ e in
          logger "ERROR" error_msg ;;
          ret (Update.failure error_msg)).

(** [create_gherkin_generator]. *)
Definition create_gherkin_generator (llm_config : LLMConfig) : M (World W K) unit :=
  in_session (call (create_provider llm_config)) ;;
  logger "INFO" "Initialized Gherkin generator".

(** [not elements] on the value held by the state. *)
Definition elements_or_empty {A} (elements : option (list A)) : list A := default [] elements.

Definition generate_hover_features (llm_config : LLMConfig) (url : string)
    (hover_elements : option (list Confirmed.HoverElement))
    (page_structure : option StructureDict) : M (World W K) string :=
  try_except
    (logger "INFO" "Generating hover interaction features..." ;;
     match elements_or_empty hover_elements with
     | [] =>
         logger "WARNING" "No hover elements found, generating generic feature" ;;
         ret (_generate_generic_hover_feature url)
     | hover_elements =>
         prompt <- match _create_hover_prompt url hover_elements page_structure with
                   | inl e => raise e
                   | inr p => ret p
                   end ;;
         feature_content <- in_session (call (llm_generate llm_config prompt)) ;;
         let feature_content := _clean_gherkin_output feature_content in
         logger "INFO" "Successfully generated hover features" ;;
         ret feature_content
     end)
    (λ e, logger "ERROR" ("Error generating hover features: " +:+ e) ;; raise e).

Definition generate_popup_features (llm_config : LLMConfig) (url : string)
    (popup_elements : option (list Confirmed.PopupTrigger))
    (page_structure : option StructureDict) : M (World W K) string :=
  try_except
    (logger "INFO" "Generating popup interaction features..." ;;
     match elements_or_empty popup_elements with
     | [] =>
         logger "WARNING" "No popup elements found, generating generic feature" ;;
         ret (_generate_generic_popup_feature url)
     | popup_elements =>
         prompt <- match _create_popup_prompt url popup_elements page_structure with
                   | inl e => raise e
                   | inr p => ret p
                   end ;;
         feature_content <- in_session (call (llm_generate llm_config prompt)) ;;
         let feature_content := _clean_gherkin_output feature_content in
         logger "INFO" "Successfully generated popup features" ;;
         ret feature_content
     end)
    (λ e, logger "ERROR" ("Error generating popup features: " +:+ e) ;; raise e).

Definition save_feature_file (content filename : string) : M (World W K) string :=
  try_except
    (let filepath := OUTPUTS_DIR +:+ "/" +:+ filename in
     db_call (db.write_text filepath content) ;;
     logger "INFO" ("Saved feature file: " +:+ filepath) ;;
     ret filepath)
    (λ e, logger "ERROR" ("Error saving feature file: " +:+ e) ;; raise e).

Definition timestamp : M (World W K) string :=
  in_session (λ s, let '(t, w) := strftime_now (world s) in
                   (inr t, {| world := w; logged := logged s |})).

Definition generate_hover_features_node (state : WorkflowState.t) : M (World W K) Update.t :=
  let task_id := WorkflowState.task_id state in
  let url := WorkflowState.url state in
  let llm_config := WorkflowState.llm_config state in
  let hover_elements := WorkflowState.hover_elements state in
  let page_structure := WorkflowState.page_structure state in
  try_except
    (db_call (db.update_task_status task_id running (Some 70%Z)
                (Some "Generating hover test scenarios") None) ;;
     send_ws_update task_id (status_update task_id 70 "Generating hover test scenarios") ;;
     create_gherkin_generator llm_config ;;
     hover_features_content <- generate_hover_features llm_config url hover_elements page_structure ;;
     timestamp <- timestamp ;;
     let hover_filename := "hover_tests_" +:+ timestamp +:+ ".feature" in
     hover_filepath <- save_feature_file hover_features_content hover_filename ;;
     db_call (db.save_feature task_id "hover" hover_features_content hover_filepath) ;;
     db_call (db.add_log task_id "INFO" ("Generated hover features: " +:+ hover_filename) None) ;;
     let hover_features :=
       {| content := hover_features_content; file := hover_filename; path := hover_filepath |} in
     ret {| Update.task_id := None; Update.status := None;
            Update.progress := Some 80%Z;
            Update.current_step := Some "Hover features generated";
            Update.error_message := None; Update.browser_initialized := None;
            Update.page_structure := None; Update.hover_elements := None;
            Update.popup_elements := None;
            Update.hover_features := Some hover_features; Update.popup_features := None;
            Update.result := None;
            Update.logs := ["Generated hover features: " +:+ hover_filename] |})
    (λ e, let error_msg := "Hover feature generation failed: " +:+ e in
          logger "ERROR" error_msg ;;
          db_call (db.add_log task_id "ERROR" error_msg None) ;;
          ret (Update.failure error_msg)).

Definition generate_popup_features_node (state : WorkflowState.t) : M (World W K) Update.t :=
  let task_id := WorkflowState.task_id state in
  let url := WorkflowState.url state in
  let llm_config := WorkflowState.llm_config state in
  let popup_elements := WorkflowState.popup_elements state in
  let page_structure := WorkflowState.page_structure state in
  try_except
    (db_call (db.update_task_status task_id running (Some 85%Z)
                (Some "Generating popup test scenarios") None) ;;
     send_ws_update task_id (status_update task_id 85 "Generating popup test scenarios") ;;
     create_gherkin_generator llm_config ;;
     popup_features_content <- generate_popup_features llm_config url popup_elements page_structure ;;
     timestamp <- timestamp ;;
     let popup_filename := "popup_tests_" +:+ timestamp +:+ ".feature" in
     popup_filepath <- save_feature_file popup_features_content popup_filename ;;
     db_call (db.save_feature task_id "popup" popup_features_content popup_filepath) ;;
     db_call (db.add_log task_id "INFO" ("Generated popup features: " +:+ popup_filename) None) ;;
     let popup_features :=
       {| content := popup_features_content; file := popup_filename; path := popup_filepath |} in
     ret {| Update.task_id := None; Update.status := None;
            Update.progress := Some 95%Z;
            Update.current_step := Some "Popup features generated";
            Update.error_message := None; Update.browser_initialized := None;
            Update.page_structure := None; Update.hover_elements := None;
            Update.popup_elements := None;
            Update.hover_features := None; Update.popup_features := Some popup_features;
            Update.result := None;
            Update.logs := ["Generated popup features: " +:+ popup_filename] |})
    (λ e, let error_msg := "Popup feature generation failed: " +:+ e in
          logger "ERROR" error_msg ;;
          db_call (db.add_log task_id "ERROR" error_msg None) ;;
          ret (Update.failure error_msg)).

Definition complete_task_node (state : WorkflowState.t) : M (World W K) Update.t :=
  let task_id := WorkflowState.task_id state in
  let url := WorkflowState.url state in
  try_except
    (db_call (db.update_task_status task_id completed (Some 100%Z)
                (Some "Test generation completed") None) ;;
     db_call (db.add_log task_id "INFO" "Test generation completed successfully" None) ;;
     send_ws_update task_id
       {| Ws.type := "complete"; Ws.task_id := task_id; Ws.status := completed;
          Ws.progress := Some 100%Z; Ws.current_step := Some "Test generation completed";
          Ws.error := None |} ;;
     let result :=
       {| Result.task_id := task_id; Result.status := completed; Result.url := url;
          Result.features_hover := WorkflowState.hover_features state;
          Result.features_popup := WorkflowState.popup_features state;
          Result.analysis_hover_elements := WorkflowState.hover_elements state;
          Result.analysis_popup_elements := WorkflowState.popup_elements state;
          Result.analysis_page_structure := WorkflowState.page_structure state |} in
     logger "INFO" ("Task " +:+ show_task task_id +:+ " completed successfully") ;;
     ret {| Update.task_id := None; Update.status := Some completed;
            Update.progress := Some 100%Z;
            Update.current_step := Some "Test generation completed";
            Update.error_message := None; Update.browser_initialized := None;
            Update.page_structure := None; Update.hover_elements := None;
            Update.popup_elements := None; Update.hover_features := None;
            Update.popup_features := None; Update.result := Some result;
            Update.logs := ["Task " +:+ show_task task_id +:+ " completed successfully"] |})
    (λ e, let error_msg := "Task completion failed: " +:+ e in
          logger "ERROR" error_msg ;;
          ret (Update.failure error_msg)).

(** Python truthiness of [task_id]. *)
Definition task_truthy (task_id : option nat) : bool :=
  match task_id with Some n => (0 <? n)%nat | None => false end.

Definition show_error (error_message : option string) : string :=
  default "None" error_message.

Definition handle_error_node (state : WorkflowState.t) : M (World W K) Update.t :=
  let task_id := WorkflowState.task_id state in
  let error_message := WorkflowState.error_message state in
  (if task_truthy task_id then
     db_call (db.update_task_status task_id failed None None error_message) ;;
     db_call (db.add_log task_id "ERROR" (show_error error_message) None) ;;
     send_ws_update task_id
       {| Ws.type := "error"; Ws.task_id := task_id; Ws.status := failed;
          Ws.progress := None; Ws.current_step := None; Ws.error := error_message |}
   else ret tt) ;;
  logger "ERROR" ("Workflow failed: " +:+ show_error error_message) ;;
  ret {| Update.task_id := None; Update.status := Some failed; Update.progress := None;
         Update.current_step := None; Update.error_message := None;
         Update.browser_initialized := None; Update.page_structure := None;
         Update.hover_elements := None; Update.popup_elements := None;
         Update.hover_features := None; Update.popup_features := None; Update.result := None;
         Update.logs := ["Error handled: " +:+ show_error error_message] |}.

Definition run_node (n : node.name) : WorkflowState.t → M (World W K) Update.t :=
  match n with
  | node.create_task => create_task_node
  | node.browser_analysis => browser_analysis_subgraph
  | node.generate_hover_features => generate_hover_features_node
  | node.generate_popup_features => generate_popup_features_node
  | node.complete_task => complete_task_node
  | node.handle_error => handle_error_node
  end.

(** The graph run: a node runs on the state, its dictionary is merged, the
    edge out of it is taken; the library stops a run after [limit] steps
    with an error. *)
Fixpoint run_graph (limit : nat) (n : node.name) (state : WorkflowState.t)
    : M (World W K) WorkflowState.t :=
  match limit with
  | O => raise "GraphRecursionError"
  | S limit =>
      update <- run_node n state ;;
      let state := merge state update in
      match edge n state with
      | inl e => raise e
      | inr None => ret state
      | inr (Some n') => run_graph limit n' state
      end
  end.

Definition recursion_limit : nat := 25.

Definition initial_state (url : string) (llm_config : LLMConfig) (browser_config : BrowserConfig)
    : WorkflowState.t :=
  {| WorkflowState.url := url;
     WorkflowState.llm_config := llm_config;
     WorkflowState.browser_config := browser_config;
     WorkflowState.task_id := None;
     WorkflowState.status := pending;
     WorkflowState.progress := 0;
     WorkflowState.current_step := "Initializing";
     WorkflowState.error_message := None;
     WorkflowState.browser_initialized := false;
     WorkflowState.page_structure := None;
     WorkflowState.hover_elements := None;
     WorkflowState.popup_elements := None;
     WorkflowState.hover_features := None;
     WorkflowState.popup_features := None;
     WorkflowState.result := None;
     WorkflowState.logs := [] |}.

(** The workflow of [generate_tests]: the graph entered at [create_task] on
    the initial state.  What [generate_tests] does with the outcome (it
    returns the result or raises to its caller) is not part of the model. *)
Definition run_workflow (url : string) (llm_config : LLMConfig) (browser_config : BrowserConfig)
    : M (World W K) WorkflowState.t :=
  run_graph recursion_limit node.create_task (initial_state url llm_config browser_config).

End Pipeline.

(** ** A small page and its collaborators, to run the definitions on

    One page: a navigation link "Store" whose hover reveals the link
    "Shop the Latest", and a "Sign up" button whose click opens a dialog. *)

Definition shown : ComputedStyle :=
  {| display := "block"; visibility := "visible"; opacity := "1";
     cursor := "auto"; position := "static" |}.

Definition box (w h : Q) : DOMRect :=
  {| rect_x := 10; rect_y := 20; rect_width := w; rect_height := h |}.

Definition plain (name : string) (attrs : list (string * string)) (txt : string) : Element :=
  {| nodeName := name; attributes := attrs; innerText := Some txt; textContent := txt;
     href := None; boundingClientRect := box 300 200; computedStyle := shown;
     matches := λ _, Some false |}.

Definition store_link : Element :=
  {| nodeName := "A"; attributes := [("class", "nav")]; innerText := Some "Store";
     textContent := "Store"; href := Some "https://example.test/store";
     boundingClientRect := box 80 20;
     computedStyle := {| display := "inline"; visibility := "visible"; opacity := "1";
                         cursor := "pointer"; position := "static" |};
     matches := λ _, Some false |}.

Definition latest_link (hovering : bool) : Element :=
  {| nodeName := "A"; attributes := []; innerText := Some "Shop the Latest";
     textContent := "Shop the Latest"; href := Some "https://example.test/latest";
     boundingClientRect := box 120 20;
     computedStyle := {| display := if hovering then "block" else "none";
                         visibility := "visible"; opacity := "1";
                         cursor := "auto"; position := "static" |};
     matches := λ _, Some false |}.

Definition signup_button : Element :=
  plain "BUTTON" [("type", "submit")] "Sign up".

Definition dialog_node : Node :=
  ElementNode (plain "DIV" [("role", "dialog")] "Join us")
    [ElementNode (plain "BUTTON" [("aria-label", "close")] "x") []].

Record ToyWorld := {
  hovering : bool;
  dialog_open : bool
}.

Definition toy_document (w : ToyWorld) : Document :=
  {| documentChildNodes :=
       [CharacterData;
        ElementNode (plain "HTML" [] "Store Sign up")
          [ElementNode (plain "HEAD" [] EmptyString) [];
           ElementNode (plain "BODY" [] "Store Sign up")
             ([ElementNode store_link [];
               ElementNode (latest_link (hovering w)) [];
               ElementNode signup_button []] ++
              (if dialog_open w then [dialog_node] else []))]];
     styleSheets := [None; Some [{| selectorText := Some "a.nav:hover" |}]];
     body_innerHTML_length :=
       Some (120 + (if hovering w then 7 else 0) + (if dialog_open w then 60 else 0))%nat |}.

Inductive ToyHandle := the_store_link | the_signup_button | the_close_button.

(** What varies between runs of the small page. *)
Record Scenario := {
  goto_fails : bool;
  llm_reply : exn + string;
  sink_fails : bool
}.

Definition toy_query (selector : string) (w : ToyWorld) : option ToyHandle :=
  if String.eqb selector "xpath=/html/body/a" then Some the_store_link
  else if String.eqb selector "xpath=/html/body/button" then Some the_signup_button
  else if String.prefix "[aria-label" selector && dialog_open w then Some the_close_button
  else None.

Definition toy_playwright (sc : Scenario) : Playwright ToyWorld :=
  {| ElementHandle := ToyHandle;
     chromium_launch := λ _ w, (inr tt, w);
     browser_close := λ w, (inr tt, w);
     page_goto := λ _ w,
       if goto_fails sc then (inl "TimeoutError: Timeout 30000ms exceeded.", w) else (inr tt, w);
     page_evaluate := λ w, (inr (toy_document w), w);
     page_query_selector := λ selector w, (inr (toy_query selector w), w);
     page_query_selector_all := λ _ w, (inr [], w);
     element_hover := λ h w,
       match h with
       | the_store_link => (inr tt, {| hovering := true; dialog_open := dialog_open w |})
       | _ => (inr tt, w)
       end;
     element_click := λ h w,
       match h with
       | the_signup_button => (inr tt, {| hovering := hovering w; dialog_open := true |})
       | the_close_button => (inr tt, {| hovering := hovering w; dialog_open := false |})
       | the_store_link => (inr tt, w)
       end;
     mouse_move := λ _ _ w, (inr tt, {| hovering := false; dialog_open := dialog_open w |});
     keyboard_press := λ _ w, (inr tt, w);
     page_content := λ w, (inr "<html></html>", w);
     page_title := λ w, (inr "Example", w);
     page_url := λ _, "https://example.test/";
     soup_count := λ _ _, 1%nat;
     asyncio_sleep := λ _ w, w |}.

Definition toy_collaborators (sc : Scenario) : Collaborators ToyWorld unit :=
  {| OUTPUTS_DIR := "outputs";
     durable_store := λ _ w, (inr 1%nat, w);
     create_provider := λ _ w, (inr tt, w);
     llm_generate := λ _ _ w, (llm_reply sc, w);
     strftime_now := λ w, ("20240101_120000", w);
     manager_send_update := λ _ _ k,
       if sink_fails sc then (inl "WebSocketDisconnect", k) else (inr tt, k) |}.

Definition toy_session : Session ToyWorld :=
  {| world := {| hovering := false; dialog_open := false |}; logged := [] |}.

Definition toy_world (registered : bool) : World ToyWorld unit :=
  {| session := toy_session; sink := tt; websocket_manager := registered;
     sent := []; store := [] |}.

Definition toy_llm_config : LLMConfig :=
  {| provider := "groq"; model := "openai/gpt-oss-20b"; temperature := 3 # 10;
     max_tokens := 4096; api_key := None |}.

Definition toy_browser_config : BrowserConfig :=
  {| headless := true; timeout := 30000; viewport_width := 1920; viewport_height := 1080;
     slow_mo := 100 |}.

Definition happy : Scenario :=
  {| goto_fails := false;
     llm_reply := inr "Feature: Validate navigation menu functionality";
     sink_fails := false |}.

(** ** The locator, in the specification's words

    The structural path lists the element's ancestors from the root down to
    the element itself; each is recorded by its tag name and its 1-based
    ordinal among the siblings of the same tag. *)

(** The element and its ancestors, innermost first, each with its place. *)
Fixpoint ancestors_or_self (current : Element) (p : Place) : list (Element * Place) :=
  (current, p) ::
  match p with
  | InDocument _ _ => []
  | InElement _ _ parent up => ancestors_or_self parent up
  end.

(** 1-based ordinal among the element siblings of the same tag. *)
Definition ordinal (current : Element) (p : Place) : nat :=
  S (length (base.filter (λ s, nodeName s = nodeName current) (elements_of (previous_of p)))).

(** How the path writes one step: the tag name in lower case, followed by
    the ordinal in brackets; ordinal 1 is written as the bare tag name. *)
Definition written_step (tag : string) (ord : nat) : string :=
  if decide (ord = 1%nat) then tag else tag +:+ "[" +:+ pretty ord +:+ "]".

Definition structural_path (l : Loc) : string :=
  "/" +:+ join "/" ((λ a, written_step (toLowerCase (nodeName a.1)) (ordinal a.1 a.2)) <$>
                    rev (ancestors_or_self (element l) (place l))).

Definition id_reference (i : string) : string :=
  "//*[@id=" +:+ String dquote (i +:+ String dquote "]").

(** The outermost step of a chain is a child of the document node. *)
Definition root_anchored (chain : list (Element * Place)) : Prop :=
  ∃ root previous next rest, chain = (root, InDocument previous next) :: rest.

(** The structural path with the ordinal written at every step, as the
    specification's sentence reads. *)
Definition indexed_path (l : Loc) : string :=
  "/" +:+ join "/" ((λ a, toLowerCase (nodeName a.1) +:+ "[" +:+ pretty (ordinal a.1 a.2) +:+ "]") <$>
                    rev (ancestors_or_self (element l) (place l))).

(** The root element of the small page, and its "Store" link. *)
Definition toy_root : Loc :=
  {| element := plain "HTML" [] "Store Sign up"; childNodes := [];
     place := InDocument [CharacterData] [] |}.

(** What a scan loop maintains: the candidates emitted so far have pairwise
    different locators, all of them in [seenElements]. *)
Definition scan_inv {C} (locator : C → string) (st : list C * gset string) : Prop :=
  NoDup (locator <$> st.1) ∧ ∀ c, c ∈ st.1 → locator c ∈ st.2.

(** A computation that returns normally from every state. *)
Definition returns {S A} (m : M S A) : Prop := ∀ s, ∃ a s', m s = (inr a, s').

(** The snapshot [_capture_page_state] falls back to. *)
Definition empty_snapshot : Snapshot.State :=
  {| Snapshot.visible_elements := []; Snapshot.html_length := 0 |}.

(** The entry the hover loop appends for a confirmed candidate. *)
Definition confirmed_hover (elem_info : Hover.Candidate) (before after : Snapshot.State)
    : Confirmed.HoverElement :=
  {| Confirmed.elem_info := elem_info;
     Confirmed.hover_confirmed := true;
     Confirmed.revealed_elements := _get_revealed_elements before after |}.

(** The entry the popup loop appends for a confirmed trigger. *)
Definition confirmed_popup (trigger_info : Popup.Trigger) (modal_details : list Modal.Detail)
    : Confirmed.PopupTrigger :=
  {| Confirmed.trigger_info := trigger_info;
     Confirmed.popup_confirmed := true;
     Confirmed.popup_details := modal_details |}.

(** A block that keeps a property of its local variable, however it ends. *)
Definition keeps {S L A} (P : L → Prop) (m : M (S * L) A) : Prop :=
  ∀ s l, P l → P (m (s, l)).2.2.

(** What holds of every entry of [confirmed_hover_elements]: it was appended
    for a pair of snapshots that differ, with the revealed elements of that
    pair. *)
Definition hover_entry_ok (c : Confirmed.HoverElement) : Prop :=
  ∃ before after,
    _has_content_changed before after = true ∧
    c = confirmed_hover (Confirmed.elem_info c) before after.

(** What holds of every entry of [confirmed_popup_triggers]: the modal count
    went up or a modal description was captured. *)
Definition popup_entry_ok (c : Confirmed.PopupTrigger) : Prop :=
  ∃ before_modals after_modals : nat,
    ((before_modals < after_modals)%nat ∨ Confirmed.popup_details c ≠ []) ∧
    Confirmed.popup_confirmed c = true.

(** The small page, before and while the pointer is over "Store", and with
    the dialog open. *)
Definition toy_rest : ToyWorld := {| hovering := false; dialog_open := false |}.
Definition toy_hovered : ToyWorld := {| hovering := true; dialog_open := false |}.
Definition toy_dialog : ToyWorld := {| hovering := false; dialog_open := true |}.

Definition snapshot_of (w : ToyWorld) : Snapshot.State :=
  match capture_script (toy_document w) with
  | inr state => state
  | inl _ => empty_snapshot
  end.

Definition store_candidate : Hover.Candidate :=
  {| Hover.tag := "a"; Hover.text := "Store"; Hover.xpath := "/html/body/a";
     Hover.class := "nav"; Hover.id := None;
     Hover.href := Some "https://example.test/store"; Hover.role := None;
     Hover.ariaLabel := None;
     Hover.position := {| Hover.x := 10; Hover.y := 20; Hover.width := 80; Hover.height := 20 |} |}.

Definition signup_trigger : Popup.Trigger :=
  {| Popup.tag := "button"; Popup.text := "Sign up"; Popup.xpath := "/html/body/button";
     Popup.class := EmptyString; Popup.id := None; Popup.onclick := None;
     Popup.dataAttrs := []; Popup.ariaHaspopup := None;
     Popup.position := {| Popup.x := 10; Popup.y := 20 |} |}.

Definition session_at (w : ToyWorld) : Session ToyWorld := {| world := w; logged := [] |}.

(** ** What a node of the graph leaves behind *)

Definition is_save_dom (c : db.call) : bool :=
  match c with db.save_dom_analysis _ _ _ _ => true | _ => false end.

(** The node returned a dictionary that does not report failure. *)
Definition succeeded (r : exn + Update.t) : bool :=
  match r with
  | inr u => negb (bool_decide (Update.status u = Some failed))
  | inl _ => false
  end.

(** The progress values a node hands to the sink when it goes through. *)
Definition emitted (n : node.name) : list Z :=
  match n with
  | node.create_task => [0]
  | node.browser_analysis => [10; 20; 30; 40; 60]
  | node.generate_hover_features => [70]
  | node.generate_popup_features => [85]
  | node.complete_task => [100]
  | node.handle_error => []
  end%Z.

(** The nodes whose [except] clause (or whose body, for [handle_error])
    writes to the store outside any [try]. *)
Definition may_raise (n : node.name) : bool :=
  match n with
  | node.generate_hover_features | node.generate_popup_features | node.handle_error => true
  | _ => false
  end.

Definition success_status (n : node.name) : option Status :=
  match n with
  | node.create_task => Some running
  | node.complete_task => Some completed
  | node.handle_error => Some failed
  | _ => None
  end.

Definition no_discovery (u : Update.t) : Prop :=
  Update.page_structure u = None ∧ Update.hover_elements u = None ∧
  Update.popup_elements u = None.

(** What holds after node [n] ran from [w] with outcome [r] in [w']: the
    sink registration is untouched; the records of store calls and of sink
    messages only grew; only the browser analysis calls the store with a
    discovery result, and only a browser analysis that went through returns
    one; an exception left the node only
    where [may_raise] says; a dictionary is either that of an [except] clause
    (with a message that is not empty) or carries the node's own status. *)
Definition node_post {W K} (n : node.name) (w : World W K) (r : exn + Update.t)
    (w' : World W K) : Prop :=
  websocket_manager w' = websocket_manager w ∧
  (∃ calls, store w' = store w ++ calls ∧
     (n = node.browser_analysis ∨ Forall (λ c, is_save_dom c = false) calls)) ∧
  (∃ msgs, sent w' = sent w ++ msgs ∧
     (succeeded r = true →
      omap Ws.progress msgs = if websocket_manager w then emitted n else [])) ∧
  match r with
  | inl e => may_raise n = true
  | inr u =>
      ((n = node.browser_analysis ∧ succeeded r = true) ∨ no_discovery u) ∧
      (n ≠ node.complete_task → Update.result u = None) ∧
      (n = node.generate_hover_features ∨ Update.hover_features u = None) ∧
      ((∃ msg, u = Update.failure msg ∧ msg ≠ EmptyString ∧ n ≠ node.handle_error) ∨
       (Update.error_message u = None ∧ Update.status u = success_status n))
  end.

(** The state carries no discovery result and no final result. *)
Definition without_discovery (state : WorkflowState.t) : Prop :=
  WorkflowState.page_structure state = None ∧ WorkflowState.hover_elements state = None ∧
  WorkflowState.popup_elements state = None ∧ WorkflowState.result state = None.

(** The state reports a failure with a message that is not empty. *)
Definition failed_with_message (state : WorkflowState.t) : Prop :=
  WorkflowState.status state = failed ∧
  ∃ msg, WorkflowState.error_message state = Some msg ∧ msg ≠ EmptyString.

(** The progress values handed to the sink between two worlds. *)
Definition progress_sent {W K} (w w' : World W K) : list Z :=
  omap Ws.progress (drop (length (sent w)) (sent w')).

(** The values of a run that goes through. *)
Definition happy_path : list Z := [0; 10; 20; 30; 40; 60; 70; 85; 100]%Z.

(** Navigation never reaches a loaded page. *)
Definition navigation_fails {W} `{Playwright W} : Prop :=
  ∀ url w, ∃ e w', page_goto url w = (inl e, w').

(** Every call to the durable store goes through. *)
Definition store_reliable {W K} `{Collaborators W K} : Prop :=
  ∀ c w, ∃ n w', durable_store c w = (inr n, w').

Global Instance node_name_eq_dec : EqDecision node.name.
Proof. solve_decision. Defined.

(** The values still to come on a run that goes through from node [n]. *)
Definition rest_of_path (n : node.name) : list Z :=
  match n with
  | node.create_task => happy_path
  | node.browser_analysis => [10; 20; 30; 40; 60; 70; 85; 100]
  | node.generate_hover_features => [70; 85; 100]
  | node.generate_popup_features => [85; 100]
  | node.complete_task => [100]
  | node.handle_error => []
  end%Z.


(** The longest way from a node to the end of the graph, in steps. *)
Definition steps_left (n : node.name) : nat :=
  match n with
  | node.create_task => 5
  | node.browser_analysis => 4
  | node.generate_hover_features => 3
  | node.generate_popup_features => 2
  | node.complete_task => 1
  | node.handle_error => 1
  end.

(** ** Outcomes that do not depend on the sink *)

(** A computation whose outcome is the same from related states, and which
    leaves related states behind. *)
Definition blind {S A} (R : S → S → Prop) (m : M S A) : Prop :=
  ∀ s1 s2, R s1 s2 → (m s1).1 = (m s2).1 ∧ R (m s1).2 (m s2).2.

(** Two sessions that differ in the log only. *)
Definition same_page {W} (s1 s2 : Session W) : Prop := world s1 = world s2.

(** The same, next to equal local variables. *)
Definition same_page_and {W L} (sl1 sl2 : Session W * L) : Prop :=
  same_page sl1.1 sl2.1 ∧ sl1.2 = sl2.2.

(** Two pipeline states that differ only in the sink, in whether one is
    registered, in what was handed to it and in the log. *)
Definition same_outside {W K} (w1 w2 : World W K) : Prop :=
  world (session w1) = world (session w2) ∧ store w1 = store w2.

(** Runs of the small page that go wrong: the page never loads; the
    generator raises; the generator returns an empty text; the listening
    client is gone. *)
Definition no_page : Scenario :=
  {| goto_fails := true;
     llm_reply := inr "Feature: Validate navigation menu functionality";
     sink_fails := false |}.

Definition generator_down : Scenario :=
  {| goto_fails := false; llm_reply := inl "RateLimitError"; sink_fails := false |}.


Definition client_gone : Scenario :=
  {| goto_fails := false;
     llm_reply := inr "Feature: Validate navigation menu functionality";
     sink_fails := true |}.

Definition toy_url : string := "https://example.test/".

Definition toy_run (sc : Scenario) (registered : bool)
    : (exn + WorkflowState.t) * World ToyWorld unit :=
  run_workflow (H := toy_playwright sc) (H0 := toy_collaborators sc)
    toy_url toy_llm_config toy_browser_config (toy_world registered).

Definition final_state (sc : Scenario) (registered : bool) : WorkflowState.t :=
  match (toy_run sc registered).1 with
  | inr st => st
  | inl _ => initial_state toy_url toy_llm_config toy_browser_config
  end.

(** The state of the small page's run when the hover generation starts. *)
Definition analysed_state : WorkflowState.t :=
  {| WorkflowState.url := toy_url;
     WorkflowState.llm_config := toy_llm_config;
     WorkflowState.browser_config := toy_browser_config;
     WorkflowState.task_id := Some 1%nat;
     WorkflowState.status := running;
     WorkflowState.progress := 65;
     WorkflowState.current_step := "Browser analysis complete";
     WorkflowState.error_message := None;
     WorkflowState.browser_initialized := true;
     WorkflowState.page_structure := Some EmptyDict;
     WorkflowState.hover_elements :=
       Some [confirmed_hover store_candidate (snapshot_of toy_rest) (snapshot_of toy_hovered)];
     WorkflowState.popup_elements := Some [];
     WorkflowState.hover_features := None;
     WorkflowState.popup_features := None;
     WorkflowState.result := None;
     WorkflowState.logs := [] |}.

(** ** What the static scans accept

    The conditions under which a visit of a scan emits an element, apart from
    the test on the locators seen so far. *)

(** An element the hover scan would emit, were its locator new. *)
Definition hover_eligible (sheets : list StyleSheet) (l : Loc) : bool :=
  let e := element l in
  isVisible e &&
  negb (String.eqb (hover_text e) EmptyString &&
        negb (String.eqb (toLowerCase (nodeName e)) "img") &&
        negb (String.eqb (toLowerCase (nodeName e)) "svg")) &&
  negb (200 <? String.length (hover_text e))%nat &&
  hasHoverBehavior sheets l.

(** An element the popup scan would emit, were its locator new. *)
Definition popup_eligible (l : Loc) : bool :=
  let e := element l in
  isVisible_popup e &&
  negb (String.eqb (popup_text e) EmptyString || (100 <? String.length (popup_text e))%nat) &&
  mightTriggerPopup e.

(** The "Store" link and the "Sign up" button of the small page, where they
    sit in the tree. *)
Definition toy_body_place : Place :=
  InElement [ElementNode (plain "HEAD" [] EmptyString) []] []
    (plain "HTML" [] "Store Sign up") (InDocument [CharacterData] []).

Definition toy_store : Loc :=
  {| element := store_link; childNodes := [];
     place := InElement [] [ElementNode (latest_link false) []; ElementNode signup_button []]
                (plain "BODY" [] "Store Sign up") toy_body_place |}.

Definition toy_signup : Loc :=
  {| element := signup_button; childNodes := [];
     place := InElement [ElementNode (latest_link false) []; ElementNode store_link []] []
                (plain "BODY" [] "Store Sign up") toy_body_place |}.

(** ** A page that cannot be captured at first *)

(** A page whose first evaluation raises and whose later evaluations see the
    small page at rest; the world counts the evaluations. *)
Definition flaky_playwright : Playwright nat :=
  {| ElementHandle := unit;
     chromium_launch := λ _ w, (inr tt, w);
     browser_close := λ w, (inr tt, w);
     page_goto := λ _ w, (inr tt, w);
     page_evaluate := λ w,
       match w with
       | O => (inl "Error: Execution context was destroyed", 1%nat)
       | S _ => (inr (toy_document toy_rest), S w)
       end;
     page_query_selector := λ _ w, (inr (Some tt), w);
     page_query_selector_all := λ _ w, (inr [], w);
     element_hover := λ _ w, (inr tt, w);
     element_click := λ _ w, (inr tt, w);
     mouse_move := λ _ _ w, (inr tt, w);
     keyboard_press := λ _ w, (inr tt, w);
     page_content := λ w, (inr "<html></html>", w);
     page_title := λ w, (inr "Example", w);
     page_url := λ _, "https://example.test/";
     soup_count := λ _ _, 1%nat;
     asyncio_sleep := λ _ w, w |}.

(** ** The synchronous entry point of the browser module *)

(** [BrowserConfig()]: the defaults of [core/config.py]. *)
Definition default_browser_config : BrowserConfig :=
  {| headless := true; timeout := 30000; viewport_width := 1920; viewport_height := 1080;
     slow_mo := 100 |}.

Module Analysis.
(** The dictionary [run_browser_analysis] returns. *)
Record t := {
  hover_elements : list Confirmed.HoverElement;
  popup_elements : list Confirmed.PopupTrigger;
  page_structure : StructureDict
}.
End Analysis.

Section BrowserEntry.
Context {W : Type} `{Playwright W}.

(** [run_browser_analysis]: [async with BrowserAutomation(browser_config)]
    initializes on entry and closes on every exit of the body. *)
Definition run_browser_analysis (url : string) (browser_config : option BrowserConfig)
    : M (Session W) Analysis.t :=
  let config := default default_browser_config browser_config in
  initialize config ;;
  (λ s, match (loaded <- navigate_to_url url ;;
               if loaded : bool then
                 hover_elements <- analyze_hover_elements ;;
                 popup_elements <- analyze_popup_elements ;;
                 page_structure <- get_page_structure ;;
                 ret {| Analysis.hover_elements := hover_elements;
                        Analysis.popup_elements := popup_elements;
                        Analysis.page_structure := page_structure |}
               else ret {| Analysis.hover_elements := [];
                           Analysis.popup_elements := [];
                           Analysis.page_structure := EmptyDict |}) s with
        | (r, s') =>
            match close s' with
            | (inl e, s'') => (inl e, s'')
            | (inr _, s'') => (r, s'')
            end
        end).

End BrowserEntry.

(** ** What a run leaves behind *)

(** What the dictionary of a node that went through carries, and what the
    node wrote on the way: the browser analysis stored the discovery result it
    returns; a generation step wrote the scenario text it returns to the
    output directory and stored it; the last step builds the final result from
    the state. *)
Definition node_yield {W K} (n : node.name) (state : WorkflowState.t) (u : Update.t)
    (w' : World W K) : Prop :=
  let task_id := WorkflowState.task_id state in
  match n with
  | node.create_task => ∃ id, Update.task_id u = Some id
  | node.browser_analysis =>
      Update.task_id u = None ∧
      ∃ ps he pe,
        Update.page_structure u = Some ps ∧ Update.hover_elements u = Some he ∧
        Update.popup_elements u = Some pe ∧
        db.save_dom_analysis task_id he pe ps ∈ store w'
  | node.generate_hover_features =>
      Update.task_id u = None ∧ Update.popup_features u = None ∧
      ∃ f, Update.hover_features u = Some f ∧
        db.write_text (path f) (content f) ∈ store w' ∧
        db.save_feature task_id "hover" (content f) (path f) ∈ store w'
  | node.generate_popup_features =>
      Update.task_id u = None ∧ Update.hover_features u = None ∧
      ∃ f, Update.popup_features u = Some f ∧
        db.write_text (path f) (content f) ∈ store w' ∧
        db.save_feature task_id "popup" (content f) (path f) ∈ store w'
  | node.complete_task =>
      Update.task_id u = None ∧ Update.popup_features u = None ∧
      Update.progress u = Some 100%Z ∧
      Update.result u =
        Some {| Result.task_id := task_id; Result.status := completed;
                Result.url := WorkflowState.url state;
                Result.features_hover := WorkflowState.hover_features state;
                Result.features_popup := WorkflowState.popup_features state;
                Result.analysis_hover_elements := WorkflowState.hover_elements state;
                Result.analysis_popup_elements := WorkflowState.popup_elements state;
                Result.analysis_page_structure := WorkflowState.page_structure state |}
  | node.handle_error => Update.task_id u = None ∧ Update.popup_features u = None
  end.

(** The two ways a run of the graph ends. *)
Definition ended_completed (st : WorkflowState.t) : Prop :=
  WorkflowState.status st = completed ∧ WorkflowState.error_message st = None ∧
  WorkflowState.progress st = 100%Z ∧
  ∃ r, WorkflowState.result st = Some r ∧ Result.status r = completed.

Definition ended_failed (st : WorkflowState.t) : Prop :=
  failed_with_message st ∧ WorkflowState.result st = None.

(** What holds of the state a node is entered with, on every run from the
    initial state. *)
Definition entered_with (n : node.name) (state : WorkflowState.t) : Prop :=
  WorkflowState.result state = None ∧
  match n with
  | node.handle_error => failed_with_message state
  | node.generate_popup_features =>
      failed_with_message state ∨
      (WorkflowState.status state ≠ failed ∧ WorkflowState.error_message state = None)
  | _ => WorkflowState.status state ≠ failed ∧ WorkflowState.error_message state = None
  end.

(** The state holds a discovery result that was handed to the store, a hover
    (popup) artifact whose text was written to the output directory and
    handed to the store. *)
Definition discovered {W K} (state : WorkflowState.t) (w : World W K) : Prop :=
  ∃ ps he pe,
    WorkflowState.page_structure state = Some ps ∧
    WorkflowState.hover_elements state = Some he ∧
    WorkflowState.popup_elements state = Some pe ∧
    db.save_dom_analysis (WorkflowState.task_id state) he pe ps ∈ store w.

Definition hover_written {W K} (state : WorkflowState.t) (w : World W K) : Prop :=
  ∃ f, WorkflowState.hover_features state = Some f ∧
    db.write_text (path f) (content f) ∈ store w ∧
    db.save_feature (WorkflowState.task_id state) "hover" (content f) (path f) ∈ store w.

Definition popup_written {W K} (state : WorkflowState.t) (w : World W K) : Prop :=
  ∃ f, WorkflowState.popup_features state = Some f ∧
    db.write_text (path f) (content f) ∈ store w ∧
    db.save_feature (WorkflowState.task_id state) "popup" (content f) (path f) ∈ store w.

(** What the state and the store hold when node [n] is entered on a run
    without failure. *)
Definition gathered {W K} (n : node.name) (state : WorkflowState.t) (w : World W K) : Prop :=
  match n with
  | node.create_task | node.handle_error => True
  | node.browser_analysis => is_Some (WorkflowState.task_id state)
  | node.generate_hover_features =>
      is_Some (WorkflowState.task_id state) ∧ discovered state w
  | node.generate_popup_features =>
      is_Some (WorkflowState.task_id state) ∧ discovered state w ∧ hover_written state w
  | node.complete_task =>
      is_Some (WorkflowState.task_id state) ∧ discovered state w ∧ hover_written state w ∧
      popup_written state w
  end.

(** The final result [complete_task_node] builds from a state. *)
Definition result_of (state : WorkflowState.t) : Result.t :=
  {| Result.task_id := WorkflowState.task_id state; Result.status := completed;
     Result.url := WorkflowState.url state;
     Result.features_hover := WorkflowState.hover_features state;
     Result.features_popup := WorkflowState.popup_features state;
     Result.analysis_hover_elements := WorkflowState.hover_elements state;
     Result.analysis_popup_elements := WorkflowState.popup_elements state;
     Result.analysis_page_structure := WorkflowState.page_structure state |}.

(** A provider can be constructed for every configuration. *)
Definition provider_available {W K} `{Collaborators W K} : Prop :=
  ∀ cfg w, ∃ w', create_provider cfg w = (inr tt, w').

(** The progress value a store call writes to the task row. *)
Definition stored_progress (c : db.call) : option Z :=
  match c with
  | db.update_task_status _ _ progress _ _ => progress
  | _ => None
  end.

(** ** The orchestrator's entry point ([TestGeneratorOrchestrator.generate_tests])

    The compiled graph streams one event per step, the dictionary the node
    returned under the node's name (the graph library's ["updates"] mode, the
    default of a compiled state graph).  Every dictionary a node returns has
    the key [logs], so [if node_state] holds for each event.  The thread id
    built from the clock is not used by a graph compiled without a
    checkpointer and is left out.  This is what [generate_tests] does around
    the workflow: it follows the events, returns the final result or raises,
    and reports an exception to the store and the sink. *)

Definition show_node (n : node.name) : string :=
  match n with
  | node.create_task => "create_task"
  | node.browser_analysis => "browser_analysis"
  | node.generate_hover_features => "generate_hover_features"
  | node.generate_popup_features => "generate_popup_features"
  | node.complete_task => "complete_task"
  | node.handle_error => "handle_error"
  end.

Section Orchestrator.
Context {W K : Type} `{Playwright W} `{Collaborators W K}.

(** The state of [generate_tests]: the pipeline's world and [self.task_id];
    inside the loop, [final_state] next to them. *)
Definition Streaming : Type := (World W K * option nat) * option Update.t.

(** The body of [async for event in self.app.astream(...)]. *)
Definition on_event (node_name : node.name) (node_state : Update.t) : M Streaming unit :=
  update_local (λ _, Some node_state) ;;
  (if task_truthy (Update.task_id node_state)
   then outer (update_local (λ _, Update.task_id node_state))
   else ret tt) ;;
  outer (outer (logger "DEBUG"
    ("Node '" +:+ show_node node_name +:+ "' completed. Progress: " +:+
     pretty (default 0%Z (Update.progress node_state)) +:+ "%"))).

(** [self.app.astream(initial_state, config)] with the loop body run on each
    event. *)
Fixpoint astream (limit : nat) (n : node.name) (state : WorkflowState.t) : M Streaming unit :=
  match limit with
  | O => raise "GraphRecursionError"
  | S limit =>
      update <- outer (outer (run_node n state)) ;;
      on_event n update ;;
      let state := merge state update in
      match edge n state with
      | inl e => raise e
      | inr None => ret tt
      | inr (Some n') => astream limit n' state
      end
  end.

Definition generate_tests (url : string) (llm_config : LLMConfig)
    (browser_config : BrowserConfig) : M (World W K * option nat) Result.t :=
  try_except
    (r <- with_local None
            (astream recursion_limit node.create_task
               (initial_state url llm_config browser_config)) ;;
     let final_state := snd r in
     match final_state with
     | Some final_state =>
         match Update.result final_state with
         | Some result => ret result
         | None =>
             if decide (Update.status final_state = Some failed)
             then raise (default "Unknown error" (Update.error_message final_state))
             else raise "Workflow completed without result"
         end
     | None => raise "Workflow completed without result"
     end)
    (λ e, let error_msg := "Error in test generation: " +:+ e in
          outer (logger "ERROR" error_msg) ;;
          (λ sl, (if task_truthy (snd sl) then
                    let task_id := snd sl in
                    outer (db_call (db.update_task_status task_id failed None None
                                      (Some error_msg)) ;;
                           db_call (db.add_log task_id "ERROR" error_msg None) ;;
                           send_ws_update task_id
                             {| Ws.type := "error"; Ws.task_id := task_id; Ws.status := failed;
                                Ws.progress := None; Ws.current_step := None;
                                Ws.error := Some error_msg |})
                  else ret tt) sl) ;;
          raise e).

End Orchestrator.

(** The dictionary of the last event of a run: it carries a final result, or
    it reports failure without an error message. *)
Definition last_event (u : Update.t) : Prop :=
  (∃ r, Update.result u = Some r ∧ Result.status r = completed) ∨
  (Update.result u = None ∧ Update.status u = Some failed ∧ Update.error_message u = None).

(** What [generate_tests] reports for every failed run. *)
Definition unknown_error_report : string := "Error in test generation: Unknown error".

(** The entry point on the small page, with a sink registered and no task id
    set beforehand. *)
Definition toy_generate (sc : Scenario)
    : (exn + Result.t) * (World ToyWorld unit * option nat) :=
  generate_tests (H := toy_playwright sc) (H0 := toy_collaborators sc)
    toy_url toy_llm_config toy_browser_config (toy_world true, None).

(** ** What the cleaning of a generated text removes *)



(** ** The progress sink of the web application ([app.py], [ConnectionManager])

    A connection is an accepted WebSocket; [websocket_accept] and
    [send_json] act on the network and may raise. *)

Section ConnectionManager.
Variables (WebSocket Net Message : Type).
Variable websocket_accept : WebSocket → Net → (exn + unit) * Net.
Variable send_json : WebSocket → Message → Net → (exn + unit) * Net.

Record Manager := {
  active_connections : gmap nat WebSocket;
  network : Net;
  manager_logged : list LogRecord
}.

Definition manager_log (lvl msg : string) : M Manager unit :=
  λ m, (inr tt, {| active_connections := active_connections m; network := network m;
                   manager_logged := manager_logged m ++
                     [{| levelname := lvl; message := msg |}] |}).

Definition on_network {A} (op : Net → (exn + A) * Net) : M Manager A :=
  λ m, let '(r, net) := op (network m) in
       (r, {| active_connections := active_connections m; network := net;
              manager_logged := manager_logged m |}).

Definition connect (task_id : nat) (websocket : WebSocket) : M Manager unit :=
  on_network (websocket_accept websocket) ;;
  (λ m, (inr tt, {| active_connections := <[task_id := websocket]> (active_connections m);
                    network := network m; manager_logged := manager_logged m |})) ;;
  manager_log "INFO" ("WebSocket connected for task " +:+ pretty task_id).

Definition disconnect (task_id : nat) : M Manager unit :=
  λ m, match active_connections m !! task_id with
       | Some _ =>
           manager_log "INFO" ("WebSocket disconnected for task " +:+ pretty task_id)
             {| active_connections := delete task_id (active_connections m);
                network := network m; manager_logged := manager_logged m |}
       | None => (inr tt, m)
       end.

Definition send_update (task_id : nat) (message : Message) : M Manager unit :=
  λ m, match active_connections m !! task_id with
       | Some websocket =>
           try_except
             (on_network (send_json websocket message))
             (λ e, manager_log "ERROR" ("Error sending WebSocket update: " +:+ e) ;;
                   disconnect task_id) m
       | None => (inr tt, m)
       end.

End ConnectionManager.

Arguments active_connections {WebSocket Net} _.
Arguments network {WebSocket Net} _.
Arguments manager_logged {WebSocket Net} _.
Arguments connect {WebSocket Net} _ _ _.
Arguments disconnect {WebSocket Net} _.
Arguments send_update {WebSocket Net Message} _ _ _.

(** A network on which every delivery fails, and a manager with one client
    registered for task 7. *)
Definition dead_network : unit → string → unit → (exn + unit) * unit :=
  λ _ _ net, (inl "WebSocketDisconnect", net).

Definition toy_manager : Manager unit unit :=
  {| active_connections := {[7%nat := tt]}; network := tt; manager_logged := [] |}.

(** ** The status update of the durable store ([core/database.py])

    [update_task_status] builds the text of an SQL statement and the list of
    its parameters. *)

Inductive SqlValue :=
| SqlNull
| SqlInteger (z : Z)
| SqlText (s : string).

Definition sql_id (task_id : option nat) : SqlValue :=
  match task_id with Some n => SqlInteger (Z.of_nat n) | None => SqlNull end.

Definition update_task_status_query (task_id : option nat) (status : string)
    (progress : option Z) (current_step error_message : option string)
    : string * list SqlValue :=
  let updates := ["status = ?"] in
  let params := [SqlText status] in
  let '(updates, params) :=
    match progress with
    | Some p => (updates ++ ["progress = ?"], params ++ [SqlInteger p])
    | None => (updates, params)
    end in
  let '(updates, params) :=
    match current_step with
    | Some s => (updates ++ ["current_step = ?"], params ++ [SqlText s])
    | None => (updates, params)
    end in
  let '(updates, params) :=
    match error_message with
    | Some s => (updates ++ ["error_message = ?"], params ++ [SqlText s])
    | None => (updates, params)
    end in
  let updates :=
    if String.eqb status "running" && bool_decide (progress = Some 0%Z)
    then updates ++ ["started_at = CURRENT_TIMESTAMP"]
    else if String.eqb status "completed" || String.eqb status "failed"
    then updates ++ ["completed_at = CURRENT_TIMESTAMP"]
    else updates in
  let params := params ++ [sql_id task_id] in
  ("UPDATE test_tasks SET " +:+ join ", " updates +:+ " WHERE id = ?", params).

(** The number of [?] placeholders of a statement. *)
Fixpoint placeholders (query : string) : nat :=
  match query with
  | EmptyString => 0
  | String c rest => (if Ascii.eqb c "?"%char then 1 else 0) + placeholders rest
  end.

(** ** Provider construction ([core/llm_provider.py])

    What the constructors hand to the logger is left out. *)

Module LLMFactory.

(** The API keys of the application configuration (empty when the
    environment does not set them). *)
Record ApiKeys := {
  GROQ_API_KEY : string;
  OPENAI_API_KEY : string;
  ANTHROPIC_API_KEY : string
}.

Inductive ProviderClass := GroqProvider | OpenAIProvider | ClaudeProvider.

(** A constructed provider: its class, its configuration and the key its
    client was built with. *)
Record Provider := {
  class : ProviderClass;
  config : LLMConfig;
  client_key : string
}.

(** The [_providers] dictionary. *)
Definition _providers (name : string) : option ProviderClass :=
  if String.eqb name "groq" then Some GroqProvider
  else if String.eqb name "openai" then Some OpenAIProvider
  else if String.eqb name "claude" then Some ClaudeProvider
  else None.

Definition config_key (keys : ApiKeys) (cls : ProviderClass) : string :=
  match cls with
  | GroqProvider => GROQ_API_KEY keys
  | OpenAIProvider => OPENAI_API_KEY keys
  | ClaudeProvider => ANTHROPIC_API_KEY keys
  end.

Definition key_not_found (cls : ProviderClass) : exn :=
  match cls with
  | GroqProvider => "Groq API key not found"
  | OpenAIProvider => "OpenAI API key not found"
  | ClaudeProvider => "Anthropic API key not found"
  end.

(** The [__init__] of the three provider classes:
    [api_key = llm_config.api_key or config.X_API_KEY]. *)
Definition init (keys : ApiKeys) (cls : ProviderClass) (llm_config : LLMConfig)
    : exn + Provider :=
  let api_key := if truthy (api_key llm_config) then or_empty (api_key llm_config)
                 else config_key keys cls in
  if String.eqb api_key EmptyString then inl (key_not_found cls)
  else inr {| class := cls; config := llm_config; client_key := api_key |}.

Definition create_provider (keys : ApiKeys) (llm_config : LLMConfig) : exn + Provider :=
  match _providers (toLowerCase (provider llm_config)) with
  | None => inl ("Unknown provider: " +:+ provider llm_config)
  | Some provider_class => init keys provider_class llm_config
  end.

(** [is_available]: [bool(config.X_API_KEY or self.config.api_key)]. *)
Definition is_available (keys : ApiKeys) (p : Provider) : bool :=
  negb (String.eqb (config_key keys (class p)) EmptyString) || truthy (api_key (config p)).

End LLMFactory.

(** Application keys with only the Groq key set. *)
Definition toy_keys : LLMFactory.ApiKeys :=
  {| LLMFactory.GROQ_API_KEY := "gsk-test"; LLMFactory.OPENAI_API_KEY := EmptyString;
     LLMFactory.ANTHROPIC_API_KEY := EmptyString |}.

(** * Properties *)

(** ** Lists built by appending in a loop *)

Lemma foldl_append_filter {A} (p : A → bool) (l acc : list A) :
  foldl (λ acc x, if p x then acc ++ [x] else acc) acc l = acc ++ base.filter (λ x, p x = true) l.
Proof.
  revert acc. induction l as [|x l IH]; intros acc; simpl.
  - by rewrite app_nil_r.
  - rewrite IH. destruct (p x) eqn:Hp.
    + rewrite filter_cons_True by done. by rewrite <- app_assoc.
    + rewrite filter_cons_False by (rewrite Hp; done). done.
Qed.

(** ** Snapshot diffing *)

Lemma has_content_changed_spec before after :
  _has_content_changed before after = true ↔
  (length (Snapshot.visible_elements before) < length (Snapshot.visible_elements after))%nat ∨
  Snapshot.html_length after ≠ Snapshot.html_length before.
Proof.
  unfold _has_content_changed.
  destruct (Nat.ltb_spec (length (Snapshot.visible_elements before))
                         (length (Snapshot.visible_elements after))) as [Hlt|Hge].
  - split; [by left | done].
  - destruct (Nat.eqb_spec (Snapshot.html_length after) (Snapshot.html_length before)) as [He|Hne];
      simpl.
    + split; [done|]. intros [?|?]; [lia | done].
    + split; [by right | done].
Qed.

Lemma revealed_elements_filter before after :
  _get_revealed_elements before after =
  take 5 (base.filter
            (λ elem,
               bool_decide (Snapshot.text elem ∉
                  (list_to_set (Snapshot.text <$> Snapshot.visible_elements before)
                     : gset (option string))) &&
               text_truthy (Snapshot.text elem) = true)
            (Snapshot.visible_elements after)).
Proof. unfold _get_revealed_elements. by rewrite foldl_append_filter. Qed.

(** The revealed elements of a pair of snapshots are at most five, each is a
    visible element of the after-snapshot with a text, and none has a text
    that a visible element of the before-snapshot has. *)
Lemma revealed_elements_spec (before after : Snapshot.State) :
  (length (_get_revealed_elements before after) ≤ 5)%nat ∧
  ∀ r, r ∈ _get_revealed_elements before after →
       r ∈ Snapshot.visible_elements after ∧
       text_truthy (Snapshot.text r) = true ∧
       ∀ b, b ∈ Snapshot.visible_elements before → Snapshot.text b ≠ Snapshot.text r.
Proof.
  rewrite revealed_elements_filter. split.
  - rewrite length_take. lia.
  - intros r Hr. apply elem_of_take in Hr as (i & Hr & _).
    apply list_elem_of_lookup_2 in Hr.
    apply list_elem_of_filter in Hr as [Hp Hin].
    apply andb_true_iff in Hp as [Hnew Htext].
    apply bool_decide_eq_true in Hnew.
    split; [done|]. split; [done|].
    intros b Hb Heq. apply Hnew.
    apply elem_of_list_to_set. rewrite <- Heq.
    by apply list_elem_of_fmap_2.
Qed.

(** ** The locator *)

Lemma count_previous_filter current sibling index :
  count_previous current sibling index =
  (index + length (base.filter (λ s, nodeName s = current) (elements_of sibling)))%nat.
Proof.
  revert index. induction sibling as [|[s kids|] rest IH]; intros index; simpl.
  - lia.
  - rewrite IH. unfold elements_of. simpl. fold (elements_of rest).
    destruct (String.eqb_spec (nodeName s) current) as [He|Hne].
    + rewrite filter_cons_True by done. simpl. lia.
    + rewrite filter_cons_False by done. lia.
  - rewrite IH. done.
Qed.

Lemma append_empty (s : string) : s +:+ EmptyString = s.
Proof.
  induction s as [|c s IH]; [done|].
  change (String c (s +:+ EmptyString) = String c s). by rewrite IH.
Qed.

Lemma path_step_written current p :
  path_step current p = written_step (toLowerCase (nodeName current)) (ordinal current p).
Proof.
  unfold path_step, written_step, ordinal. rewrite count_previous_filter. simpl.
  set (n := length _).
  destruct n as [|n]; simpl.
  - apply append_empty.
  - by replace (S (n + 1))%nat with (S (S n)) by lia.
Qed.

Lemma getXPath_walk_chain current p parts :
  getXPath_walk current p parts =
  ((λ a, path_step a.1 a.2) <$> rev (ancestors_or_self current p)) ++ parts.
Proof.
  revert current parts. induction p as [prev next|prev next parent up IH]; intros current parts.
  - done.
  - simpl. rewrite IH. rewrite fmap_app. simpl. by rewrite <- app_assoc.
Qed.

Lemma ancestors_root_anchored current p : root_anchored (rev (ancestors_or_self current p)).
Proof.
  revert current. induction p as [prev next|prev next parent up IH]; intros current; simpl.
  - by exists current, prev, next, [].
  - destruct (IH parent) as (root & pr & nx & rest & ->).
    by exists root, pr, nx, (rest ++ [(current, InElement prev next parent up)]).
Qed.

(** C8. The locator always returns a value.  For an element with an id it is
    the direct id reference.  Otherwise it is the structural path: from the
    root (a child of the document node) down to the element, one step per
    ancestor, each step written from the ancestor's tag name and its 1-based
    ordinal among the siblings of the same tag (ordinal 1 being written as
    the bare tag name).  The value depends on the node and the tree only, so
    two calls on an unchanged tree agree. *)
Theorem getXPath_locator (l : Loc) :
  (id (element l) ≠ EmptyString → getXPath l = id_reference (id (element l))) ∧
  (id (element l) = EmptyString →
     getXPath l = structural_path l ∧
     root_anchored (rev (ancestors_or_self (element l) (place l)))) ∧
  (∀ l', l' = l → getXPath l' = getXPath l).
Proof.
  split; [|split].
  - intros Hid. unfold getXPath.
    destruct (String.eqb_spec (id (element l)) EmptyString) as [?|_]; done.
  - intros Hid. split; [|apply ancestors_root_anchored].
    unfold getXPath, structural_path. rewrite Hid. simpl.
    rewrite getXPath_walk_chain, app_nil_r. do 2 f_equal.
    apply list_fmap_ext. intros ? [e p] _. apply path_step_written.
  - by intros l' ->.
Qed.

(** C8, the sentence as written fails: the locator of the root element of
    the small page is "/html", with no ordinal. *)
Lemma getXPath_root_has_no_ordinal :
  getXPath toy_root = "/html" ∧ indexed_path toy_root = "/html[1]" ∧
  getXPath toy_root ≠ indexed_path toy_root.
Proof. vm_compute. split; [done|]. split; [done|]. discriminate. Qed.

(** ** The static scans *)

Lemma foldl_preserves {A B} (P : A → Prop) (f : A → B → A) (l : list B) (a : A) :
  (∀ a b, P a → P (f a b)) → P a → P (foldl f a l).
Proof. intros Hf. revert a. induction l as [|b l IH]; intros a Ha; simpl; auto. Qed.

Lemma scan_inv_push {C} (locator : C → string) (emitted : list C) (seen : gset string) (c : C) :
  scan_inv locator (emitted, seen) → locator c ∉ seen →
  scan_inv locator (emitted ++ [c], {[locator c]} ∪ seen).
Proof.
  intros [Hnd Hseen] Hnew. split; simpl in *.
  - rewrite fmap_app. apply NoDup_app. split; [done|]. split.
    + intros x Hx Hx'. apply list_elem_of_fmap in Hx as (c' & -> & Hc').
      apply list_elem_of_singleton in Hx'. apply Hnew. rewrite <- Hx'. by apply Hseen.
    + apply NoDup_singleton.
  - intros c' Hc'. apply elem_of_app in Hc' as [Hc'|Hc'].
    + apply elem_of_union_r. by apply Hseen.
    + apply list_elem_of_singleton in Hc' as ->. apply elem_of_union_l. by apply elem_of_singleton.
Qed.

Lemma hover_visit_inv sheets st l :
  scan_inv Hover.xpath st → scan_inv Hover.xpath (hover_visit sheets st l).
Proof.
  intros Hinv. destruct st as [emitted seen]. unfold hover_visit.
  repeat (match goal with |- context [if ?b then _ else _] => destruct b eqn:? end; try done).
  apply (scan_inv_push Hover.xpath); [done|]. simpl.
  by eapply bool_decide_eq_false_1.
Qed.

Lemma popup_visit_inv st l :
  scan_inv Popup.xpath st → scan_inv Popup.xpath (popup_visit st l).
Proof.
  intros Hinv. destruct st as [emitted seen]. unfold popup_visit.
  repeat (match goal with |- context [if ?b then _ else _] => destruct b eqn:? end; try done).
  apply (scan_inv_push Popup.xpath); [done|]. simpl.
  by eapply bool_decide_eq_false_1.
Qed.

Lemma scan_inv_empty {C} (locator : C → string) : scan_inv locator ([], ∅).
Proof. split; simpl; [apply NoDup_nil_2 | intros c Hc; by apply elem_of_nil in Hc]. Qed.

Lemma NoDup_fmap_take {C} (locator : C → string) (n : nat) (l : list C) :
  NoDup (locator <$> l) → NoDup (locator <$> take n l).
Proof.
  intros Hnd. rewrite fmap_take.
  apply (sublist_NoDup _ (locator <$> l)); [done | apply sublist_take].
Qed.

(** C4. The hover scan emits at most 50 candidates and the popup scan at
    most 30, and within each list no two candidates have the same locator. *)
Theorem static_scans_capped_and_distinct (d : Document) :
  (length (dynamic_hover_detection d) ≤ 50)%nat ∧
  NoDup (Hover.xpath <$> dynamic_hover_detection d) ∧
  (length (dynamic_popup_detection d) ≤ 30)%nat ∧
  NoDup (Popup.xpath <$> dynamic_popup_detection d).
Proof.
  unfold dynamic_hover_detection, dynamic_popup_detection.
  split; [rewrite length_take; lia|]. split.
  - apply NoDup_fmap_take.
    apply (foldl_preserves (scan_inv Hover.xpath)); [|apply scan_inv_empty].
    intros st l. apply hover_visit_inv.
  - split; [rewrite length_take; lia|].
    apply NoDup_fmap_take.
    apply (foldl_preserves (scan_inv Popup.xpath)); [|apply scan_inv_empty].
    intros st l. apply popup_visit_inv.
Qed.

(** ** Computations that cannot raise *)

Lemma returns_ret {S A} (a : A) : returns (ret a : M S A).
Proof. intros s. by exists a, s. Qed.

Lemma returns_bind {S A B} (m : M S A) (k : A → M S B) :
  returns m → (∀ a, returns (k a)) → returns (bind m k).
Proof.
  intros Hm Hk s. destruct (Hm s) as (a & s' & Hms).
  destruct (Hk a s') as (b & s'' & Hks). exists b, s''.
  unfold bind. by rewrite Hms.
Qed.

Lemma returns_try_except {S A} (m : M S A) (h : exn → M S A) :
  (∀ e, returns (h e)) → returns (try_except m h).
Proof.
  intros Hh s. unfold try_except. destruct (m s) as [[e|a] s'].
  - apply Hh.
  - by exists a, s'.
Qed.

Lemma returns_for_each {S X} (xs : list X) (body : X → M S unit) :
  (∀ x, returns (body x)) → returns (for_each xs body).
Proof.
  intros Hb. induction xs as [|x xs IH]; simpl.
  - apply returns_ret.
  - apply returns_bind; auto.
Qed.

Lemma returns_outer {S L A} (m : M S A) : returns m → returns (outer m : M (S * L) A).
Proof.
  intros Hm [s l]. destruct (Hm s) as (a & s' & Hms). exists a, (s', l).
  unfold outer. simpl. by rewrite Hms.
Qed.

Lemma returns_with_local {S L A} (l0 : L) (m : M (S * L) A) :
  returns m → returns (with_local l0 m).
Proof.
  intros Hm s. destruct (Hm (s, l0)) as (a & [s' l'] & Hms). exists (a, l'), s'.
  unfold with_local. by rewrite Hms.
Qed.

Section BrowserFacts.
Context {W : Type} `{Playwright W}.

Lemma returns_log lvl msg : returns (log lvl msg : M (Session W) unit).
Proof. intros s. by eexists _, _. Qed.

Lemma returns_sleep ms : returns (sleep ms).
Proof. intros s. by eexists _, _. Qed.

Lemma capture_page_state_returns : returns _capture_page_state.
Proof. apply returns_try_except. intros e. apply returns_ret. Qed.

Lemma count_modals_returns : returns _count_modals.
Proof. apply returns_try_except. intros e. apply returns_ret. Qed.

Lemma get_modal_details_returns : returns _get_modal_details.
Proof. apply returns_try_except. intros e. apply returns_ret. Qed.

Lemma close_any_modal_returns : returns _close_any_modal.
Proof. apply returns_try_except. intros e. apply returns_ret. Qed.

Lemma hover_probe_returns i elem_info : returns (hover_probe i elem_info).
Proof. apply returns_try_except. intros e. apply returns_outer, returns_log. Qed.

Lemma popup_probe_returns i trigger_info : returns (popup_probe i trigger_info).
Proof.
  apply returns_try_except. intros e. apply returns_bind.
  - apply returns_outer, returns_log.
  - intros _. apply returns_outer, returns_try_except. intros e'. apply returns_ret.
Qed.

Lemma analyze_hover_elements_returns : returns analyze_hover_elements.
Proof.
  apply returns_try_except. intros e. apply returns_bind; [apply returns_log|].
  intros _. apply returns_ret.
Qed.

Lemma analyze_popup_elements_returns : returns analyze_popup_elements.
Proof.
  apply returns_try_except. intros e. apply returns_bind; [apply returns_log|].
  intros _. apply returns_ret.
Qed.

Lemma get_page_structure_returns : returns get_page_structure.
Proof.
  apply returns_try_except. intros e. apply returns_bind; [apply returns_log|].
  intros _. apply returns_ret.
Qed.

Lemma navigate_to_url_returns url : returns (navigate_to_url url).
Proof.
  apply returns_try_except. intros e. apply returns_bind; [apply returns_log|].
  intros _. apply returns_ret.
Qed.

Lemma close_returns : returns close.
Proof. apply returns_try_except. intros e. apply returns_log. Qed.

(** C10. The hover analysis, the popup analysis and the snapshot capture
    return normally from every state of the page, whatever the page
    operations inside them do.  When the page evaluation of the scan (or, for
    the popup analysis, the selector query before it) raises, the analysis
    returns the empty list; when the evaluation of the capture script raises,
    the capture returns the empty snapshot. *)
Theorem analyses_never_raise (s : Session W) :
  (∃ confirmed s', analyze_hover_elements s = (inr confirmed, s')) ∧
  (∃ confirmed s', analyze_popup_elements s = (inr confirmed, s')) ∧
  (∃ state s', _capture_page_state s = (inr state, s')) ∧
  (∀ e w', page_evaluate (world s) = (inl e, w') →
     (analyze_hover_elements s).1 = inr [] ∧
     (_capture_page_state s).1 = inr empty_snapshot) ∧
  (∀ e w', page_query_selector_all popup_prefilter (world s) = (inl e, w') →
     (analyze_popup_elements s).1 = inr []) ∧
  (∀ handles w1 e w2,
     page_query_selector_all popup_prefilter (world s) = (inr handles, w1) →
     page_evaluate w1 = (inl e, w2) →
     (analyze_popup_elements s).1 = inr []).
Proof.
  split; [apply analyze_hover_elements_returns|].
  split; [apply analyze_popup_elements_returns|].
  split; [apply capture_page_state_returns|].
  split; [|split].
  - intros e w' He. split.
    + unfold analyze_hover_elements, try_except, bind, evaluate, bind, call, log. simpl.
      by rewrite He.
    + unfold _capture_page_state, try_except, evaluate, bind, call. by rewrite He.
  - intros e w' He.
    unfold analyze_popup_elements, try_except, bind, call, log. simpl. by rewrite He.
  - intros handles w1 e w2 Hq He.
    unfold analyze_popup_elements, try_except, bind, evaluate, bind, call, log. simpl.
    rewrite Hq. simpl. by rewrite He.
Qed.

End BrowserFacts.

(** ** The probing loops *)

Lemma keeps_ret {S L A} (P : L → Prop) (a : A) : keeps P (ret a : M (S * L) A).
Proof. by intros s l Hl. Qed.

Lemma keeps_outer {S L A} (P : L → Prop) (m : M S A) : keeps P (outer m : M (S * L) A).
Proof. intros s l Hl. unfold outer. simpl. by destruct (m s). Qed.

Lemma keeps_update_local {S L} (P : L → Prop) (f : L → L) :
  (∀ l, P l → P (f l)) → keeps P (update_local f : M (S * L) unit).
Proof. intros Hf s l Hl. simpl. auto. Qed.

Lemma keeps_bind {S L A B} (P : L → Prop) (m : M (S * L) A) (k : A → M (S * L) B) :
  keeps P m → (∀ a, keeps P (k a)) → keeps P (bind m k).
Proof.
  intros Hm Hk s l Hl. unfold bind. specialize (Hm s l Hl).
  destruct (m (s, l)) as [[e|a] [s' l']]; simpl in *; [done|]. by apply Hk.
Qed.

Lemma keeps_try_except {S L A} (P : L → Prop) (m : M (S * L) A) (h : exn → M (S * L) A) :
  keeps P m → (∀ e, keeps P (h e)) → keeps P (try_except m h).
Proof.
  intros Hm Hh s l Hl. unfold try_except. specialize (Hm s l Hl).
  destruct (m (s, l)) as [[e|a] [s' l']]; simpl in *; [by apply Hh | done].
Qed.

Lemma keeps_for_each {S L X} (P : L → Prop) (xs : list X) (body : X → M (S * L) unit) :
  (∀ x, keeps P (body x)) → keeps P (for_each xs body).
Proof.
  intros Hb. induction xs as [|x xs IH]; simpl.
  - apply keeps_ret.
  - apply keeps_bind; auto.
Qed.

Ltac keeps_step :=
  first [ apply keeps_outer
        | apply keeps_ret
        | apply keeps_bind; [|intros ?]
        | apply keeps_try_except; [|intros ?] ].

Section ProbeFacts.
Context {W : Type} `{Playwright W}.

(** One round of the hover loop in which the element is found again and the
    hover interaction goes through: the candidate is appended exactly when
    the two snapshots differ, whatever happens while the pointer is moved
    away afterwards. *)
Lemma hover_probe_decides i elem_info (s : Session W) confirmed element w1 before s2 w3 after s4 :
  page_query_selector ("xpath=" +:+ Hover.xpath elem_info) (world s) = (inr (Some element), w1) →
  _capture_page_state {| world := w1; logged := logged s |} = (inr before, s2) →
  element_hover element (world s2) = (inr tt, w3) →
  _capture_page_state {| world := asyncio_sleep config.HOVER_DELAY_MS w3; logged := logged s2 |}
    = (inr after, s4) →
  (hover_probe i elem_info (s, confirmed)).2.2 =
    if _has_content_changed before after
    then confirmed ++ [confirmed_hover elem_info before after]
    else confirmed.
Proof.
  intros Hq Hb Hh Ha.
  unfold hover_probe, try_except, bind, outer, call, sleep, update_local, log, ret. simpl.
  rewrite Hq. simpl. rewrite Hb. simpl. rewrite Hh. simpl. rewrite Ha. simpl.
  destruct (_has_content_changed before after); simpl;
    destruct (mouse_move 0 0 (world s4)) as [[e|[]] w5]; done.
Qed.

Lemma hover_probe_keeps i elem_info :
  keeps (Forall hover_entry_ok) (hover_probe i elem_info).
Proof.
  unfold hover_probe. keeps_step; [|keeps_step].
  keeps_step; [keeps_step|]. destruct a as [element|]; [|keeps_step].
  keeps_step; [keeps_step|]. keeps_step; [keeps_step|]. keeps_step; [keeps_step|].
  keeps_step; [keeps_step|]. keeps_step.
  - destruct (_has_content_changed a a2) eqn:Hchanged; [|keeps_step].
    keeps_step; [|keeps_step]. apply keeps_update_local. intros l Hl.
    apply Forall_app. split; [done|]. apply Forall_singleton.
    by exists a, a2.
  - keeps_step; keeps_step.
Qed.

Lemma popup_probe_keeps i trigger_info :
  keeps (Forall popup_entry_ok) (popup_probe i trigger_info).
Proof.
  unfold popup_probe. keeps_step; [|keeps_step; keeps_step].
  keeps_step; [keeps_step|]. destruct a as [element|]; [|keeps_step].
  keeps_step; [keeps_step|]. keeps_step; [keeps_step|]. keeps_step; [keeps_step|].
  keeps_step; [keeps_step|]. keeps_step; [keeps_step|].
  destruct (_ || _) eqn:Hconfirm; [|keeps_step].
  keeps_step; [|repeat keeps_step]. apply keeps_update_local. intros l Hl.
  apply Forall_app. split; [done|]. apply Forall_singleton.
  exists a, a2. split; [|done]. simpl.
  apply orb_true_iff in Hconfirm as [Hlt|Hne].
  - left. by apply Nat.ltb_lt.
  - right. apply negb_true_iff, bool_decide_eq_false in Hne. done.
Qed.

Lemma analyze_hover_elements_entries (s s' : Session W) confirmed :
  analyze_hover_elements s = (inr confirmed, s') → Forall hover_entry_ok confirmed.
Proof.
  unfold analyze_hover_elements, try_except, bind, log, with_local, ret. simpl.
  destruct (evaluate _ _) as [[e|potential] s1]; simpl; [by intros [= <- _]|].
  pose proof (keeps_for_each (Forall hover_entry_ok)
    (enumerate (take config.MAX_HOVER_ELEMENTS potential))
    (λ ie, hover_probe ie.1 ie.2) (λ ie, hover_probe_keeps ie.1 ie.2)
    {| world := world s1;
       logged := logged s1 ++ [{| levelname := "INFO";
         message := "Found " +:+ pretty (length potential) +:+ " potential hover elements" |}] |}
    [] (Forall_nil_2 _)) as Hkeep.
  destruct (for_each _ _ _) as [[e|[]] [s2 l2]]; simpl in *; by intros [= <- _].
Qed.

Lemma analyze_popup_elements_entries (s s' : Session W) confirmed :
  analyze_popup_elements s = (inr confirmed, s') → Forall popup_entry_ok confirmed.
Proof.
  unfold analyze_popup_elements, try_except, bind, log, with_local, ret, call. simpl.
  destruct (page_query_selector_all _ _) as [[e|handles] w1]; simpl; [by intros [= <- _]|].
  destruct (evaluate _ _) as [[e|potential] s1]; simpl; [by intros [= <- _]|].
  pose proof (keeps_for_each (Forall popup_entry_ok)
    (enumerate (take config.MAX_POPUP_ELEMENTS potential))
    (λ it, popup_probe it.1 it.2) (λ it, popup_probe_keeps it.1 it.2)
    {| world := world s1;
       logged := logged s1 ++ [{| levelname := "INFO";
         message := "Found " +:+ pretty (length potential) +:+ " potential popup triggers" |}] |}
    [] (Forall_nil_2 _)) as Hkeep.
  destruct (for_each _ _ _) as [[e|[]] [s2 l2]]; simpl in *; by intros [= <- _].
Qed.

(** One round of the popup loop in which the element is found again and the
    click goes through: the trigger is appended exactly when the modal count
    went up or the list of modal descriptions is not empty. *)
Lemma popup_probe_decides i trigger_info (s : Session W) confirmed element w1
    before_modals s2 w3 after_modals s4 modal_details s5 :
  page_query_selector ("xpath=" +:+ Popup.xpath trigger_info) (world s) = (inr (Some element), w1) →
  _count_modals {| world := w1; logged := logged s |} = (inr before_modals, s2) →
  element_click element (world s2) = (inr tt, w3) →
  _count_modals {| world := asyncio_sleep 1000 w3; logged := logged s2 |} = (inr after_modals, s4) →
  _get_modal_details s4 = (inr modal_details, s5) →
  (popup_probe i trigger_info (s, confirmed)).2.2 =
    if (before_modals <? after_modals)%nat || negb (bool_decide (modal_details = []))
    then confirmed ++ [confirmed_popup trigger_info modal_details]
    else confirmed.
Proof.
  intros Hq Hb Hc Ha Hd.
  unfold popup_probe, try_except, bind, outer, call, sleep, update_local, log, ret. simpl.
  rewrite Hq. simpl. rewrite Hb. simpl. rewrite Hc. simpl. rewrite Ha. simpl. rewrite Hd. simpl.
  destruct (_ || _); simpl; [|done].
  match goal with |- context [_close_any_modal ?s] =>
    destruct (close_any_modal_returns s) as ([] & s6 & ->) end.
  done.
Qed.

(** C1. In a round of the hover loop that reaches the comparison (the
    element is found again, the hover goes through, the snapshots are
    [before] and [after]), the candidate is confirmed, that is appended to
    the confirmed list, if and only if [after] has more visible interactive
    elements than [before] or a different markup length; with both unchanged
    the diff reports no change and the list stays as it was.  Every entry of
    the list the analysis returns was appended for such a pair. *)
Theorem hover_confirmed_iff_content_changed i elem_info (s : Session W) confirmed element w1
    before s2 w3 after s4 :
  page_query_selector ("xpath=" +:+ Hover.xpath elem_info) (world s) = (inr (Some element), w1) →
  _capture_page_state {| world := w1; logged := logged s |} = (inr before, s2) →
  element_hover element (world s2) = (inr tt, w3) →
  _capture_page_state {| world := asyncio_sleep config.HOVER_DELAY_MS w3; logged := logged s2 |}
    = (inr after, s4) →
  let more := (length (Snapshot.visible_elements before) <
               length (Snapshot.visible_elements after))%nat in
  let resized := Snapshot.html_length after ≠ Snapshot.html_length before in
  let confirmed' := (hover_probe i elem_info (s, confirmed)).2.2 in
  (confirmed' = confirmed ++ [confirmed_hover elem_info before after] ↔ more ∨ resized) ∧
  (_has_content_changed before after = true ↔ more ∨ resized) ∧
  (¬ more ∧ ¬ resized → _has_content_changed before after = false ∧ confirmed' = confirmed) ∧
  (∀ s0 s0' result, analyze_hover_elements s0 = (inr result, s0') →
     Forall hover_entry_ok result).
Proof.
  intros Hq Hb Hh Ha more resized confirmed'.
  pose proof (hover_probe_decides i elem_info s confirmed element w1 before s2 w3 after s4
                Hq Hb Hh Ha) as Hdec.
  fold confirmed' in Hdec.
  pose proof (has_content_changed_spec before after) as Hspec.
  fold more resized in Hspec.
  split; [|split; [done|split]].
  - rewrite <- Hspec. rewrite Hdec.
    destruct (_has_content_changed before after); split; try done.
    intros Heq. apply (f_equal length) in Heq. rewrite length_app in Heq. simpl in Heq. lia.
  - intros [Hm Hr]. rewrite Hdec.
    destruct (_has_content_changed before after); [|done].
    destruct Hspec as [Hs _]. destruct (Hs eq_refl); done.
  - intros s0 s0' result. apply analyze_hover_elements_entries.
Qed.

(** C3. In a round of the popup loop that reaches the comparison (the
    element is found again, the click goes through, the modal counts are
    [before_modals] and [after_modals], the descriptions captured after the
    click are [modal_details]), the candidate is confirmed as a popup
    trigger, that is appended to the confirmed list, if and only if the
    count went up or at least one modal description was captured.  Every
    entry of the list the analysis returns was appended on that condition. *)
Theorem popup_confirmed_iff_modal_appeared i trigger_info (s : Session W) confirmed element w1
    before_modals s2 w3 after_modals s4 modal_details s5 :
  page_query_selector ("xpath=" +:+ Popup.xpath trigger_info) (world s) = (inr (Some element), w1) →
  _count_modals {| world := w1; logged := logged s |} = (inr before_modals, s2) →
  element_click element (world s2) = (inr tt, w3) →
  _count_modals {| world := asyncio_sleep 1000 w3; logged := logged s2 |} = (inr after_modals, s4) →
  _get_modal_details s4 = (inr modal_details, s5) →
  let confirmed' := (popup_probe i trigger_info (s, confirmed)).2.2 in
  let appeared := (before_modals < after_modals)%nat ∨ ∃ d, d ∈ modal_details in
  (confirmed' = confirmed ++ [confirmed_popup trigger_info modal_details] ↔ appeared) ∧
  (confirmed' = confirmed ↔ ¬ appeared) ∧
  (∀ s0 s0' result, analyze_popup_elements s0 = (inr result, s0') →
     Forall popup_entry_ok result).
Proof.
  intros Hq Hb Hc Ha Hd confirmed' appeared.
  pose proof (popup_probe_decides i trigger_info s confirmed element w1 before_modals s2 w3
                after_modals s4 modal_details s5 Hq Hb Hc Ha Hd) as Hdec.
  fold confirmed' in Hdec.
  assert (Happ : (before_modals <? after_modals)%nat || negb (bool_decide (modal_details = []))
                 = true ↔ appeared).
  { unfold appeared. rewrite orb_true_iff, Nat.ltb_lt, negb_true_iff, bool_decide_eq_false.
    split; (intros [?|Hd']; [by left|right]).
    - destruct modal_details as [|d rest]; [done|]. exists d. by apply list_elem_of_here.
    - destruct Hd' as [d Hin]. intros ->. by apply elem_of_nil in Hin. }
  assert (Hlen : confirmed ++ [confirmed_popup trigger_info modal_details] ≠ confirmed).
  { intros Heq. apply (f_equal length) in Heq. rewrite length_app in Heq. simpl in Heq. lia. }
  set (b := (before_modals <? after_modals)%nat || negb (bool_decide (modal_details = []))) in *.
  split; [|split].
  - rewrite Hdec. destruct b.
    + split; [intros _; by apply Happ | done].
    + split; [intros Heq; by destruct Hlen | intros Ha'; by apply Happ in Ha'].
  - rewrite Hdec. destruct b.
    + split; [intros Heq; by destruct Hlen | intros Hn; destruct Hn; by apply Happ].
    + split; [intros _ Ha'; by apply Happ in Ha' | done].
  - intros s0 s0' result. apply analyze_popup_elements_entries.
Qed.

(** C2. The revealed elements computed from a pair of snapshots are at most
    five and none of them has a text that a visible element of the pre-hover
    snapshot has; every confirmed hover element the analysis returns carries
    the revealed elements of such a pair. *)
Theorem revealed_elements_bounded_and_new (before after : Snapshot.State) :
  (length (_get_revealed_elements before after) ≤ 5)%nat ∧
  (∀ r, r ∈ _get_revealed_elements before after →
        r ∈ Snapshot.visible_elements after ∧
        ∀ b, b ∈ Snapshot.visible_elements before → Snapshot.text b ≠ Snapshot.text r) ∧
  (∀ s0 s0' result c, analyze_hover_elements s0 = (inr result, s0') → c ∈ result →
     (length (Confirmed.revealed_elements c) ≤ 5)%nat ∧
     ∃ before after,
       Confirmed.revealed_elements c = _get_revealed_elements before after ∧
       ∀ r b, r ∈ Confirmed.revealed_elements c → b ∈ Snapshot.visible_elements before →
              Snapshot.text b ≠ Snapshot.text r).
Proof.
  destruct (revealed_elements_spec before after) as [Hlen Hnew].
  split; [done|]. split.
  - intros r Hr. destruct (Hnew r Hr) as (? & _ & ?). done.
  - intros s0 s0' result c Hrun Hc.
    apply analyze_hover_elements_entries in Hrun.
    rewrite Forall_forall in Hrun. destruct (Hrun c Hc) as (b0 & a0 & _ & Heq).
    destruct (revealed_elements_spec b0 a0) as [Hlen0 Hnew0].
    rewrite Heq. simpl. split; [done|].
    exists b0, a0. split; [done|].
    intros r b Hr Hb. destruct (Hnew0 r Hr) as (_ & _ & Hne). by apply Hne.
Qed.

End ProbeFacts.

(** The round of the hover loop on "Store" in the small page: the hover
    reveals "Shop the Latest" and the candidate is confirmed. *)
Lemma hover_confirmed_on_small_page :
  (hover_probe (H := toy_playwright happy) 0 store_candidate (session_at toy_rest, [])).2.2 =
    [] ++ [confirmed_hover store_candidate (snapshot_of toy_rest) (snapshot_of toy_hovered)] ↔
  (length (Snapshot.visible_elements (snapshot_of toy_rest)) <
   length (Snapshot.visible_elements (snapshot_of toy_hovered)))%nat ∨
  Snapshot.html_length (snapshot_of toy_hovered) ≠ Snapshot.html_length (snapshot_of toy_rest).
Proof.
  apply (hover_confirmed_iff_content_changed (H := toy_playwright happy) 0 store_candidate
           (session_at toy_rest) [] the_store_link toy_rest (snapshot_of toy_rest)
           (session_at toy_rest) toy_hovered (snapshot_of toy_hovered) (session_at toy_hovered));
    reflexivity.
Defined.

(** The round of the popup loop on "Sign up" in the small page: the click
    opens the dialog and the trigger is confirmed. *)
Lemma popup_confirmed_on_small_page :
  (popup_probe (H := toy_playwright happy) 0 signup_trigger (session_at toy_rest, [])).2.2 =
    [] ++ [confirmed_popup signup_trigger (modal_details_script (toy_document toy_dialog))] ↔
  (0 < 1)%nat ∨ ∃ d, d ∈ modal_details_script (toy_document toy_dialog).
Proof.
  apply (popup_confirmed_iff_modal_appeared (H := toy_playwright happy) 0 signup_trigger
           (session_at toy_rest) [] the_signup_button toy_rest 0%nat
           (session_at toy_rest) toy_dialog 1%nat (session_at toy_dialog)
           (modal_details_script (toy_document toy_dialog)) (session_at toy_dialog));
    reflexivity.
Defined.

(** ** The nodes of the pipeline *)

Lemma append_nonempty (p e : string) : p ≠ EmptyString → p +:+ e ≠ EmptyString.
Proof. destruct p as [|c p]; [done|]. intros _. discriminate. Qed.

(** Symbolic execution of a node: name the outcome of the next call to the
    outside. *)
Ltac tidy :=
  cbn beta iota zeta delta [fst snd world logged session sink websocket_manager sent store].

Ltac name_outcome t :=
  let r := fresh "r" in
  let x := fresh "x" in
  destruct t as [r x];
  try match type of r with
      | sum _ _ => let e := fresh "e" in let a := fresh "a" in destruct r as [e|a]
      end;
  tidy.

Ltac outside_call :=
  match goal with
  | |- context [durable_store ?c ?w] => name_outcome (durable_store c w)
  | |- context [create_provider ?c ?w] => name_outcome (create_provider c w)
  | |- context [llm_generate ?c ?p ?w] => name_outcome (llm_generate c p w)
  | |- context [strftime_now ?w] => name_outcome (strftime_now w)
  | |- context [initialize ?c ?s] => name_outcome (initialize c s)
  | |- context [close ?s] => name_outcome (close s)
  | |- context [navigate_to_url ?u ?s] => name_outcome (navigate_to_url u s)
  | |- context [get_page_structure ?s] => name_outcome (get_page_structure s)
  | |- context [analyze_hover_elements ?s] => name_outcome (analyze_hover_elements s)
  | |- context [analyze_popup_elements ?s] => name_outcome (analyze_popup_elements s)
  | |- context [elements_or_empty ?l] => destruct (elements_or_empty l); tidy
  | |- context [_create_hover_prompt ?u ?l ?p] => destruct (_create_hover_prompt u l p); tidy
  | |- context [_create_popup_prompt ?u ?l ?p] => destruct (_create_popup_prompt u l p); tidy
  | |- context [task_truthy ?t] => destruct (task_truthy t); tidy
  | |- context [if ?b then _ else _] => is_var b; destruct b; tidy
  | |- context [match ?a with pair _ _ => _ end] => is_var a; destruct a; tidy
  end.

Ltac grown :=
  simpl; rewrite <- ?app_assoc; simpl;
  first [ exists []; split; [by rewrite app_nil_r|] | eexists; split; [reflexivity|] ].

Ltac node_post_close :=
  unfold node_post; simpl;
  split; [reflexivity|];
  split; [grown; first [ right; by repeat constructor | by left ]|];
  split; [grown; first [ done | by intros _ ]|];
  first
    [ done
    | split; [first [ right; by repeat split | left; by split ]|];
      split; [done|];
      split; [first [ by right | by left ]|];
      first [ left; eexists; split; [reflexivity|]; split; [by apply append_nonempty | done]
            | right; by split ] ].

Section PipelineFacts.
Context {W K : Type} `{Playwright W} `{Collaborators W K}.

(** The send site: [send_ws_update] returns normally whatever the sink
    does; only the sink's own state and the debug log depend on the
    delivery. *)
Lemma send_ws_update_eq task_id update (w : World W K) :
  send_ws_update task_id update w =
  (inr tt,
   {| session := {| world := world (session w);
                    logged := logged (session (send_ws_update task_id update w).2) |};
      sink := sink (send_ws_update task_id update w).2;
      websocket_manager := websocket_manager w;
      sent := sent w ++ (if websocket_manager w then [update] else []);
      store := store w |}).
Proof.
  destruct w as [[env lg] k mgr snt sto]. unfold send_ws_update. simpl.
  destruct mgr; simpl.
  - unfold try_except, manager_call, logger, in_session, log. simpl.
    by destruct (manager_send_update task_id update k) as [[e|[]] k'].
  - unfold ret. by rewrite app_nil_r.
Qed.

Ltac sink_call :=
  match goal with
  | |- context [send_ws_update ?t ?u ?w] =>
      rewrite (send_ws_update_eq t u w);
      generalize (logged (session (send_ws_update t u w).2));
      generalize (sink (send_ws_update t u w).2);
      intros ? ?; tidy
  end.

Ltac enter w :=
  let env := fresh "env" in let lg := fresh "lg" in let k := fresh "k" in
  let mgr := fresh "mgr" in let snt := fresh "snt" in let sto := fresh "sto" in
  destruct w as [[env lg] k mgr snt sto]; destruct mgr;
  unfold try_except, bind, db_call, logger, in_session, call, log, ret, raise; tidy.

Ltac run := repeat first [ sink_call | outside_call ].

Lemma create_task_node_post state (w : World W K) :
  node_post node.create_task w (create_task_node state w).1 (create_task_node state w).2.
Proof.
  unfold create_task_node. enter w; run; node_post_close.
Qed.

Lemma browser_analysis_subgraph_post state (w : World W K) :
  node_post node.browser_analysis w
    (browser_analysis_subgraph state w).1 (browser_analysis_subgraph state w).2.
Proof.
  unfold browser_analysis_subgraph, async_with_browser. enter w; run;
    node_post_close.
Qed.

Lemma generate_hover_features_node_post state (w : World W K) :
  node_post node.generate_hover_features w
    (generate_hover_features_node state w).1 (generate_hover_features_node state w).2.
Proof.
  unfold generate_hover_features_node, generate_hover_features, create_gherkin_generator,
    save_feature_file, timestamp.
  enter w; run; node_post_close.
Qed.

Lemma generate_popup_features_node_post state (w : World W K) :
  node_post node.generate_popup_features w
    (generate_popup_features_node state w).1 (generate_popup_features_node state w).2.
Proof.
  unfold generate_popup_features_node, generate_popup_features, create_gherkin_generator,
    save_feature_file, timestamp.
  enter w; run; node_post_close.
Qed.

Lemma complete_task_node_post state (w : World W K) :
  node_post node.complete_task w (complete_task_node state w).1 (complete_task_node state w).2.
Proof.
  unfold complete_task_node. enter w; run; node_post_close.
Qed.

Lemma handle_error_node_post state (w : World W K) :
  node_post node.handle_error w (handle_error_node state w).1 (handle_error_node state w).2.
Proof.
  unfold handle_error_node. enter w; run; node_post_close.
Qed.

Lemma run_node_post n state (w : World W K) :
  node_post n w (run_node n state w).1 (run_node n state w).2.
Proof.
  destruct n; simpl.
  - apply create_task_node_post.
  - apply browser_analysis_subgraph_post.
  - apply generate_hover_features_node_post.
  - apply generate_popup_features_node_post.
  - apply complete_task_node_post.
  - apply handle_error_node_post.
Qed.

Lemma run_graph_unfold limit n state :
  run_graph (W := W) (K := K) (S limit) n state =
  (update <- run_node n state ;;
   let state := merge state update in
   match edge n state with
   | inl e => raise e
   | inr None => ret state
   | inr (Some n') => run_graph limit n' state
   end).
Proof. reflexivity. Qed.

(** Take one step of the graph: name the node's outcome and recall what
    holds of it. *)
Ltac graph_step P E :=
  rewrite run_graph_unfold; unfold bind at 1;
  match goal with
  | |- context [run_node ?n ?state ?w] =>
      pose proof (run_node_post n state w) as P;
      let r := fresh "r" in let w1 := fresh "w" in
      let Hmgr := fresh "Hmgr" in
      let calls := fresh "calls" in let Hstore := fresh "Hstore" in
      let Hcalls := fresh "Hcalls" in
      let msgs := fresh "msgs" in let Hsent := fresh "Hsent" in
      let Hprog := fresh "Hprog" in
      destruct (run_node n state w) as [r w1] eqn:E;
      cbn [fst snd] in P;
      destruct P as (Hmgr & (calls & Hstore & Hcalls) & (msgs & Hsent & Hprog) & P)
  end.

(** The error handler ends the run in a failed state and leaves the rest of
    the state as it found it. *)
Lemma handle_error_ends limit state (w : World W K) st w' :
  run_graph (S limit) node.handle_error state w = (inr st, w') →
  WorkflowState.status st = failed ∧
  WorkflowState.error_message st = WorkflowState.error_message state ∧
  WorkflowState.page_structure st = WorkflowState.page_structure state ∧
  WorkflowState.hover_elements st = WorkflowState.hover_elements state ∧
  WorkflowState.popup_elements st = WorkflowState.popup_elements state ∧
  WorkflowState.result st = WorkflowState.result state ∧
  WorkflowState.hover_features st = WorkflowState.hover_features state ∧
  ∃ calls, store w' = store w ++ calls ∧ Forall (λ c, is_save_dom c = false) calls.
Proof.
  graph_step P E. destruct r as [e|u]; [done|].
  destruct P as ([[? _]|(Hps & Hhe & Hpe)] & Hres & [?|Hhf] &
                 [(msg & _ & _ & ?)|[Herr Hst]]); try done.
  simpl. intros [= <- <-]. simpl.
  rewrite Hst, Herr, Hps, Hhe, Hpe, Hres, Hhf by done. simpl.
  repeat split; try done.
  eexists. split; [done|]. by destruct Hcalls.
Qed.

Lemma navigate_to_url_fails url (s : Session W) :
  navigation_fails → ∃ s', navigate_to_url url s = (inr false, s').
Proof.
  intros Hnav. unfold navigate_to_url, try_except, bind, call, log, sleep, ret. simpl.
  destruct (Hnav url (world s)) as (e & w' & ->). simpl. by eexists.
Qed.

Ltac no_page Hnav :=
  match goal with
  | |- context [navigate_to_url ?u ?s] =>
      let s' := fresh "s" in
      destruct (navigate_to_url_fails u s Hnav) as (s' & ->); tidy
  end.

Lemma browser_analysis_without_page state (w : World W K) :
  navigation_fails →
  succeeded (browser_analysis_subgraph state w).1 = false ∧
  ∃ calls, store (browser_analysis_subgraph state w).2 = store w ++ calls ∧
           Forall (λ c, is_save_dom c = false) calls.
Proof.
  intros Hnav. unfold browser_analysis_subgraph, async_with_browser.
  enter w; repeat first [ no_page Hnav | sink_call | outside_call ];
    (split; [done|]; grown; by repeat constructor).
Qed.

Lemma handle_error_node_returns state (w : World W K) :
  store_reliable → ∃ u w', handle_error_node state w = (inr u, w').
Proof.
  intros Hrel. unfold handle_error_node.
  enter w;
    repeat first
      [ sink_call
      | match goal with
        | |- context [durable_store ?c ?w] =>
            let n := fresh "n" in let w' := fresh "w" in
            destruct (Hrel c w) as (n & w' & ->); tidy
        end
      | outside_call ];
    by eexists _, _.
Qed.

Local Arguments run_graph : simpl never.

Lemma grown_twice (l l1 l2 : list db.call) (calls1 : list db.call) :
  l1 = l ++ calls1 → Forall (λ c, is_save_dom c = false) calls1 →
  (∃ calls2, l2 = l1 ++ calls2 ∧ Forall (λ c, is_save_dom c = false) calls2) →
  ∃ calls, l2 = l ++ calls ∧ Forall (λ c, is_save_dom c = false) calls.
Proof.
  intros -> H1 (calls2 & -> & H2). exists (calls1 ++ calls2).
  split; [by rewrite app_assoc | by apply Forall_app].
Qed.

Lemma error_exit limit state (w : World W K) r w' :
  failed_with_message state → without_discovery state →
  run_graph (S limit) node.handle_error state w = (r, w') →
  (∃ calls, store w' = store w ++ calls ∧ Forall (λ c, is_save_dom c = false) calls) ∧
  (∀ st, r = inr st → failed_with_message st ∧ without_discovery st) ∧
  (store_reliable → ∃ st, r = inr st).
Proof.
  intros [Hst (msg & Hmsg & Hne)] (Hps & Hhe & Hpe & Hres).
  graph_step P E. destruct r0 as [e|u].
  - intros [= <- <-]. split; [|split].
    + exists calls. split; [done|]. by destruct Hcalls.
    + done.
    + intros Hrel. destruct (handle_error_node_returns state w Hrel) as (u & w2 & E').
      simpl in E. rewrite E' in E. done.
  - destruct P as ([[? _]|(Hps' & Hhe' & Hpe')] & Hres' & _ &
                   [(? & _ & _ & ?)|[Herr' Hst']]);
      try done.
    simpl. intros [= <- <-]. split; [|split].
    + exists calls. split; [done|]. by destruct Hcalls.
    + intros st [= <-]. split.
      * split; simpl; [by rewrite Hst'|]. exists msg. by rewrite Herr'.
      * repeat split; simpl; rewrite ?Hps', ?Hhe', ?Hpe', ?Hres' by done; done.
    + intros _. by eexists.
Qed.

(** C5. When navigation to the target URL fails, the browser analysis never
    calls the store with a discovery result and reports failure; the run
    ends in the error handler: the final state has status [failed], an error
    message that is not empty, and no discovery result or final result.  The
    only way the run does not end in that state is an exception of the
    durable store inside the error handler; with a store whose calls go
    through, the run always ends there. *)
Theorem navigation_failure_fails_run url llm_config browser_config (w : World W K) r w' :
  navigation_fails →
  run_workflow url llm_config browser_config w = (r, w') →
  (∃ calls, store w' = store w ++ calls ∧ Forall (λ c, is_save_dom c = false) calls) ∧
  (∀ st, r = inr st → failed_with_message st ∧ without_discovery st) ∧
  (store_reliable → ∃ st, r = inr st).
Proof.
  intros Hnav. unfold run_workflow, recursion_limit.
  set (s0 := initial_state url llm_config browser_config).
  assert (Hs0 : without_discovery s0) by done.
  assert (Hst0 : WorkflowState.status s0 = pending) by done.
  clearbody s0. destruct Hs0 as (Hps0 & Hhe0 & Hpe0 & Hres0).
  graph_step P1 E1.
  destruct r0 as [e|u1]; [done|].
  destruct Hcalls as [?|Hcalls]; [done|].
  destruct P1 as ([[? _]|(Hps1 & Hhe1 & Hpe1)] & Hres1 & _ & Hu1); [done|].
  specialize (Hres1 ltac:(done)).
  assert (Hd1 : without_discovery (merge s0 u1)).
  { repeat split; simpl; rewrite ?Hps1, ?Hhe1, ?Hpe1, ?Hres1; done. }
  destruct Hu1 as [(msg & -> & Hne & _)|[Herr1 Hstat1]].
  - (* task creation failed *)
    simpl. intros Hrun. apply error_exit in Hrun as (Hgrow & Hfin & Hret).
    + split; [|done]. by eapply grown_twice.
    + split; [done|]. by exists msg.
    + done.
  - (* task created: the browser analysis runs and fails *)
    unfold edge, after_create_task. simpl. rewrite Hstat1. simpl.
    graph_step P2 E2.
    simpl in E2.
    destruct (browser_analysis_without_page (merge s0 u1) w0 Hnav) as (Hfail & Hgrow2).
    rewrite E2 in Hfail, Hgrow2. simpl in Hfail, Hgrow2.
    destruct r0 as [e|u2]; [done|].
    destruct P2 as (_ & Hres2 & _ & Hu2).
    destruct Hu2 as [(msg & -> & Hne & _)|[Herr2 Hstat2]].
    + simpl. intros Hrun. apply error_exit in Hrun as (Hgrow & Hfin & Hret).
      * split; [|done].
        destruct Hgrow2 as (c2 & Hc2 & Hf2).
        eapply grown_twice; [| |exact Hgrow].
        -- rewrite Hc2, Hstore. by rewrite <- app_assoc.
        -- by apply Forall_app.
      * split; [done|]. by exists msg.
      * done.
    + simpl in Hfail. rewrite Hstat2 in Hfail. done.
Qed.

Lemma handle_error_fails limit state (w : World W K) st w' :
  run_graph limit node.handle_error state w = (inr st, w') →
  WorkflowState.status st = failed.
Proof.
  destruct limit as [|limit]; [done|].
  intros Hrun. by apply handle_error_ends in Hrun as (? & _).
Qed.

(** A failed state entering the popup generation stays failed. *)
Lemma popup_after_failure limit state (w : World W K) st w' :
  WorkflowState.status state = failed →
  run_graph limit node.generate_popup_features state w = (inr st, w') →
  WorkflowState.status st = failed.
Proof.
  intros Hst. destruct limit as [|limit]; [done|].
  graph_step P E. destruct r as [e|u]; [done|].
  destruct P as (_ & _ & _ & [(msg & -> & _ & _)|[Herr Hstat]]).
  - simpl. apply handle_error_fails.
  - unfold edge, after_feature_generation. simpl. rewrite Hstat, Hst. simpl.
    apply handle_error_fails.
Qed.

Lemma succeeded_status u n :
  Update.status u = success_status n → n ≠ node.handle_error → succeeded (inr u) = true.
Proof. intros Hu Hn. unfold succeeded. rewrite Hu. by destruct n. Qed.

Lemma path_from limit n state (w : World W K) st w' :
  WorkflowState.status state ≠ failed →
  run_graph limit n state w = (inr st, w') →
  WorkflowState.status st = completed →
  ∃ msgs, sent w' = sent w ++ msgs ∧
    omap Ws.progress msgs = if websocket_manager w then rest_of_path n else [].
Proof.
  revert n state w. induction limit as [|limit IH]; intros n state w Hst; [done|].
  graph_step P E. destruct r as [e|u]; [done|].
  destruct P as (_ & _ & _ & [(msg & -> & _ & Hn)|[Herr Hstat]]).
  - (* the node failed: the run cannot end completed *)
    destruct n; simpl; try done.
    + intros Hrun Hc. apply handle_error_fails in Hrun. congruence.
    + intros Hrun Hc. apply handle_error_fails in Hrun. congruence.
    + intros Hrun Hc. apply popup_after_failure in Hrun; [congruence | done].
    + intros Hrun Hc. apply handle_error_fails in Hrun. congruence.
    + by intros [= <- <-].
  - destruct (decide (n = node.handle_error)) as [->|Hn].
    { simpl. intros [= <- <-]. simpl. by rewrite Hstat. }
    specialize (Hprog (succeeded_status u n Hstat Hn)).
    assert (Hnext : ∀ n',
      WorkflowState.status (merge state u) ≠ failed →
      rest_of_path n = emitted n ++ rest_of_path n' →
      run_graph limit n' (merge state u) w0 = (inr st, w') →
      WorkflowState.status st = completed →
      ∃ msgs0, sent w' = sent w ++ msgs0 ∧
        omap Ws.progress msgs0 = if websocket_manager w then rest_of_path n else []).
    { intros n' Hst' Hrest Hrun Hc.
      destruct (IH n' (merge state u) w0 Hst' Hrun Hc) as (msgs2 & Hsent2 & Hprog2).
      exists (msgs ++ msgs2). split; [by rewrite Hsent2, Hsent, app_assoc|].
      rewrite omap_app, Hprog, Hprog2, Hmgr, Hrest.
      by destruct (websocket_manager w). }
    assert (Hmerged : WorkflowState.status (merge state u) =
                      default (WorkflowState.status state) (success_status n)).
    { simpl. by rewrite Hstat. }
    destruct n; try done; unfold edge, after_create_task, after_browser_analysis,
      after_feature_generation; rewrite ?Hmerged; simpl in *.
    + apply Hnext; [by rewrite Hmerged | done].
    + destruct (decide (WorkflowState.status state = failed)); [done|].
      apply Hnext; [by rewrite Hmerged | done].
    + apply Hnext; [by rewrite Hmerged | done].
    + destruct (decide (WorkflowState.status state = failed)); [done|].
      apply Hnext; [by rewrite Hmerged | done].
    + intros [= <- <-] _. exists msgs. split; [done|]. by rewrite Hprog.
Qed.

(** C7. On a run that ends with status [completed], the progress values
    handed to the Progress Sink are, in order, 0, 10, 20, 30, 40, 60, 70, 85,
    100 when a sink is registered (and none otherwise): the sequence is
    non-decreasing and, with a sink, ends at exactly 100. *)
Theorem progress_nondecreasing_to_100 url llm_config browser_config (w : World W K) st w' :
  run_workflow url llm_config browser_config w = (inr st, w') →
  WorkflowState.status st = completed →
  ∃ msgs, sent w' = sent w ++ msgs ∧
    omap Ws.progress msgs = (if websocket_manager w then happy_path else []) ∧
    Sorted Z.le (omap Ws.progress msgs) ∧
    (websocket_manager w = true → last (omap Ws.progress msgs) = Some 100%Z).
Proof.
  intros Hrun Hc. apply path_from in Hrun as (msgs & Hsent & Hprog); [|done|done].
  exists msgs. split; [done|]. split; [done|]. rewrite Hprog.
  destruct (websocket_manager w); simpl.
  - split; [|done]. repeat constructor; done.
  - split; [constructor | done].
Qed.




Lemma store_only_grows limit n state (w : World W K) r w' :
  run_graph limit n state w = (r, w') → store w `prefix_of` store w'.
Proof.
  revert n state w. induction limit as [|limit IH]; intros n state w.
  { by intros [= <- <-]. }
  graph_step P E. destruct r0 as [e|u].
  - intros [= <- <-]. rewrite Hstore. by apply prefix_app_r.
  - destruct (edge n (merge state u)) as [e|[n'|]].
    + intros [= <- <-]. rewrite Hstore. by apply prefix_app_r.
    + intros Hrun. apply IH in Hrun. etrans; [|exact Hrun].
      rewrite Hstore. by apply prefix_app_r.
    + intros [= <- <-]. rewrite Hstore. by apply prefix_app_r.
Qed.

Lemma db_call_returns c : store_reliable → returns (db_call c : M (World W K) nat).
Proof.
  intros Hrel w. unfold db_call, call.
  destruct (Hrel c (world (session w))) as (n & w' & ->). by eexists _, _.
Qed.

Lemma send_ws_update_returns task_id update :
  returns (send_ws_update task_id update : M (World W K) unit).
Proof. intros w. rewrite send_ws_update_eq. by eexists _, _. Qed.

Lemma logger_returns lvl msg : returns (logger lvl msg : M (World W K) unit).
Proof. intros w. by eexists _, _. Qed.

Lemma run_node_returns n : store_reliable → ∀ state, returns (run_node n state : M (World W K) _).
Proof.
  intros Hrel state. destruct n; simpl.
  - apply returns_try_except. intros e. apply returns_bind; [apply logger_returns|].
    intros _. apply returns_ret.
  - apply returns_try_except. intros e. apply returns_bind; [apply logger_returns|].
    intros _. apply returns_ret.
  - apply returns_try_except. intros e. apply returns_bind; [apply logger_returns|].
    intros _. apply returns_bind; [by apply db_call_returns|]. intros _. apply returns_ret.
  - apply returns_try_except. intros e. apply returns_bind; [apply logger_returns|].
    intros _. apply returns_bind; [by apply db_call_returns|]. intros _. apply returns_ret.
  - apply returns_try_except. intros e. apply returns_bind; [apply logger_returns|].
    intros _. apply returns_ret.
  - unfold handle_error_node. apply returns_bind.
    + destruct (task_truthy _); [|apply returns_ret].
      apply returns_bind; [by apply db_call_returns|]. intros _.
      apply returns_bind; [by apply db_call_returns|]. intros _.
      apply send_ws_update_returns.
    + intros _. apply returns_bind; [apply logger_returns|]. intros _. apply returns_ret.
Qed.

Lemma run_graph_returns limit n state :
  store_reliable → (steps_left n ≤ limit)%nat →
  returns (run_graph limit n state : M (World W K) _).
Proof.
  intros Hrel. revert n state. induction limit as [|limit IH]; intros n state Hn w.
  { destruct n; simpl in Hn; lia. }
  rewrite run_graph_unfold. unfold bind at 1.
  destruct (run_node_returns n Hrel state w) as (u & w1 & ->).
  destruct n; unfold edge, after_create_task, after_browser_analysis, after_feature_generation;
    simpl in *; repeat case_decide; try (apply IH; simpl; lia); by eexists _, _.
Qed.




(** ** The sink cannot change a step *)

Lemma blind_ret {S A} (R : S → S → Prop) (a : A) : blind R (ret a).
Proof. by intros s1 s2 HR. Qed.

Lemma blind_raise {S A} (R : S → S → Prop) (e : exn) : blind R (raise e : M S A).
Proof. by intros s1 s2 HR. Qed.

Lemma blind_bind {S A B} (R : S → S → Prop) (m : M S A) (k : A → M S B) :
  blind R m → (∀ a, blind R (k a)) → blind R (bind m k).
Proof.
  intros Hm Hk s1 s2 HR. unfold bind. destruct (Hm s1 s2 HR) as [Hr HR'].
  destruct (m s1) as [[e1|a1] s1'], (m s2) as [[e2|a2] s2']; simpl in *; simplify_eq; try done.
  by apply Hk.
Qed.

Lemma blind_try_except {S A} (R : S → S → Prop) (m : M S A) (h : exn → M S A) :
  blind R m → (∀ e, blind R (h e)) → blind R (try_except m h).
Proof.
  intros Hm Hh s1 s2 HR. unfold try_except. destruct (Hm s1 s2 HR) as [Hr HR'].
  destruct (m s1) as [[e1|a1] s1'], (m s2) as [[e2|a2] s2']; simpl in *; simplify_eq; try done.
  by apply Hh.
Qed.

Lemma blind_for_each {S X} (R : S → S → Prop) (xs : list X) (body : X → M S unit) :
  (∀ x, blind R (body x)) → blind R (for_each xs body).
Proof.
  intros Hb. induction xs as [|x xs IH]; simpl.
  - apply blind_ret.
  - apply blind_bind; auto.
Qed.

Lemma blind_call {A} (op : W → (exn + A) * W) : blind (same_page (W := W)) (call op).
Proof.
  intros s1 s2 HR. unfold call, same_page in *. rewrite HR.
  by destruct (op (world s2)).
Qed.

Lemma blind_sleep ms : blind (same_page (W := W)) (sleep ms).
Proof. intros s1 s2 HR. unfold sleep, same_page in *. simpl. by rewrite HR. Qed.

Lemma blind_log lvl msg : blind (same_page (W := W)) (log lvl msg : M (Session W) unit).
Proof. by intros s1 s2 HR. Qed.

Lemma blind_outer {L A} (m : M (Session W) A) :
  blind (same_page (W := W)) m → blind (same_page_and (W := W)) (outer m : M (Session W * L) A).
Proof.
  intros Hm [s1 l1] [s2 l2] [HR Hl]. simpl in *. subst l2.
  destruct (Hm s1 s2 HR) as [Hr HR']. unfold outer. simpl.
  by destruct (m s1), (m s2).
Qed.

Lemma blind_update_local {L} (f : L → L) :
  blind (same_page_and (W := W)) (update_local f : M (Session W * L) unit).
Proof. intros [s1 l1] [s2 l2] [HR Hl]. simpl in *. by subst l2. Qed.

Lemma blind_with_local {L A} (l0 : L) (m : M (Session W * L) A) :
  blind (same_page_and (W := W)) m → blind (same_page (W := W)) (with_local l0 m).
Proof.
  intros Hm s1 s2 HR. destruct (Hm (s1, l0) (s2, l0)) as [Hr [HR' Hl]]; [done|].
  unfold with_local.
  destruct (m (s1, l0)) as [[e1|a1] [s1' l1]], (m (s2, l0)) as [[e2|a2] [s2' l2]];
    simpl in *; simplify_eq; done.
Qed.

Ltac blind_step :=
  cbn beta;
  lazymatch goal with
  | |- blind _ (ret _) => apply blind_ret
  | |- blind _ (raise _) => apply blind_raise
  | |- blind _ (bind _ _) => apply blind_bind; [|intros ?]
  | |- blind _ (try_except _ _) => apply blind_try_except; [|intros ?]
  | |- blind _ (for_each _ _) => apply blind_for_each; intros ?
  | |- blind _ (call _) => apply blind_call
  | |- blind _ (sleep _) => apply blind_sleep
  | |- blind _ (log _ _) => apply blind_log
  | |- blind _ (outer _) => apply blind_outer
  | |- blind _ (update_local _) => apply blind_update_local
  | |- blind _ (with_local _ _) => apply blind_with_local
  | |- blind _ (match ?x with _ => _ end) => destruct x
  end.

Lemma blind_evaluate {A} (script : Document → exn + A) : blind (same_page (W := W)) (evaluate script).
Proof. unfold evaluate. repeat blind_step. Qed.

Lemma blind_capture_page_state : blind (same_page (W := W)) _capture_page_state.
Proof. unfold _capture_page_state. repeat first [apply blind_evaluate | blind_step]. Qed.

Lemma blind_hover_probe i elem_info : blind (same_page_and (W := W)) (hover_probe i elem_info).
Proof. unfold hover_probe. repeat first [apply blind_capture_page_state | blind_step]. Qed.

Lemma blind_analyze_hover_elements : blind (same_page (W := W)) analyze_hover_elements.
Proof.
  unfold analyze_hover_elements.
  repeat first [apply blind_evaluate | apply blind_hover_probe | blind_step].
Qed.

Lemma blind_close_button_loop selectors : blind (same_page (W := W)) (close_button_loop selectors).
Proof.
  induction selectors as [|selector rest IH]; simpl; repeat first [apply IH | blind_step].
Qed.

Lemma blind_close_any_modal : blind (same_page (W := W)) _close_any_modal.
Proof. unfold _close_any_modal. repeat first [apply blind_close_button_loop | blind_step]. Qed.

Lemma blind_popup_probe i trigger_info : blind (same_page_and (W := W)) (popup_probe i trigger_info).
Proof.
  unfold popup_probe, _count_modals, _get_modal_details.
  repeat first [apply blind_evaluate | apply blind_close_any_modal | blind_step].
Qed.

Lemma blind_analyze_popup_elements : blind (same_page (W := W)) analyze_popup_elements.
Proof.
  unfold analyze_popup_elements.
  repeat first [apply blind_evaluate | apply blind_popup_probe | blind_step].
Qed.

Lemma blind_get_page_structure : blind (same_page (W := W)) get_page_structure.
Proof.
  unfold get_page_structure. blind_step; [|repeat blind_step].
  blind_step; [blind_step|]. blind_step; [blind_step|]. blind_step; [|blind_step].
  intros s1 s2 HR. unfold same_page in *. simpl. by rewrite HR.
Qed.

Lemma blind_navigate_to_url url : blind (same_page (W := W)) (navigate_to_url url).
Proof. unfold navigate_to_url. repeat blind_step. Qed.

Lemma blind_initialize cfg : blind (same_page (W := W)) (initialize cfg).
Proof. unfold initialize. repeat blind_step. Qed.

Lemma blind_close : blind (same_page (W := W)) close.
Proof. unfold close. repeat blind_step. Qed.

Lemma blind_in_session {A} (m : M (Session W) A) :
  blind (same_page (W := W)) m → blind (same_outside (W := W) (K := K)) (in_session m).
Proof.
  intros Hm w1 w2 [Hw Hs]. destruct (Hm (session w1) (session w2) Hw) as [Hr HR].
  unfold in_session. destruct (m (session w1)), (m (session w2)). simpl in *. done.
Qed.

Lemma blind_logger lvl msg : blind (same_outside (W := W) (K := K)) (logger lvl msg).
Proof. apply blind_in_session, blind_log. Qed.

Lemma blind_db_call c : blind (same_outside (W := W) (K := K)) (db_call c).
Proof.
  intros w1 w2 [Hw Hs]. unfold db_call, call. rewrite Hw, Hs.
  by destruct (durable_store c (world (session w2))).
Qed.

Lemma blind_send_ws_update task_id update : blind (same_outside (W := W) (K := K)) (send_ws_update task_id update).
Proof.
  intros w1 w2 [Hw Hs]. rewrite (send_ws_update_eq _ _ w1), (send_ws_update_eq _ _ w2). done.
Qed.

Lemma blind_async_with_browser {A} cfg (body : M (World W K) A) :
  blind (same_outside (W := W) (K := K)) body → blind (same_outside (W := W) (K := K)) (async_with_browser cfg body).
Proof.
  intros Hb. unfold async_with_browser. apply blind_bind.
  { apply blind_in_session, blind_initialize. }
  intros _ w1 w2 HR. destruct (Hb w1 w2 HR) as [Hr HR'].
  destruct (body w1) as [r1 w1'], (body w2) as [r2 w2']. simpl in *. subst r2.
  destruct (blind_in_session close blind_close w1' w2' HR') as [Hc HR''].
  destruct (in_session close w1') as [[e1|[]] w1''], (in_session close w2') as [[e2|[]] w2''];
    simpl in *; simplify_eq; done.
Qed.

Ltac pipeline_blind :=
  repeat first
    [ apply blind_logger
    | apply blind_db_call
    | apply blind_send_ws_update
    | apply blind_async_with_browser
    | apply blind_in_session;
      first [ apply blind_navigate_to_url | apply blind_get_page_structure
            | apply blind_analyze_hover_elements | apply blind_analyze_popup_elements
            | apply blind_call ]
    | blind_step ].

Lemma blind_timestamp : blind (same_outside (W := W) (K := K)) timestamp.
Proof.
  unfold timestamp. apply blind_in_session. intros s1 s2 HR. unfold same_page in *.
  rewrite HR. by destruct (strftime_now (world s2)).
Qed.

Lemma blind_run_node n state : blind (same_outside (W := W) (K := K)) (run_node n state).
Proof.
  destruct n; simpl.
  - unfold create_task_node. pipeline_blind.
  - unfold browser_analysis_subgraph. pipeline_blind.
  - unfold generate_hover_features_node, generate_hover_features, create_gherkin_generator,
      save_feature_file.
    repeat first [ apply blind_timestamp | progress pipeline_blind ].
  - unfold generate_popup_features_node, generate_popup_features, create_gherkin_generator,
      save_feature_file.
    repeat first [ apply blind_timestamp | progress pipeline_blind ].
  - unfold complete_task_node. pipeline_blind.
  - unfold handle_error_node. pipeline_blind.
Qed.

(** C9. Sending a progress event never raises: [send_ws_update] returns
    normally whether the delivery goes through, fails, or no sink is
    registered; a delivery error is put in the debug log at the send site and
    nothing else of the world outside the sink changes.  The outcome of a
    pipeline step (what it returns or raises, the world it leaves, the calls
    it made to the store) is the same from two states that differ only in
    the sink, its registration and the log, so it is the same whether
    deliveries fail or go through. *)
Theorem progress_sink_failure_is_harmless task_id update n state (w1 w2 : World W K) :
  same_outside w1 w2 →
  (∃ w', send_ws_update task_id update w1 = (inr tt, w') ∧ same_outside w1 w' ∧
     logged (session w') = logged (session w1) ++
       (if websocket_manager w1 then
          match (manager_send_update task_id update (sink w1)).1 with
          | inl e => [{| levelname := "DEBUG"; message := "WebSocket update failed: " +:+ e |}]
          | inr _ => []
          end
        else [])) ∧
  (run_node n state w1).1 = (run_node n state w2).1 ∧
  same_outside (run_node n state w1).2 (run_node n state w2).2.
Proof.
  intros HR. split; [|by apply blind_run_node].
  rewrite send_ws_update_eq. eexists. split; [done|]. split; [done|].
  destruct w1 as [[env lg] k mgr snt sto]. unfold send_ws_update. simpl.
  destruct mgr; simpl.
  - unfold try_except, manager_call. simpl.
    destruct (manager_send_update task_id update k) as [[e|[]] k']; simpl; [done|].
    by rewrite app_nil_r.
  - by rewrite app_nil_r.
Qed.

(** ** What a node hands over *)

Ltac stored :=
  repeat first
    [ by (apply elem_of_app; right; apply list_elem_of_singleton)
    | apply elem_of_app; left ].

Ltac yield_close :=
  try done; unfold node_yield; simpl; try done; intros _;
  repeat first
    [ done
    | split; [done|]
    | eexists; split; [reflexivity|]
    | eexists _, _, _; split; [reflexivity|]
    | split; [by stored|]
    | by stored
    | by eexists ].

Lemma run_node_yield n state (w : World W K) :
  match (run_node n state w).1 with
  | inr u => Update.error_message u = None → node_yield n state u (run_node n state w).2
  | inl _ => True
  end.
Proof.
  destruct n; simpl.
  - unfold create_task_node. enter w; run; yield_close.
  - unfold browser_analysis_subgraph, async_with_browser. enter w; run; yield_close.
  - unfold generate_hover_features_node, generate_hover_features, create_gherkin_generator,
      save_feature_file, timestamp.
    enter w; run; yield_close.
  - unfold generate_popup_features_node, generate_popup_features, create_gherkin_generator,
      save_feature_file, timestamp.
    enter w; run; yield_close.
  - unfold complete_task_node. enter w; run; yield_close.
  - unfold handle_error_node. enter w; run; yield_close.
Qed.

Ltac persisted :=
  simpl; rewrite <- ?app_assoc; simpl;
  first [ exists []; split; [by rewrite app_nil_r|] | eexists; split; [reflexivity|] ];
  simpl; by eexists.

Ltac progress_close := split; [grown; simpl; by eexists | persisted].

(** Whatever the outcome of a node, the progress values it handed to the
    sink and those it wrote to the store are the first of the values it
    hands over when it goes through. *)
Lemma run_node_progress n state (w : World W K) :
  (∃ msgs, sent (run_node n state w).2 = sent w ++ msgs ∧
     omap Ws.progress msgs `prefix_of` emitted n) ∧
  (∃ calls, store (run_node n state w).2 = store w ++ calls ∧
     omap stored_progress calls `prefix_of` emitted n).
Proof.
  destruct n; simpl.
  - unfold create_task_node. enter w; run; progress_close.
  - unfold browser_analysis_subgraph, async_with_browser. enter w; run; progress_close.
  - unfold generate_hover_features_node, generate_hover_features, create_gherkin_generator,
      save_feature_file, timestamp.
    enter w; run; progress_close.
  - unfold generate_popup_features_node, generate_popup_features, create_gherkin_generator,
      save_feature_file, timestamp.
    enter w; run; progress_close.
  - unfold complete_task_node. enter w; run; progress_close.
  - unfold handle_error_node. enter w; run; progress_close.
Qed.

(** ** How a run ends *)

(** A run of the graph from a state a node may be entered with ends
    completed or failed. *)
Lemma run_graph_ends limit n state (w : World W K) st w' :
  entered_with n state →
  run_graph limit n state w = (inr st, w') →
  ended_completed st ∨ ended_failed st.
Proof.
  revert n state w. induction limit as [|limit IH]; intros n state w [Hres Hin]; [done|].
  graph_step P E. destruct r as [e|u]; [done|].
  pose proof (run_node_yield n state w) as Hyield. rewrite E in Hyield. cbn [fst snd] in Hyield.
  destruct P as (_ & Hres' & _ & [(msg & -> & Hne & Hn)|[Herr Hstat]]).
  - (* the node reported failure *)
    assert (Hfm : failed_with_message (merge state (Update.failure msg))).
    { split; [done|]. by exists msg. }
    assert (Hnext : ∀ n', n' = node.handle_error ∨ n' = node.generate_popup_features →
              run_graph limit n' (merge state (Update.failure msg)) w0 = (inr st, w') →
              ended_completed st ∨ ended_failed st).
    { intros n' Hn'. apply IH. split; [done|]. destruct Hn' as [Hn'|Hn']; subst n'; [done | by left]. }
    destruct n; simpl; try done.
    + apply Hnext. by left.
    + apply Hnext. by left.
    + apply Hnext. by right.
    + apply Hnext. by left.
    + intros [= <- <-]. right. by split.
  - specialize (Hyield Herr).
    assert (Hms : WorkflowState.status (merge state u) =
                  match success_status n with
                  | Some status => status
                  | None => WorkflowState.status state
                  end).
    { simpl. rewrite Hstat. by destruct (success_status n). }
    assert (Hme : WorkflowState.error_message (merge state u) =
                  WorkflowState.error_message state).
    { simpl. by rewrite Herr. }
    assert (Hmr : n ≠ node.complete_task →
                  WorkflowState.result (merge state u) = None).
    { intros Hn. simpl. by rewrite Hres', Hres. }
    destruct n; unfold edge, after_create_task, after_browser_analysis,
      after_feature_generation; rewrite ?Hms; cbn [success_status entered_with] in *.
    + simpl. apply IH. split; [by apply Hmr|]. cbn [entered_with]. rewrite Hms, Hme.
      by destruct Hin.
    + destruct Hin as [Hnf Hnone]. rewrite decide_False by done.
      apply IH. split; [by apply Hmr|]. cbn [entered_with]. by rewrite Hms, Hme.
    + apply IH. split; [by apply Hmr|]. cbn [entered_with]. rewrite Hms, Hme.
      destruct Hin as [Hnf Hnone]. by right.
    + destruct Hin as [[Hf (msg & Hmsg & Hne)]|[Hnf Hnone]].
      * rewrite decide_True by done.
        apply IH. split; [by apply Hmr|]. cbn [entered_with].
        split; [by rewrite Hms|]. rewrite Hme. by exists msg.
      * rewrite decide_False by done.
        apply IH. split; [by apply Hmr|]. cbn [entered_with]. by rewrite Hms, Hme.
    + intros [= <- <-]. left. destruct Hin as [Hnf Hnone].
      destruct Hyield as (_ & _ & Hprog' & Hresult).
      split; [by rewrite Hms|]. split; [by rewrite Hme|].
      split; [by simpl; rewrite Hprog'|]. simpl. rewrite Hresult. simpl. by eexists.
    + intros [= <- <-]. right. destruct Hin as [Hf (msg & Hmsg & Hne)].
      split; [|by apply Hmr].
      split; [by rewrite Hms|]. rewrite Hme. by exists msg.
Qed.

(** X10. A run of the workflow that returns ends in one of two ways: with
    status [completed], no error message, progress 100 and a final result
    whose status is [completed]; or with status [failed], an error message
    that is not empty and no final result.  When every call to the store
    goes through, the run returns: no exception leaves the graph and the
    step limit is never reached. *)
Theorem run_ends_completed_or_failed url llm_config browser_config (w : World W K) r w' :
  run_workflow url llm_config browser_config w = (r, w') →
  (∀ st, r = inr st → ended_completed st ∨ ended_failed st) ∧
  (store_reliable → ∃ st, r = inr st).
Proof.
  intros Hrun. split.
  - intros st ->. eapply run_graph_ends; [|exact Hrun]. by split.
  - intros Hrel.
    destruct (run_graph_returns recursion_limit node.create_task
                (initial_state url llm_config browser_config) Hrel) with (s := w)
      as (st & w2 & Hst); [simpl; unfold recursion_limit; lia|].
    unfold run_workflow in Hrun. rewrite Hst in Hrun. injection Hrun as <- <-. by exists st.
Qed.

(** ** Progress on every run *)

Lemma edge_cases n state :
  edge n state = inr None ∨
  edge n state = inr (Some node.handle_error) ∨
  ∃ n', edge n state = inr (Some n') ∧ rest_of_path n = emitted n ++ rest_of_path n'.
Proof.
  destruct n; unfold edge, after_create_task, after_browser_analysis, after_feature_generation;
    repeat case_decide; simpl; try (by left); try (by right; left);
    right; right; by eexists.
Qed.

Lemma emitted_in_rest n : emitted n `prefix_of` rest_of_path n.
Proof. destruct n; by eexists. Qed.

(** A list of values gathered along a run of the graph: each node adds the
    first of its own values, so the whole is a sublist of the values of a run
    that goes through. *)
Lemma gathered_along {T} (trace : World W K → list T) (value : T → option Z) :
  (∀ n state w, ∃ items, trace (run_node n state w).2 = trace w ++ items ∧
     omap value items `prefix_of` emitted n) →
  ∀ limit n state w,
  ∃ items, trace (run_graph limit n state w).2 = trace w ++ items ∧
    omap value items `sublist_of` rest_of_path n.
Proof.
  intros Hnode limit. induction limit as [|limit IH]; intros n state w.
  { exists []. split; [by rewrite app_nil_r | apply sublist_nil_l]. }
  rewrite run_graph_unfold. unfold bind at 1.
  destruct (Hnode n state w) as (msgs & Hsent & [rest Hrest]).
  assert (Hhere : omap value msgs `sublist_of` rest_of_path n).
  { destruct (emitted_in_rest n) as [rest' Hrest']. rewrite Hrest', Hrest, <- app_assoc.
    by apply sublist_inserts_r. }
  destruct (run_node n state w) as [[e|u] w0]; simpl in Hsent.
  { by exists msgs. }
  destruct (edge_cases n (merge state u)) as [->|[->|(n' & -> & Hpath)]].
  - by exists msgs.
  - destruct (IH node.handle_error (merge state u) w0) as (msgs2 & Hsent2 & Hsub2).
    apply sublist_nil_r in Hsub2.
    exists (msgs ++ msgs2). split; [by rewrite Hsent2, Hsent, app_assoc|].
    by rewrite omap_app, Hsub2, app_nil_r.
  - destruct (IH n' (merge state u) w0) as (msgs2 & Hsent2 & Hsub2).
    exists (msgs ++ msgs2). split; [by rewrite Hsent2, Hsent, app_assoc|].
    rewrite omap_app, Hpath. apply sublist_app; [|done].
    rewrite Hrest. by apply sublist_inserts_r.
Qed.

Lemma StronglySorted_sublist {A} (R : A → A → Prop) (l1 l2 : list A) :
  l1 `sublist_of` l2 → StronglySorted R l2 → StronglySorted R l1.
Proof.
  induction 1 as [|x l1 l2 Hsub IH|x l1 l2 Hsub IH]; intros Hs; [done| |].
  - apply StronglySorted_inv in Hs as [Hs Hx]. constructor; [by apply IH|].
    rewrite Forall_forall in Hx |- *. intros y Hy. apply Hx. by eapply elem_of_sublist.
  - apply StronglySorted_inv in Hs as [Hs _]. by apply IH.
Qed.

(** X12. On every run of the workflow, whether it completes, fails or raises,
    the progress values handed to the sink and the progress values written
    to the store are each, in order, a selection of 0, 10, 20, 30, 40, 60, 70,
    85, 100: they are strictly increasing and no value is handed over or
    written twice. *)
Theorem progress_increases_on_every_run url llm_config browser_config (w : World W K) :
  let w' := (run_workflow url llm_config browser_config w).2 in
  (∃ msgs, sent w' = sent w ++ msgs ∧
     omap Ws.progress msgs `sublist_of` happy_path ∧
     StronglySorted Z.lt (omap Ws.progress msgs)) ∧
  (∃ calls, store w' = store w ++ calls ∧
     omap stored_progress calls `sublist_of` happy_path ∧
     StronglySorted Z.lt (omap stored_progress calls)).
Proof.
  assert (Hsorted : StronglySorted Z.lt happy_path).
  { unfold happy_path. repeat (constructor; [|by repeat constructor]). constructor. }
  split.
  - destruct (gathered_along sent Ws.progress (λ n state w, proj1 (run_node_progress n state w))
                recursion_limit node.create_task
                (initial_state url llm_config browser_config) w) as (msgs & Hsent & Hsub).
    exists msgs. split; [done|]. split; [done|]. by eapply StronglySorted_sublist.
  - destruct (gathered_along store stored_progress
                (λ n state w, proj2 (run_node_progress n state w))
                recursion_limit node.create_task
                (initial_state url llm_config browser_config) w) as (calls & Hstore & Hsub).
    exists calls. split; [done|]. split; [done|]. by eapply StronglySorted_sublist.
Qed.

(** ** The sink cannot change a run *)

Lemma blind_run_graph limit n state :
  blind (same_outside (W := W) (K := K)) (run_graph limit n state).
Proof.
  revert n state. induction limit as [|limit IH]; intros n state.
  { apply blind_raise. }
  rewrite run_graph_unfold. apply blind_bind; [apply blind_run_node|].
  intros u. cbv zeta. destruct (edge n (merge state u)) as [e|[n'|]].
  - apply blind_raise.
  - apply IH.
  - apply blind_ret.
Qed.

(** X13. The outcome of a whole run (the final state or the exception), the
    calls made to the store and the world the browser is left in are the
    same from two states that differ only in the sink, its registration,
    what was handed to it and the log. *)
Theorem run_outcome_independent_of_sink url llm_config browser_config (w1 w2 : World W K) :
  same_outside w1 w2 →
  (run_workflow url llm_config browser_config w1).1 =
  (run_workflow url llm_config browser_config w2).1 ∧
  store (run_workflow url llm_config browser_config w1).2 =
  store (run_workflow url llm_config browser_config w2).2 ∧
  world (session (run_workflow url llm_config browser_config w1).2) =
  world (session (run_workflow url llm_config browser_config w2).2).
Proof.
  intros HR.
  destruct (blind_run_graph recursion_limit node.create_task
              (initial_state url llm_config browser_config) w1 w2 HR) as [Hr [Hw Hs]].
  done.
Qed.

(** ** What a completed run has stored *)

Lemma failed_run_stays_failed limit n state (w : World W K) st w' :
  WorkflowState.status state = failed →
  n = node.handle_error ∨ n = node.generate_popup_features →
  run_graph limit n state w = (inr st, w') →
  WorkflowState.status st = failed.
Proof.
  intros Hst [->| ->]; [apply handle_error_fails | by apply popup_after_failure].
Qed.

Lemma discovered_kept state u (w w0 : World W K) :
  Update.task_id u = None → no_discovery u → store w `prefix_of` store w0 →
  discovered state w → discovered (merge state u) w0.
Proof.
  intros Hid (Hps & Hhe & Hpe) Hpre (ps & he & pe & ? & ? & ? & Hin).
  exists ps, he, pe. simpl. rewrite Hid, Hps, Hhe, Hpe. simpl.
  repeat split; try done. by eapply elem_of_prefix.
Qed.

Lemma hover_written_kept state u (w w0 : World W K) :
  Update.task_id u = None → Update.hover_features u = None → store w `prefix_of` store w0 →
  hover_written state w → hover_written (merge state u) w0.
Proof.
  intros Hid Hhf Hpre (f & ? & Hin1 & Hin2).
  exists f. simpl. rewrite Hid, Hhf. simpl.
  repeat split; try done; by eapply elem_of_prefix.
Qed.

Lemma popup_written_kept state u (w w0 : World W K) :
  Update.task_id u = None → Update.popup_features u = None → store w `prefix_of` store w0 →
  popup_written state w → popup_written (merge state u) w0.
Proof.
  intros Hid Hpf Hpre (f & ? & Hin1 & Hin2).
  exists f. simpl. rewrite Hid, Hpf. simpl.
  repeat split; try done; by eapply elem_of_prefix.
Qed.

Lemma task_id_kept state u :
  Update.task_id u = None → is_Some (WorkflowState.task_id state) →
  is_Some (WorkflowState.task_id (merge state u)).
Proof. intros Hid. simpl. by rewrite Hid. Qed.

Lemma completed_from limit n state (w : World W K) st w' :
  WorkflowState.status state ≠ failed →
  gathered n state w →
  run_graph limit n state w = (inr st, w') →
  WorkflowState.status st = completed →
  gathered node.complete_task st w' ∧
  WorkflowState.url st = WorkflowState.url state ∧
  WorkflowState.result st = Some (result_of st).
Proof.
  revert n state w. induction limit as [|limit IH]; intros n state w Hnf Hg; [done|].
  graph_step P E. destruct r as [e|u]; [done|].
  pose proof (run_node_yield n state w) as Hyield. rewrite E in Hyield. cbn [fst snd] in Hyield.
  assert (Hpre : store w `prefix_of` store w0) by (rewrite Hstore; by apply prefix_app_r).
  destruct P as (Hdisc & Hres' & Hhf & [(msg & -> & Hne & Hn)|[Herr Hstat]]).
  - (* the node reported failure: the run cannot end completed *)
    assert (Hnext : ∀ n', n' = node.handle_error ∨ n' = node.generate_popup_features →
              run_graph limit n' (merge state (Update.failure msg)) w0 = (inr st, w') →
              WorkflowState.status st = completed → False).
    { intros n' Hn' Hrun Hc. eapply failed_run_stays_failed in Hrun; [congruence|done|done]. }
    destruct n; simpl; try done;
      try (intros Hrun Hc; exfalso; eapply Hnext; [|exact Hrun|exact Hc]; auto).
    by intros [= <- <-].
  - specialize (Hyield Herr).
    assert (Hms : WorkflowState.status (merge state u) =
                  match success_status n with
                  | Some status => status
                  | None => WorkflowState.status state
                  end).
    { simpl. rewrite Hstat. by destruct (success_status n). }
    assert (Hurl : WorkflowState.url (merge state u) = WorkflowState.url state) by done.
    assert (Hstep : ∀ n', gathered n' (merge state u) w0 →
              WorkflowState.status (merge state u) ≠ failed →
              run_graph limit n' (merge state u) w0 = (inr st, w') →
              WorkflowState.status st = completed →
              gathered node.complete_task st w' ∧
              WorkflowState.url st = WorkflowState.url state ∧
              WorkflowState.result st = Some (result_of st)).
    { intros n' Hg' Hnf' Hrun Hc.
      destruct (IH n' (merge state u) w0 Hnf' Hg' Hrun Hc) as (? & ? & ?).
      split; [done|]. split; [congruence | done]. }
    destruct n; unfold edge, after_create_task, after_browser_analysis,
      after_feature_generation; rewrite ?Hms; cbn [success_status gathered node_yield] in *.
    + simpl. apply Hstep; [|by rewrite Hms]. cbn [gathered].
      destruct Hyield as [id Hid]. simpl. rewrite Hid. by eexists.
    + rewrite decide_False by done.
      destruct Hyield as (Hid & ps & he & pe & Hps & Hhe & Hpe & Hin).
      apply Hstep; [|by rewrite Hms]. cbn [gathered].
      split; [by apply task_id_kept|].
      exists ps, he, pe. simpl. rewrite Hid, Hps, Hhe, Hpe. done.
    + destruct Hyield as (Hid & Hpf & f & Hf & Hin1 & Hin2).
      destruct Hg as (Hsome & Hd).
      destruct Hdisc as [[? _]|Hdisc]; [done|].
      apply Hstep; [|by rewrite Hms]. cbn [gathered].
      split; [by apply task_id_kept|]. split; [by eapply discovered_kept|].
      exists f. simpl. rewrite Hid, Hf. done.
    + destruct Hyield as (Hid & Hhf' & f & Hf & Hin1 & Hin2).
      destruct Hg as (Hsome & Hd & Hh).
      destruct Hdisc as [[? _]|Hdisc]; [done|].
      rewrite decide_False by done.
      apply Hstep; [|by rewrite Hms]. cbn [gathered].
      split; [by apply task_id_kept|]. split; [by eapply discovered_kept|].
      split; [by eapply hover_written_kept|].
      exists f. simpl. rewrite Hid, Hf. done.
    + destruct Hyield as (Hid & Hpf & Hprog' & Hresult).
      destruct Hg as (Hsome & Hd & Hh & Hp).
      destruct Hdisc as [[? _]|Hdisc]; [done|].
      destruct Hhf as [?|Hhf]; [done|].
      intros [= <- <-] _. cbn [gathered].
      split; [|split; [done|]].
      * split; [by apply task_id_kept|]. split; [by eapply discovered_kept|].
        split; [by eapply hover_written_kept | by eapply popup_written_kept].
      * destruct Hdisc as (Hps & Hhe & Hpe).
        unfold result_of. simpl. rewrite Hresult, Hid, Hps, Hhe, Hpe, Hhf, Hpf. done.
    + intros [= <- <-]. rewrite Hms. done.
Qed.

(** X11. When a run ends with status [completed], a task id was created,
    the discovery result in the state was handed to the store under that id,
    the text of each of the two artifacts in the state was written to the
    output directory and handed to the store under that id, and the final
    result is built from exactly these values of the state. *)
Theorem completed_run_stored_its_artifacts url llm_config browser_config (w : World W K) st w' :
  run_workflow url llm_config browser_config w = (inr st, w') →
  WorkflowState.status st = completed →
  is_Some (WorkflowState.task_id st) ∧
  discovered st w' ∧ hover_written st w' ∧ popup_written st w' ∧
  WorkflowState.url st = url ∧
  WorkflowState.result st = Some (result_of st).
Proof.
  intros Hrun Hc.
  apply completed_from in Hrun as ((? & ? & ? & ?) & ? & ?); done.
Qed.

(** ** Generation without confirmed elements *)

Ltac reliable Hrel Hprov :=
  repeat first
    [ sink_call
    | match goal with
      | |- context [durable_store ?c ?w] =>
          let n := fresh "n" in let w' := fresh "w" in
          destruct (Hrel c w) as (n & w' & ->); tidy
      | |- context [create_provider ?c ?w] =>
          let w' := fresh "w" in
          destruct (Hprov c w) as (w' & ->); tidy
      | |- context [strftime_now ?w] => name_outcome (strftime_now w)
      end ].

Lemma generic_hover_feature state (w : World W K) :
  store_reliable → provider_available →
  elements_or_empty (WorkflowState.hover_elements state) = [] →
  ∃ u w' f, generate_hover_features_node state w = (inr u, w') ∧
    Update.error_message u = None ∧ Update.hover_features u = Some f ∧
    content f = _generate_generic_hover_feature (WorkflowState.url state).
Proof.
  intros Hrel Hprov Hempty.
  unfold generate_hover_features_node, generate_hover_features, create_gherkin_generator,
    save_feature_file, timestamp.
  rewrite Hempty.
  enter w; reliable Hrel Hprov; by eexists _, _, _.
Qed.

Lemma generic_popup_feature state (w : World W K) :
  store_reliable → provider_available →
  elements_or_empty (WorkflowState.popup_elements state) = [] →
  ∃ u w' f, generate_popup_features_node state w = (inr u, w') ∧
    Update.error_message u = None ∧ Update.popup_features u = Some f ∧
    content f = _generate_generic_popup_feature (WorkflowState.url state).
Proof.
  intros Hrel Hprov Hempty.
  unfold generate_popup_features_node, generate_popup_features, create_gherkin_generator,
    save_feature_file, timestamp.
  rewrite Hempty.
  enter w; reliable Hrel Hprov; by eexists _, _, _.
Qed.

(** X14. With a store whose calls go through and a provider that can be
    constructed, a generation step that finds no confirmed elements in the
    state (none, or an empty list) goes through with the generic scenario
    text for the URL, whatever the generator would answer: it is never
    called. *)
Theorem generation_without_elements_is_generic state (w : World W K) :
  store_reliable → provider_available →
  (elements_or_empty (WorkflowState.hover_elements state) = [] →
   ∃ u w' f, generate_hover_features_node state w = (inr u, w') ∧
     Update.error_message u = None ∧ Update.hover_features u = Some f ∧
     content f = _generate_generic_hover_feature (WorkflowState.url state)) ∧
  (elements_or_empty (WorkflowState.popup_elements state) = [] →
   ∃ u w' f, generate_popup_features_node state w = (inr u, w') ∧
     Update.error_message u = None ∧ Update.popup_features u = Some f ∧
     content f = _generate_generic_popup_feature (WorkflowState.url state)).
Proof.
  intros Hrel Hprov. split.
  - by apply generic_hover_feature.
  - by apply generic_popup_feature.
Qed.

(** ** The orchestrator's entry point *)

Ltac store_ok Hrel :=
  repeat first
    [ sink_call
    | match goal with
      | |- context [durable_store ?c ?w] =>
          let n := fresh "n" in let w' := fresh "w" in
          destruct (Hrel c w) as (n & w' & ->); tidy
      end ].

Lemma complete_task_succeeds state (w : World W K) :
  store_reliable →
  ∃ u w', complete_task_node state w = (inr u, w') ∧ Update.result u = Some (result_of state).
Proof.
  intros Hrel. unfold complete_task_node. enter w; store_ok Hrel; by eexists _, _.
Qed.

Lemma end_of_stream n state (w : World W K) u w' :
  store_reliable →
  run_node n state w = (inr u, w') →
  edge n (merge state u) = inr None →
  last_event u.
Proof.
  intros Hrel Hrun Hedge.
  pose proof (run_node_post n state w) as P. rewrite Hrun in P. cbn [fst snd] in P.
  destruct P as (_ & _ & _ & _ & Hres & _ & Hu).
  destruct n; unfold edge, after_create_task, after_browser_analysis,
    after_feature_generation in Hedge; repeat case_decide; try done.
  - destruct (complete_task_succeeds state w Hrel) as (u' & w2 & Hc & Hresult).
    simpl in Hrun. rewrite Hc in Hrun. injection Hrun as -> ->.
    left. by eexists.
  - right. destruct Hu as [(msg & _ & _ & ?)|[Herr Hstat]]; [done|].
    split; [by apply Hres|]. done.
Qed.

Lemma astream_ends limit n state (w : World W K) tid fs :
  store_reliable → (steps_left n ≤ limit)%nat →
  ∃ u w' tid', astream limit n state ((w, tid), fs) = (inr tt, ((w', tid'), Some u)) ∧
    last_event u.
Proof.
  intros Hrel. revert n state w tid fs.
  induction limit as [|limit IH]; intros n state w tid fs Hn.
  { destruct n; simpl in Hn; lia. }
  cbn [astream]. unfold bind at 1. unfold outer at 1 2. cbn [fst snd].
  destruct (run_node_returns n Hrel state w) as (u & w1 & Hrun). rewrite Hrun.
  pose proof (end_of_stream n state w u w1 Hrel Hrun) as Hend.
  unfold bind at 1.
  assert (Hev : ∃ w2 tid2, on_event n u ((w1, tid), fs) = (inr tt, ((w2, tid2), Some u)))
    by (unfold on_event, bind, update_local, outer, logger, in_session, log, ret; simpl;
        destruct (task_truthy (Update.task_id u)); simpl; by eexists _, _).
  destruct Hev as (w2 & tid2 & ->). cbv zeta.
  destruct n; unfold edge, after_create_task, after_browser_analysis,
    after_feature_generation in *; simpl in Hn; repeat case_decide;
    try (apply IH; simpl; lia);
    (eexists _, _, _; split; [reflexivity | by apply Hend]).
Qed.

(** X15. With a store whose calls go through, [generate_tests] either
    returns a final result with status [completed] or raises an exception
    whose message is "Unknown error": the last event of a failed run is the
    dictionary of the error handler, which has no error message.  When a
    task id is known, the last two calls to the store write that report,
    "Error in test generation: Unknown error", to the task row and to the
    task's log. *)
Theorem generate_tests_reports_unknown_error url llm_config browser_config
    (w : World W K) tid r w' tid' :
  store_reliable →
  generate_tests url llm_config browser_config (w, tid) = (r, (w', tid')) →
  match r with
  | inr result => Result.status result = completed
  | inl e =>
      e = "Unknown error" ∧
      (task_truthy tid' = true →
       ∃ calls, store w' = calls ++
         [db.update_task_status tid' failed None None (Some unknown_error_report);
          db.add_log tid' "ERROR" unknown_error_report None])
  end.
Proof.
  intros Hrel. unfold generate_tests, try_except. unfold bind at 1. unfold with_local.
  destruct (astream_ends recursion_limit node.create_task
              (initial_state url llm_config browser_config) w tid None Hrel)
    as (u & w1 & tid1 & -> & Hlast); [simpl; unfold recursion_limit; lia|].
  cbn [fst snd].
  destruct Hlast as [(res & -> & Hres)|(-> & Hst & Herr)].
  - unfold ret. by intros [= <- <- <-].
  - rewrite decide_True by done. rewrite Herr. unfold raise at 1. cbn [default].
    unfold bind, outer, logger, in_session, log, raise; cbn [fst snd].
    destruct (task_truthy tid1) eqn:Htid; cbn [fst snd].
    + unfold db_call, call. tidy.
      match goal with |- context [durable_store ?c ?w] =>
        destruct (Hrel c w) as (n1 & w2 & ->) end. tidy.
      match goal with |- context [durable_store ?c ?w] =>
        destruct (Hrel c w) as (n2 & w3 & ->) end. tidy.
      sink_call. intros [= <- <- <-]. split; [done|]. intros _.
      exists (store w1). simpl. by rewrite <- app_assoc.
    + unfold ret. cbn [fst snd]. intros [= <- <- <-]. split; [done|].
      intros Ht. congruence.
Qed.

(** ** What a run writes first, and what a failed run records *)

Lemma create_task_first state (w : World W K) :
  ∃ rest, store (create_task_node state w).2 =
    store w ++ db.create_task (WorkflowState.url state)
                 (provider (WorkflowState.llm_config state))
                 (model (WorkflowState.llm_config state)) :: rest.
Proof.
  unfold create_task_node.
  enter w; run; simpl; rewrite <- ?app_assoc; simpl; by eexists.
Qed.

(** X21. The first call a run hands to the store creates the task row for
    the URL with the provider and model of the configuration; nothing is
    written before it, whatever happens afterwards. *)
Theorem task_row_is_created_first url llm_config browser_config (w : World W K) :
  ∃ rest, store (run_workflow url llm_config browser_config w).2 =
    store w ++ db.create_task url (provider llm_config) (model llm_config) :: rest.
Proof.
  unfold run_workflow, recursion_limit. rewrite run_graph_unfold. unfold bind at 1.
  destruct (create_task_first (initial_state url llm_config browser_config) w) as [rest Hfirst].
  simpl run_node.
  destruct (create_task_node _ w) as [[e|u] w0]; simpl in Hfirst; [by exists rest|].
  cbv zeta.
  destruct (edge node.create_task _) as [e|[n'|]]; simpl; try by exists rest.
  match goal with |- context [run_graph ?l ?n ?s ?w] =>
    pose proof (store_only_grows l n s w _ _ (surjective_pairing _)) as [more Hmore] end.
  rewrite Hmore, Hfirst, <- app_assoc. simpl. by eexists.
Qed.

Lemma handle_error_records state (w : World W K) :
  task_truthy (WorkflowState.task_id state) = true →
  db.update_task_status (WorkflowState.task_id state) failed None None
    (WorkflowState.error_message state) ∈ store (handle_error_node state w).2.
Proof.
  intros Htid. unfold handle_error_node. rewrite Htid.
  enter w; run; simpl; by stored.
Qed.

Lemma failed_from limit n state (w : World W K) st w' :
  store_reliable →
  run_graph limit n state w = (inr st, w') →
  WorkflowState.status st = failed →
  task_truthy (WorkflowState.task_id st) = true →
  db.update_task_status (WorkflowState.task_id st) failed None None
    (WorkflowState.error_message st) ∈ store w'.
Proof.
  intros Hrel. revert n state w. induction limit as [|limit IH]; intros n state w; [done|].
  graph_step P E. destruct r as [e|u]; [done|].
  destruct (edge n (merge state u)) as [e|[n'|]] eqn:Hedge; [done|apply IH|].
  intros [= <- <-] Hfailed Htid.
  pose proof (run_node_yield n state w) as Hyield. rewrite E in Hyield. cbn [fst snd] in Hyield.
  destruct n; unfold edge, after_create_task, after_browser_analysis,
    after_feature_generation in Hedge; repeat case_decide; try done.
  - destruct (complete_task_succeeds state w Hrel) as (u' & w2 & Hc & Hresult).
    simpl in E. rewrite Hc in E. injection E as -> ->.
    destruct P as (_ & _ & _ & [(msg & -> & _)|[_ Hstat]]); [done|].
    simpl in Hfailed. by rewrite Hstat in Hfailed.
  - destruct P as (_ & _ & _ & [(msg & _ & _ & ?)|[Herr Hstat]]); [done|].
    destruct (Hyield Herr) as [Hid _].
    assert (Hsame : WorkflowState.task_id (merge state u) = WorkflowState.task_id state ∧
                    WorkflowState.error_message (merge state u) =
                    WorkflowState.error_message state).
    { simpl. by rewrite Hid, Herr. }
    destruct Hsame as [Hsid Hserr]. rewrite Hsid in Htid |- *. rewrite Hserr.
    pose proof (handle_error_records state w Htid) as Hrec.
    simpl in E. by rewrite E in Hrec.
Qed.

(** X22. With a store whose calls go through, a run that ends with status
    [failed] and a task id that counts as set has handed its error message,
    which is not empty, to the store with status [failed] for that task; the
    state holds no final result. *)
Theorem failed_run_is_recorded url llm_config browser_config (w : World W K) st w' :
  store_reliable →
  run_workflow url llm_config browser_config w = (inr st, w') →
  WorkflowState.status st = failed →
  task_truthy (WorkflowState.task_id st) = true →
  (∃ msg, WorkflowState.error_message st = Some msg ∧ msg ≠ EmptyString ∧
     db.update_task_status (WorkflowState.task_id st) failed None None (Some msg) ∈ store w') ∧
  WorkflowState.result st = None.
Proof.
  intros Hrel Hrun Hfailed Htid.
  pose proof (failed_from _ _ _ _ _ _ Hrel Hrun Hfailed Htid) as Hrec.
  eapply run_graph_ends in Hrun as [(Hc & _)|[[_ (msg & Hmsg & Hne)] Hres]]; [congruence| |by split].
  split; [|done]. exists msg. by rewrite <- Hmsg.
Qed.

End PipelineFacts.

(** ** What the static scans return *)




(** One visit of the hover scan: an eligible element with a new locator is
    emitted, anything else leaves the state as it is. *)
Lemma hover_visit_cases sheets emitted seen l :
  (hover_visit sheets (emitted, seen) l = (emitted, seen) ∧
   (hover_eligible sheets l = false ∨ getXPath l ∈ seen)) ∨
  (∃ c, hover_visit sheets (emitted, seen) l = (emitted ++ [c], {[getXPath l]} ∪ seen) ∧
        hover_eligible sheets l = true ∧ (getXPath l ∉ seen) ∧
        Hover.xpath c = getXPath l ∧
        Hover.tag c = toLowerCase (nodeName (element l)) ∧
        Hover.text c = substring0 100 (hover_text (element l))).
Proof.
  unfold hover_visit, hover_eligible.
  destruct (isVisible (element l)); simpl; [|left; by split; [|left]].
  destruct (String.eqb (hover_text (element l)) EmptyString &&
            negb (String.eqb (toLowerCase (nodeName (element l))) "img") &&
            negb (String.eqb (toLowerCase (nodeName (element l))) "svg")); simpl;
    [left; by split; [|left]|].
  destruct (200 <? String.length (hover_text (element l)))%nat; simpl;
    [left; by split; [|left]|].
  destruct (hasHoverBehavior sheets l); simpl; [|left; by split; [|left]].
  destruct (bool_decide (getXPath l ∈ seen)) eqn:Hseen.
  - left. split; [done|]. right. by apply bool_decide_eq_true in Hseen.
  - right. eexists. split; [reflexivity|]. apply bool_decide_eq_false in Hseen. done.
Qed.


Lemma hover_fold_complete sheets (ls : list Loc) (st : list Hover.Candidate * gset string) :
  st.2 ≡ list_to_set (Hover.xpath <$> st.1) →
  (foldl (hover_visit sheets) st ls).2 ≡
    list_to_set (Hover.xpath <$> (foldl (hover_visit sheets) st ls).1) ∧
  st.2 ⊆ (foldl (hover_visit sheets) st ls).2 ∧
  ∀ l, l ∈ ls → hover_eligible sheets l = true →
       getXPath l ∈ (foldl (hover_visit sheets) st ls).2.
Proof.
  revert st. induction ls as [|l ls IH]; intros [emitted seen] Hseen; cbn [foldl].
  { split; [done|]. split; [done|]. intros l Hl. by apply elem_of_nil in Hl. }
  destruct (hover_visit_cases sheets emitted seen l)
    as [[Hv Hskip]|(c & Hv & He & Hn & Hx & _)]; rewrite Hv.
  - destruct (IH (emitted, seen) Hseen) as (Hs' & Hsub & Hall).
    split; [done|]. split; [done|].
    intros l' [->|Hl']%elem_of_cons Hel; [|by apply Hall].
    apply Hsub. simpl. destruct Hskip; [congruence | done].
  - destruct (IH (emitted ++ [c], {[getXPath l]} ∪ seen)) as (Hs' & Hsub & Hall).
    { cbn [fst snd] in *. rewrite fmap_app, list_to_set_app. simpl. rewrite Hx. set_solver. }
    split; [done|]. split; [set_solver|].
    intros l' [->|Hl']%elem_of_cons Hel; [|by apply Hall].
    apply Hsub. simpl. set_solver.
Qed.

(** X2. When the hover scan returns fewer than 50 candidates, no element was
    cut off: the locator of every element the scan accepts is the locator of
    a returned candidate. *)
Theorem hover_scan_complete_below_cap (d : Document) (l : Loc) :
  (length (dynamic_hover_detection d) < 50)%nat →
  l ∈ all_elements d →
  hover_eligible (styleSheets d) l = true →
  getXPath l ∈ Hover.xpath <$> dynamic_hover_detection d.
Proof.
  unfold dynamic_hover_detection. intros Hlen Hl He.
  destruct (hover_fold_complete (styleSheets d) (all_elements d) ([], ∅)) as (Hs & _ & Hall);
    [done|].
  set (st := foldl (hover_visit (styleSheets d)) ([], ∅) (all_elements d)) in *.
  rewrite length_take in Hlen.
  rewrite take_ge by lia.
  specialize (Hall l Hl He). rewrite Hs in Hall. by apply elem_of_list_to_set in Hall.
Qed.

(** One visit of the popup scan. *)
Lemma popup_visit_cases triggers seen l :
  (popup_visit (triggers, seen) l = (triggers, seen) ∧
   (popup_eligible l = false ∨ getXPath l ∈ seen)) ∨
  (∃ c, popup_visit (triggers, seen) l = (triggers ++ [c], {[getXPath l]} ∪ seen) ∧
        popup_eligible l = true ∧ (getXPath l ∉ seen) ∧
        Popup.xpath c = getXPath l ∧
        Popup.tag c = toLowerCase (nodeName (element l)) ∧
        Popup.text c = popup_text (element l)).
Proof.
  unfold popup_visit, popup_eligible.
  destruct (isVisible_popup (element l)); simpl; [|left; by split; [|left]].
  destruct (String.eqb (popup_text (element l)) EmptyString ||
            (100 <? String.length (popup_text (element l)))%nat) eqn:Htext; simpl;
    [left; by split; [|left]|].
  destruct (mightTriggerPopup (element l)); simpl; [|left; by split; [|left]].
  destruct (bool_decide (getXPath l ∈ seen)) eqn:Hseen.
  - left. split; [done|]. right. by apply bool_decide_eq_true in Hseen.
  - right. eexists. split; [reflexivity|]. apply bool_decide_eq_false in Hseen.
    repeat split; try done. simpl.
    apply orb_false_iff in Htext as [_ Hlen]. apply Nat.ltb_ge in Hlen.
    unfold substring0. revert Hlen. generalize (popup_text (element l)) 100%nat.
    intros s. induction s as [|ch s IH]; intros [|n] Hlen; simpl in *; try done; try lia.
    f_equal. apply IH. lia.
Qed.

Lemma popup_fold_complete (ls : list Loc) (st : list Popup.Trigger * gset string) :
  st.2 ≡ list_to_set (Popup.xpath <$> st.1) →
  (foldl popup_visit st ls).2 ≡ list_to_set (Popup.xpath <$> (foldl popup_visit st ls).1) ∧
  st.2 ⊆ (foldl popup_visit st ls).2 ∧
  ∀ l, l ∈ ls → popup_eligible l = true → getXPath l ∈ (foldl popup_visit st ls).2.
Proof.
  revert st. induction ls as [|l ls IH]; intros [triggers seen] Hseen; cbn [foldl].
  { split; [done|]. split; [done|]. intros l Hl. by apply elem_of_nil in Hl. }
  destruct (popup_visit_cases triggers seen l)
    as [[Hv Hskip]|(c & Hv & He & Hn & Hx & _)]; rewrite Hv.
  - destruct (IH (triggers, seen) Hseen) as (Hs' & Hsub & Hall).
    split; [done|]. split; [done|].
    intros l' [->|Hl']%elem_of_cons Hel; [|by apply Hall].
    apply Hsub. simpl. destruct Hskip; [congruence | done].
  - destruct (IH (triggers ++ [c], {[getXPath l]} ∪ seen)) as (Hs' & Hsub & Hall).
    { cbn [fst snd] in *. rewrite fmap_app, list_to_set_app. simpl. rewrite Hx. set_solver. }
    split; [done|]. split; [set_solver|].
    intros l' [->|Hl']%elem_of_cons Hel; [|by apply Hall].
    apply Hsub. simpl. set_solver.
Qed.


(** X4. When the popup scan returns fewer than 30 triggers, the locator of
    every clickable element the scan accepts is the locator of a returned
    trigger. *)
Theorem popup_scan_complete_below_cap (d : Document) (l : Loc) :
  (length (dynamic_popup_detection d) < 30)%nat →
  l ∈ clickables d →
  popup_eligible l = true →
  getXPath l ∈ Popup.xpath <$> dynamic_popup_detection d.
Proof.
  unfold dynamic_popup_detection. intros Hlen Hl He.
  destruct (popup_fold_complete (clickables d) ([], ∅)) as (Hs & _ & Hall); [done|].
  set (st := foldl popup_visit ([], ∅) (clickables d)) in *.
  rewrite length_take in Hlen.
  rewrite take_ge by lia.
  specialize (Hall l Hl He). rewrite Hs in Hall. by apply elem_of_list_to_set in Hall.
Qed.

(** ** Modal counting and modal descriptions *)

Lemma foldl_count {A} (p : A → bool) (ls : list A) (c : nat) :
  foldl (λ count l, if p l then S count else count) c ls =
  (c + length (filter (λ l, p l = true) ls))%nat.
Proof.
  revert c. induction ls as [|l ls IH]; intros c; simpl; [lia|].
  rewrite IH. destruct (p l) eqn:Hp.
  - rewrite filter_cons_True by done. simpl. lia.
  - rewrite filter_cons_False by congruence. done.
Qed.

Lemma foldl_push_length {A B} (q : A → bool) (f : A → B) (ls : list A) (acc : list B) :
  length (foldl (λ acc l, if q l then acc ++ [f l] else acc) acc ls) =
  (length acc + length (filter (λ l, q l = true) ls))%nat.
Proof.
  revert acc. induction ls as [|l ls IH]; intros acc; simpl; [lia|].
  rewrite IH. destruct (q l) eqn:Hq.
  - rewrite filter_cons_True by done. rewrite length_app. simpl. lia.
  - rewrite filter_cons_False by congruence. done.
Qed.

Lemma filter_length_mono {A} (q p : A → bool) (ls : list A) :
  (∀ a, q a = true → p a = true) →
  (length (filter (λ a, q a = true) ls) ≤ length (filter (λ a, p a = true) ls))%nat.
Proof.
  intros Hqp. induction ls as [|a ls IH]; [done|].
  destruct (q a) eqn:Hq.
  - rewrite !filter_cons_True by auto. simpl. lia.
  - rewrite (filter_cons_False (λ a, q a = true)) by congruence.
    destruct (p a) eqn:Hp.
    + rewrite filter_cons_True by done. simpl. lia.
    + rewrite filter_cons_False by congruence. done.
Qed.

Lemma modal_sized_visible (e : Element) : modal_sized e = true → isVisible_popup e = true.
Proof.
  unfold modal_sized, isVisible_popup, Qgt100, Qpos.
  destruct (negb (String.eqb (display (computedStyle e)) "none")); [|done].
  destruct (negb (String.eqb (visibility (computedStyle e)) "hidden")); [|done].
  rewrite !andb_true_l, !andb_true_r.
  destruct (Qlt_le_dec 100 (rect_width (boundingClientRect e))) as [Hw|]; [|done].
  destruct (Qlt_le_dec 100 (rect_height (boundingClientRect e))) as [Hh|]; [|done].
  intros _.
  destruct (Qlt_le_dec 0 (rect_width (boundingClientRect e))) as [|Hw0].
  - destruct (Qlt_le_dec 0 (rect_height (boundingClientRect e))) as [|Hh0]; [done|].
    exfalso. apply (Qlt_irrefl 100). eapply Qlt_le_trans; [exact Hh|].
    eapply Qle_trans; [exact Hh0|]. done.
  - exfalso. apply (Qlt_irrefl 100). eapply Qlt_le_trans; [exact Hw|].
    eapply Qle_trans; [exact Hw0|]. done.
Qed.

(** X5. On one document, the script of [_get_modal_details] describes at
    most as many modals as the script of [_count_modals] counts: a described
    modal is larger than 100 by 100 and matches one of the first five
    selectors, so it is counted as well.  A description list that is not
    empty comes with a positive count. *)
Theorem described_modals_are_counted (d : Document) :
  (length (modal_details_script d) ≤ count_modals_script d)%nat ∧
  (modal_details_script d ≠ [] → (0 < count_modals_script d)%nat).
Proof.
  assert (Hle : (length (modal_details_script d) ≤ count_modals_script d)%nat).
  { unfold modal_details_script, count_modals_script, detail_selectors, modal_selectors.
    cbn [foldl].
    rewrite !(foldl_count (λ l, isVisible_popup (element l))).
    rewrite !(foldl_push_length (λ l, modal_sized (element l))).
    pose proof (λ ls, filter_length_mono (λ l : Loc, modal_sized (element l))
                        (λ l, isVisible_popup (element l)) ls
                        (λ l, modal_sized_visible (element l))) as Hmono.
    pose proof (Hmono (querySelectorAll [SelAttrEq "role" "dialog"] d)).
    pose proof (Hmono (querySelectorAll [SelClass "modal"] d)).
    pose proof (Hmono (querySelectorAll [SelClass "popup"] d)).
    pose proof (Hmono (querySelectorAll [SelAttrSub "class" "modal"] d)).
    pose proof (Hmono (querySelectorAll [SelAttrSub "class" "popup"] d)).
    simpl length. lia. }
  split; [done|]. intros Hne.
  destruct (modal_details_script d); [done|]. simpl in Hle. lia.
Qed.

(** ** The probing loops: what a round can add *)

Lemma for_each_appends {S X C Y} (proj : C → Y) (g : X → Y) (xs : list X)
    (body : X → M (S * list C) unit) :
  (∀ x s l, ∃ cs, (body x (s, l)).2.2 = l ++ cs ∧ (cs = [] ∨ ∃ c, cs = [c] ∧ proj c = g x)) →
  ∀ s l, ∃ cs, (for_each xs body (s, l)).2.2 = l ++ cs ∧ proj <$> cs `sublist_of` g <$> xs.
Proof.
  intros Hbody. induction xs as [|x xs IH]; intros s l.
  { exists []. split; [by rewrite app_nil_r | done]. }
  simpl. unfold bind.
  destruct (Hbody x s l) as (cs1 & Hl1 & Hcs1).
  destruct (body x (s, l)) as [[e|[]] [s1 l1]] eqn:Hb; simpl in Hl1; subst l1.
  - exists cs1. split; [done|].
    destruct Hcs1 as [->|(c & -> & Hc)]; simpl; [apply sublist_nil_l|].
    rewrite Hc. apply sublist_skip, sublist_nil_l.
  - destruct (IH s1 (l ++ cs1)) as (cs2 & Hl2 & Hsub).
    exists (cs1 ++ cs2). split; [by rewrite Hl2, app_assoc|].
    destruct Hcs1 as [->|(c & -> & Hc)]; simpl.
    + by apply sublist_cons.
    + rewrite Hc. by apply sublist_skip.
Qed.

Lemma snd_enumerate {X} (xs : list X) : snd <$> enumerate xs = xs.
Proof. unfold enumerate. apply snd_zip. by rewrite length_seq. Qed.

Lemma dynamic_hover_detection_NoDup (d : Document) :
  NoDup (Hover.xpath <$> dynamic_hover_detection d).
Proof.
  unfold dynamic_hover_detection. apply NoDup_fmap_take.
  apply (foldl_preserves (scan_inv Hover.xpath)); [|apply scan_inv_empty].
  intros st l. apply hover_visit_inv.
Qed.

Lemma dynamic_popup_detection_NoDup (d : Document) :
  NoDup (Popup.xpath <$> dynamic_popup_detection d).
Proof.
  unfold dynamic_popup_detection. apply NoDup_fmap_take.
  apply (foldl_preserves (scan_inv Popup.xpath)); [|apply scan_inv_empty].
  intros st l. apply popup_visit_inv.
Qed.

Section LoopFacts.
Context {W : Type} `{Playwright W}.

Ltac captured :=
  match goal with
  | |- context [_capture_page_state ?s] =>
      let snap := fresh "snap" in let s' := fresh "s" in
      destruct (capture_page_state_returns s) as (snap & s' & ->); simpl
  | |- context [_count_modals ?s] =>
      let n := fresh "n" in let s' := fresh "s" in
      destruct (count_modals_returns s) as (n & s' & ->); simpl
  | |- context [_get_modal_details ?s] =>
      let ds := fresh "ds" in let s' := fresh "s" in
      destruct (get_modal_details_returns s) as (ds & s' & ->); simpl
  | |- context [_close_any_modal ?s] =>
      let s' := fresh "s" in
      destruct (close_any_modal_returns s) as ([] & s' & ->); simpl
  end.

(** A round of the hover loop returns normally and leaves the confirmed list
    as it was or with one entry for its candidate appended. *)
Lemma hover_probe_appends i elem_info (s : Session W) confirmed :
  ∃ s' cs, hover_probe i elem_info (s, confirmed) = (inr tt, (s', confirmed ++ cs)) ∧
    (cs = [] ∨ ∃ before after,
       _has_content_changed before after = true ∧
       cs = [confirmed_hover elem_info before after]).
Proof.
  unfold hover_probe, try_except, bind, outer, call, sleep, update_local, log, ret. simpl.
  destruct (page_query_selector _ _) as [[e|[element|]] w1]; simpl;
    try (eexists _, []; rewrite app_nil_r; split; [reflexivity | by left]).
  captured.
  destruct (element_hover _ _) as [[e|[]] w3]; simpl;
    try (eexists _, []; rewrite app_nil_r; split; [reflexivity | by left]).
  captured.
  destruct (_has_content_changed snap snap0) eqn:Hchanged; simpl.
  - destruct (mouse_move _ _ _) as [[e|[]] w5]; simpl;
      (eexists _, [_]; split; [reflexivity | right; by exists snap, snap0]).
  - destruct (mouse_move _ _ _) as [[e|[]] w5]; simpl;
      (eexists _, []; rewrite app_nil_r; split; [reflexivity | by left]).
Qed.

Lemma popup_probe_appends i trigger_info (s : Session W) confirmed :
  ∃ s' cs, popup_probe i trigger_info (s, confirmed) = (inr tt, (s', confirmed ++ cs)) ∧
    (cs = [] ∨ ∃ modal_details, cs = [confirmed_popup trigger_info modal_details]).
Proof.
  unfold popup_probe, try_except, bind, outer, call, sleep, update_local, log, ret. simpl.
  destruct (page_query_selector _ _) as [[e|[element|]] w1]; simpl;
    repeat captured;
    try (eexists _, []; rewrite app_nil_r; split; [reflexivity | by left]).
  destruct (element_click _ _) as [[e|[]] w3]; simpl;
    repeat captured;
    try (eexists _, []; rewrite app_nil_r; split; [reflexivity | by left]).
  destruct (_ || _); simpl; repeat captured.
  - eexists _, [_]. split; [reflexivity | right; by eexists].
  - eexists _, []. rewrite app_nil_r. split; [reflexivity | by left].
Qed.

(** X6. [analyze_hover_elements] returns normally from every session.  The
    confirmed elements are at most [MAX_HOVER_ELEMENTS] (20), all are marked
    confirmed, their locators are pairwise different, and they are, in the
    scan's order, among the first 20 candidates of the scan of the document
    the page was in; when the scan itself raises, the list is empty. *)
Theorem confirmed_hover_elements_bounded (s : Session W) :
  ∃ confirmed s', analyze_hover_elements s = (inr confirmed, s') ∧
    (length confirmed ≤ config.MAX_HOVER_ELEMENTS)%nat ∧
    NoDup (Hover.xpath <$> (Confirmed.elem_info <$> confirmed)) ∧
    Forall (λ c, Confirmed.hover_confirmed c = true) confirmed ∧
    (∀ e w, page_evaluate (world s) = (inl e, w) → confirmed = []) ∧
    (∀ d w, page_evaluate (world s) = (inr d, w) →
       Confirmed.elem_info <$> confirmed `sublist_of`
         take config.MAX_HOVER_ELEMENTS (dynamic_hover_detection d)).
Proof.
  unfold analyze_hover_elements, evaluate.
  unfold try_except, bind, log, with_local, ret, call, raise. simpl.
  destruct (page_evaluate (world s)) as [[e|d] w1] eqn:Heval; simpl.
  { eexists [], _. split; [done|]. simpl. repeat split; try done; try lia; constructor. }
  match goal with |- context [for_each ?xs ?body ?sl] =>
    assert (Hret : returns (for_each xs body));
    [|destruct (for_each_appends (λ c, (Confirmed.elem_info c, Confirmed.hover_confirmed c))
                  (λ ie : nat * Hover.Candidate, (ie.2, true)) xs body) with (s := sl.1) (l := sl.2)
        as (cs & Hcs & Hsub);
      [|cbn [fst snd] in Hcs;
        destruct (Hret sl) as ([] & [s2 l2] & Hrun); rewrite Hrun in Hcs |- *] ]
  end.
  { apply returns_for_each. intros [i c]. apply hover_probe_returns. }
  { intros [i c] s0 l. simpl.
    destruct (hover_probe_appends i c s0 l) as (s' & cs & -> & Hcs). exists cs.
    split; [done|]. destruct Hcs as [->|(b & a & _ & ->)]; [by left|right]. by eexists. }
  simpl in Hcs. subst l2. simpl.
  eexists _, _. split; [done|].
  assert (Hinfo : Confirmed.elem_info <$> cs `sublist_of`
                  take config.MAX_HOVER_ELEMENTS (dynamic_hover_detection d)).
  { apply (fmap_sublist fst) in Hsub. rewrite <- !list_fmap_compose in Hsub.
    change (Confirmed.elem_info <$> cs `sublist_of`
            snd <$> enumerate (take config.MAX_HOVER_ELEMENTS (dynamic_hover_detection d)))
      in Hsub.
    by rewrite snd_enumerate in Hsub. }
  split; [|split; [|split; [|split]]].
  - apply sublist_length in Hinfo. rewrite length_fmap, length_take in Hinfo. lia.
  - eapply sublist_NoDup; [|by apply fmap_sublist].
    apply (sublist_NoDup _ (Hover.xpath <$> dynamic_hover_detection d));
      [apply dynamic_hover_detection_NoDup|].
    apply fmap_sublist, sublist_take.
  - apply (fmap_sublist snd) in Hsub. rewrite <- !list_fmap_compose in Hsub.
    apply Forall_forall. intros c Hc.
    assert (Hin : Confirmed.hover_confirmed c ∈ Confirmed.hover_confirmed <$> cs)
      by by apply list_elem_of_fmap_2.
    eapply elem_of_sublist in Hin; [|exact Hsub].
    apply list_elem_of_fmap in Hin as (? & -> & _). done.
  - done.
  - by intros d' w' [= <- _].
Qed.

(** X7. [analyze_popup_elements] returns normally from every session.  The
    confirmed triggers are at most [MAX_POPUP_ELEMENTS] (10), all are marked
    confirmed, their locators are pairwise different, and they are, in the
    scan's order, among the first 10 triggers of the scan. *)
Theorem confirmed_popup_triggers_bounded (s : Session W) :
  ∃ confirmed s', analyze_popup_elements s = (inr confirmed, s') ∧
    (length confirmed ≤ config.MAX_POPUP_ELEMENTS)%nat ∧
    NoDup (Popup.xpath <$> (Confirmed.trigger_info <$> confirmed)) ∧
    Forall (λ c, Confirmed.popup_confirmed c = true) confirmed ∧
    (∀ handles w1 d w2,
       page_query_selector_all popup_prefilter (world s) = (inr handles, w1) →
       page_evaluate w1 = (inr d, w2) →
       Confirmed.trigger_info <$> confirmed `sublist_of`
         take config.MAX_POPUP_ELEMENTS (dynamic_popup_detection d)).
Proof.
  unfold analyze_popup_elements, evaluate.
  unfold try_except, bind, log, with_local, ret, call, raise. simpl.
  destruct (page_query_selector_all popup_prefilter (world s)) as [[e|handles] w1] eqn:Hall;
    simpl.
  { eexists [], _. split; [done|]. simpl. repeat split; try done; try lia; constructor. }
  destruct (page_evaluate w1) as [[e|d] w2] eqn:Heval; simpl.
  { eexists [], _. split; [done|]. simpl. repeat split; try done; try lia; try constructor.
    intros ???? [= <- <-]. by rewrite Heval. }
  match goal with |- context [for_each ?xs ?body ?sl] =>
    assert (Hret : returns (for_each xs body));
    [|destruct (for_each_appends (λ c, (Confirmed.trigger_info c, Confirmed.popup_confirmed c))
                  (λ it : nat * Popup.Trigger, (it.2, true)) xs body) with (s := sl.1) (l := sl.2)
        as (cs & Hcs & Hsub);
      [|cbn [fst snd] in Hcs;
        destruct (Hret sl) as ([] & [s2 l2] & Hrun); rewrite Hrun in Hcs |- *] ]
  end.
  { apply returns_for_each. intros [i c]. apply popup_probe_returns. }
  { intros [i c] s0 l. simpl.
    destruct (popup_probe_appends i c s0 l) as (s' & cs & -> & Hcs). exists cs.
    split; [done|]. destruct Hcs as [->|(ds & ->)]; [by left|right]. by eexists. }
  simpl in Hcs. subst l2. simpl.
  eexists _, _. split; [done|].
  assert (Hinfo : Confirmed.trigger_info <$> cs `sublist_of`
                  take config.MAX_POPUP_ELEMENTS (dynamic_popup_detection d)).
  { apply (fmap_sublist fst) in Hsub. rewrite <- !list_fmap_compose in Hsub.
    change (Confirmed.trigger_info <$> cs `sublist_of`
            snd <$> enumerate (take config.MAX_POPUP_ELEMENTS (dynamic_popup_detection d)))
      in Hsub.
    by rewrite snd_enumerate in Hsub. }
  split; [|split; [|split]].
  - apply sublist_length in Hinfo. rewrite length_fmap, length_take in Hinfo. lia.
  - eapply sublist_NoDup; [|by apply fmap_sublist].
    apply (sublist_NoDup _ (Popup.xpath <$> dynamic_popup_detection d));
      [apply dynamic_popup_detection_NoDup|].
    apply fmap_sublist, sublist_take.
  - apply (fmap_sublist snd) in Hsub. rewrite <- !list_fmap_compose in Hsub.
    apply Forall_forall. intros c Hc.
    assert (Hin : Confirmed.popup_confirmed c ∈ Confirmed.popup_confirmed <$> cs)
      by by apply list_elem_of_fmap_2.
    eapply elem_of_sublist in Hin; [|exact Hsub].
    apply list_elem_of_fmap in Hin as (? & -> & _). done.
  - intros ???? [= <- <-]. rewrite Heval. by intros [= <- _].
Qed.

End LoopFacts.

(** ** A capture that fails *)

Section CaptureFacts.
Context {W : Type} `{Playwright W}.

Lemma capture_page_state_fallback (s : Session W) e w :
  page_evaluate (world s) = (inl e, w) →
  _capture_page_state s = (inr empty_snapshot, {| world := w; logged := logged s |}).
Proof.
  intros Heval. unfold _capture_page_state, try_except, evaluate, bind, call. by rewrite Heval.
Qed.

Lemma capture_page_state_of (s : Session W) d w snapshot :
  page_evaluate (world s) = (inr d, w) → capture_script d = inr snapshot →
  _capture_page_state s = (inr snapshot, {| world := w; logged := logged s |}).
Proof.
  intros Heval Hscript.
  unfold _capture_page_state, try_except, evaluate, bind, call, ret. rewrite Heval. simpl.
  by rewrite Hscript.
Qed.

(** X23. In a round of the hover loop where the capture before the hover
    raises, the fallback snapshot is empty with markup length 0; when the
    capture after the hover then sees any visible interactive element or a
    markup that is not empty, the candidate is confirmed, whatever the hover
    did to the page. *)
Theorem failed_capture_confirms_hover i elem_info (s : Session W) confirmed element
    w1 e w2 w3 d w4 after :
  page_query_selector ("xpath=" +:+ Hover.xpath elem_info) (world s) = (inr (Some element), w1) →
  page_evaluate w1 = (inl e, w2) →
  element_hover element w2 = (inr tt, w3) →
  page_evaluate (asyncio_sleep config.HOVER_DELAY_MS w3) = (inr d, w4) →
  capture_script d = inr after →
  Snapshot.visible_elements after ≠ [] ∨ Snapshot.html_length after ≠ 0%nat →
  (hover_probe i elem_info (s, confirmed)).2.2 =
    confirmed ++ [confirmed_hover elem_info empty_snapshot after].
Proof.
  intros Hq Hbefore Hhover Hafter Hscript Hsome.
  rewrite (hover_probe_decides i elem_info s confirmed element w1 empty_snapshot
             {| world := w2; logged := logged s |} w3 after
             {| world := w4; logged := logged s |}); try done.
  - unfold _has_content_changed. simpl.
    destruct (Snapshot.visible_elements after) as [|v vs]; [|done]. simpl.
    destruct Hsome as [?|Hlen]; [done|].
    destruct (Nat.eqb_spec (Snapshot.html_length after) 0); done.
  - by apply (capture_page_state_fallback {| world := w1; logged := logged s |} e).
  - by apply (capture_page_state_of
                {| world := asyncio_sleep config.HOVER_DELAY_MS w3; logged := logged s |} d).
Qed.

End CaptureFacts.

(** ** The hover prompt of an analysis result *)

Lemma collect_returns {A B} (f : A → exn + B) (l : list A) :
  Forall (λ a, ∃ b, f a = inr b) l → ∃ bs, collect f l = inr bs ∧ length bs = length l.
Proof.
  induction 1 as [|a l [b Hb] _ [bs [IH Hlen]]]; simpl; [by exists []|].
  rewrite Hb, IH. exists (b :: bs). simpl. by rewrite Hlen.
Qed.

Section PromptFacts.
Context {W : Type} `{Playwright W}.

(** X24. The hover prompt can always be built from what
    [analyze_hover_elements] returns and a page structure: every revealed
    element of a confirmed entry has a text, so no slice of a missing text is
    taken, and the prompt has one entry for each confirmed element. *)
Theorem hover_prompt_is_built (s : Session W) :
  ∃ confirmed s', analyze_hover_elements s = (inr confirmed, s') ∧
    ∀ url page_structure,
    ∃ title hover_info,
      _create_hover_prompt url confirmed (Some page_structure) =
        inr (HoverPrompt url title hover_info) ∧
      length hover_info = length confirmed.
Proof.
  destruct (analyze_hover_elements_returns s) as (confirmed & s' & Hrun).
  exists confirmed, s'. split; [done|]. intros url page_structure.
  pose proof (analyze_hover_elements_entries s s' confirmed Hrun) as Hentries.
  unfold _create_hover_prompt.
  match goal with |- context [collect ?f confirmed] =>
    destruct (collect_returns f confirmed) as (hover_info & -> & Hlen) end.
  - eapply Forall_impl; [exact Hentries|]. intros c (before & after & _ & ->). simpl.
    destruct (collect_returns (λ r, slice_text 30 (Snapshot.text r))
                (_get_revealed_elements before after)) as (texts & -> & _); [|by eexists].
    apply Forall_forall. intros r Hr.
    destruct (revealed_elements_spec before after) as [_ Hspec].
    destruct (Hspec r Hr) as (_ & Htext & _).
    destruct (Snapshot.text r) as [t|]; [by eexists | done].
  - destruct page_structure as [|ps]; simpl; by eexists _, _.
Qed.

End PromptFacts.

(** ** The synchronous entry point *)

Section EntryFacts.
Context {W : Type} `{Playwright W}.

(** X8. [run_browser_analysis] raises exactly when the browser cannot be
    started, with the exception of the start and after logging it; once the
    browser is started the function returns an analysis, whatever the page
    does, and the session it leaves is the one [close] left. *)
Theorem run_browser_analysis_raises_only_at_launch url browser_config (s : Session W) :
  let config := default default_browser_config browser_config in
  (∀ e w1, chromium_launch config (world s) = (inl e, w1) →
     run_browser_analysis url browser_config s =
       (inl e, {| world := w1;
                  logged := logged s ++
                    [{| levelname := "ERROR";
                        message := "Failed to initialize browser: " +:+ e |}] |})) ∧
  (∀ w1, chromium_launch config (world s) = (inr tt, w1) →
     ∃ analysis s', run_browser_analysis url browser_config s = (inr analysis, s') ∧
       ∃ s0, (close s0).2 = s').
Proof.
  intros config. unfold run_browser_analysis. fold config. split.
  - intros e w1 Hlaunch.
    unfold initialize, try_except, bind, call, log, raise, ret. simpl. by rewrite Hlaunch.
  - intros w1 Hlaunch.
    unfold initialize at 1. unfold try_except at 1. unfold bind at 1 2. unfold call at 1.
    rewrite Hlaunch. simpl. unfold bind at 1.
    match goal with |- context [navigate_to_url url ?s1] =>
      destruct (navigate_to_url_returns url s1) as (loaded & s2 & ->) end.
    destruct loaded.
    + unfold bind at 1.
      destruct (analyze_hover_elements_returns s2) as (hs & s3 & ->).
      unfold bind at 1.
      destruct (analyze_popup_elements_returns s3) as (ps & s4 & ->).
      unfold bind at 1.
      destruct (get_page_structure_returns s4) as (st & s5 & ->).
      unfold ret. destruct (close_returns s5) as ([] & s6 & Hclose). rewrite Hclose.
      eexists _, _. split; [done|]. exists s5. by rewrite Hclose.
    + unfold ret. destruct (close_returns s2) as ([] & s6 & Hclose). rewrite Hclose.
      eexists _, _. split; [done|]. exists s2. by rewrite Hclose.
Qed.

(** X9. When the browser starts and navigation fails, [run_browser_analysis]
    returns the empty analysis: no hover elements, no popup elements and an
    empty page structure. *)
Theorem run_browser_analysis_without_page url browser_config (s : Session W) w1 :
  navigation_fails →
  chromium_launch (default default_browser_config browser_config) (world s) = (inr tt, w1) →
  ∃ s', run_browser_analysis url browser_config s =
          (inr {| Analysis.hover_elements := []; Analysis.popup_elements := [];
                  Analysis.page_structure := EmptyDict |}, s').
Proof.
  intros Hnav Hlaunch. unfold run_browser_analysis.
  unfold initialize at 1. unfold try_except at 1. unfold bind at 1 2. unfold call at 1.
  rewrite Hlaunch. simpl. unfold bind at 1.
  match goal with |- context [navigate_to_url url ?s1] =>
    destruct (navigate_to_url_fails url s1 Hnav) as (s2 & ->) end.
  unfold ret. destruct (close_returns s2) as ([] & s6 & ->). by eexists.
Qed.

End EntryFacts.

(** ** Stripping white space *)











(** ** Cleaning a generated text *)





(** ** The progress sink of the web application *)

Section ConnectionFacts.
Context {WebSocket Net Message : Type}.
Variable send_json : WebSocket → Message → Net → (exn + unit) * Net.

(** X17. [ConnectionManager.send_update] returns normally whatever the
    delivery does.  It leaves the connections of all other tasks as they
    were; the connection of the task itself is kept or removed; without a
    connection for the task nothing happens at all. *)
Theorem send_update_never_raises task_id message (m : Manager WebSocket Net) :
  ∃ m', send_update send_json task_id message m = (inr tt, m') ∧
    (∀ other, other ≠ task_id →
       active_connections m' !! other = active_connections m !! other) ∧
    (active_connections m' !! task_id = active_connections m !! task_id ∨
     active_connections m' !! task_id = None) ∧
    (active_connections m !! task_id = None → m' = m).
Proof.
  unfold send_update. destruct (active_connections m !! task_id) as [websocket|] eqn:Hconn.
  - unfold try_except, on_network.
    destruct (send_json websocket message (network m)) as [[e|[]] net] eqn:Hsend.
    + unfold bind, manager_log, disconnect. simpl. rewrite Hconn. simpl.
      eexists. split; [reflexivity|]. simpl. split; [|split; [|done]].
      * intros other Hother. by rewrite lookup_delete_ne.
      * right. by rewrite lookup_delete_eq.
    + eexists. split; [reflexivity|]. simpl. split; [done|]. split; [by left | done].
  - eexists. split; [reflexivity|]. split; [done|]. split; [by left | done].
Qed.

(** X18. When the delivery to a task's connection raises, [send_update]
    removes that connection, and a later update for the same task is dropped
    without touching the network. *)
Theorem failed_delivery_unregisters task_id message later (m : Manager WebSocket Net)
    websocket e net :
  active_connections m !! task_id = Some websocket →
  send_json websocket message (network m) = (inl e, net) →
  let m' := (send_update send_json task_id message m).2 in
  active_connections m' = delete task_id (active_connections m) ∧
  network m' = net ∧
  send_update send_json task_id later m' = (inr tt, m').
Proof.
  intros Hconn Hsend. unfold send_update at 1 2. rewrite Hconn.
  unfold try_except, on_network. rewrite Hsend.
  unfold bind, manager_log, disconnect. simpl. rewrite Hconn. simpl.
  split; [done|]. split; [done|].
  unfold send_update. simpl. by rewrite lookup_delete_eq.
Qed.

End ConnectionFacts.

(** ** The status update of the durable store *)

(** X19. The statement [update_task_status] builds has as many [?]
    placeholders as parameters; the first parameter is the status and the
    last the task id; the text of the statement does not depend on the task
    id, on the step or the error message, or on the progress value beyond
    whether it is 0. *)
Theorem update_task_status_query_well_formed task_id status progress current_step
    error_message :
  let built :=
    update_task_status_query task_id status progress current_step error_message in
  placeholders built.1 = length built.2 ∧
  head built.2 = Some (SqlText status) ∧
  last built.2 = Some (sql_id task_id) ∧
  built.1 =
    (update_task_status_query None status
       ((λ p, if decide (p = 0%Z) then 0%Z else 1%Z) <$> progress)
       ((λ _, EmptyString) <$> current_step)
       ((λ _, EmptyString) <$> error_message)).1.
Proof.
  unfold update_task_status_query.
  destruct (String.eqb status "running");
    destruct (String.eqb status "completed" || String.eqb status "failed");
    destruct progress as [p|], current_step as [s|], error_message as [e|];
    cbn [andb fmap option_fmap option_map];
    repeat case_decide; repeat case_bool_decide; simplify_eq;
    by repeat split.
Qed.

(** ** Provider construction *)

(** X20. [LLMFactory.create_provider] returns a provider exactly when the
    provider name, in lower case, is one of "groq", "openai", "claude" and a
    key is at hand: the key of the request when it is not empty, else the
    application's key for that provider.  The provider then holds that key
    and [is_available] is true of it.  Otherwise the error names the unknown
    provider or the missing key. *)
Theorem create_provider_needs_a_key keys llm_config :
  match LLMFactory.create_provider keys llm_config with
  | inr p =>
      LLMFactory._providers (toLowerCase (provider llm_config)) = Some (LLMFactory.class p) ∧
      LLMFactory.config p = llm_config ∧
      LLMFactory.client_key p ≠ EmptyString ∧
      LLMFactory.client_key p =
        (if truthy (api_key llm_config) then or_empty (api_key llm_config)
         else LLMFactory.config_key keys (LLMFactory.class p)) ∧
      LLMFactory.is_available keys p = true
  | inl e =>
      (LLMFactory._providers (toLowerCase (provider llm_config)) = None ∧
       e = "Unknown provider: " +:+ provider llm_config) ∨
      (∃ cls, LLMFactory._providers (toLowerCase (provider llm_config)) = Some cls ∧
         truthy (api_key llm_config) = false ∧
         LLMFactory.config_key keys cls = EmptyString ∧
         e = LLMFactory.key_not_found cls)
  end.
Proof.
  unfold LLMFactory.create_provider.
  destruct (LLMFactory._providers _) as [cls|] eqn:Hcls; [|by left].
  unfold LLMFactory.init, LLMFactory.is_available.
  destruct (truthy (api_key llm_config)) eqn:Hkey.
  - destruct (String.eqb_spec (or_empty (api_key llm_config)) EmptyString) as [He|Hne].
    + exfalso. unfold or_empty, or_null in He. rewrite Hkey in He.
      destruct (api_key llm_config) as [k|]; [|done]. simpl in *. subst k. done.
    + simpl. rewrite Hkey. repeat split; try done. by rewrite orb_true_r.
  - destruct (String.eqb_spec (LLMFactory.config_key keys cls) EmptyString) as [He|Hne].
    + right. by exists cls.
    + simpl. repeat split; try done.
      destruct (String.eqb_spec (LLMFactory.config_key keys cls) EmptyString); done.
Qed.

(** ** The properties on the small page *)

(** C5 on the small page when the page never loads. *)
Lemma navigation_failure_on_small_page :
  (∃ calls, store (toy_run no_page true).2 = store (toy_world true) ++ calls ∧
            Forall (λ c, is_save_dom c = false) calls) ∧
  (∀ st, (toy_run no_page true).1 = inr st → failed_with_message st ∧ without_discovery st) ∧
  (store_reliable (H := toy_collaborators no_page) → ∃ st, (toy_run no_page true).1 = inr st).
Proof.
  apply (navigation_failure_fails_run (H := toy_playwright no_page)
           (H0 := toy_collaborators no_page)
           toy_url toy_llm_config toy_browser_config (toy_world true)
           (toy_run no_page true).1 (toy_run no_page true).2).
  - intros url w. exists "TimeoutError: Timeout 30000ms exceeded.", w. reflexivity.
  - unfold toy_run. apply surjective_pairing.
Defined.



(** C7 on the small page. *)
Lemma progress_on_small_page :
  ∃ msgs, sent (toy_run happy true).2 = sent (toy_world true) ++ msgs ∧
    omap Ws.progress msgs = happy_path ∧
    Sorted Z.le (omap Ws.progress msgs) ∧
    (true = true → last (omap Ws.progress msgs) = Some 100%Z).
Proof.
  apply (progress_nondecreasing_to_100 (H := toy_playwright happy)
           (H0 := toy_collaborators happy)
           toy_url toy_llm_config toy_browser_config (toy_world true)
           (final_state happy true) (toy_run happy true).2).
  - by vm_compute.
  - by vm_compute.
Defined.

(** C9 on the small page: the client is gone, and the first step ends as it
    does when no sink is registered. *)
Lemma sink_failure_on_small_page :
  let step w := run_node (H := toy_playwright client_gone) (H0 := toy_collaborators client_gone)
                  node.create_task
                  (initial_state toy_url toy_llm_config toy_browser_config) w in
  (step (toy_world true)).1 = (step (toy_world false)).1 ∧
  same_outside (step (toy_world true)).2 (step (toy_world false)).2.
Proof.
  apply (progress_sink_failure_is_harmless (H := toy_playwright client_gone)
           (H0 := toy_collaborators client_gone) None (status_update None 0 "Initializing")
           node.create_task (initial_state toy_url toy_llm_config toy_browser_config)
           (toy_world true) (toy_world false)).
  split; reflexivity.
Defined.


(** The "Store" link of the small page is accepted and returned. *)
Lemma hover_scan_complete_on_small_page :
  getXPath toy_store ∈ Hover.xpath <$> dynamic_hover_detection (toy_document toy_rest).
Proof.
  apply (hover_scan_complete_below_cap (toy_document toy_rest) toy_store).
  - vm_compute. lia.
  - apply (list_elem_of_lookup_2 _ 3). reflexivity.
  - reflexivity.
Defined.


(** The "Sign up" button of the small page is accepted and returned. *)
Lemma popup_scan_complete_on_small_page :
  getXPath toy_signup ∈ Popup.xpath <$> dynamic_popup_detection (toy_document toy_rest).
Proof.
  apply (popup_scan_complete_below_cap (toy_document toy_rest) toy_signup).
  - vm_compute. lia.
  - apply (list_elem_of_lookup_2 _ 2). reflexivity.
  - reflexivity.
Defined.

(** On the page whose first evaluation raises, the "Store" candidate is
    confirmed although nothing is revealed. *)
Lemma failed_capture_on_flaky_page :
  (hover_probe (H := flaky_playwright) 0 store_candidate
     ({| world := 0%nat; logged := [] |}, [])).2.2 =
    [] ++ [confirmed_hover store_candidate empty_snapshot (snapshot_of toy_rest)].
Proof.
  apply (failed_capture_confirms_hover (H := flaky_playwright) 0 store_candidate
           {| world := 0%nat; logged := [] |} [] tt 0%nat
           "Error: Execution context was destroyed" 1%nat 1%nat (toy_document toy_rest) 2%nat
           (snapshot_of toy_rest)).
  - reflexivity.
  - reflexivity.
  - reflexivity.
  - reflexivity.
  - reflexivity.
  - right. by vm_compute.
Defined.

(** The synchronous entry point on the small page when the page never
    loads. *)
Lemma run_browser_analysis_on_unreachable_page :
  ∃ s', run_browser_analysis (H := toy_playwright no_page) toy_url None toy_session =
          (inr {| Analysis.hover_elements := []; Analysis.popup_elements := [];
                  Analysis.page_structure := EmptyDict |}, s').
Proof.
  apply (run_browser_analysis_without_page (H := toy_playwright no_page) toy_url None
           toy_session (world toy_session)).
  - intros url w. exists "TimeoutError: Timeout 30000ms exceeded.", w. reflexivity.
  - reflexivity.
Defined.

(** On a network where every delivery fails, the first update for task 7
    removes its connection and the next one is dropped. *)
Lemma failed_delivery_on_dead_network :
  let m' := (send_update dead_network 7 "progress" toy_manager).2 in
  active_connections m' = delete 7%nat (active_connections toy_manager) ∧
  network m' = tt ∧
  send_update dead_network 7 "done" m' = (inr tt, m').
Proof.
  apply (failed_delivery_unregisters dead_network 7 "progress" "done" toy_manager tt
           "WebSocketDisconnect" tt); reflexivity.
Defined.

(** The run of the small page ends completed or failed. *)
Lemma run_ends_on_small_page :
  (∀ st, (toy_run happy true).1 = inr st → ended_completed st ∨ ended_failed st) ∧
  (store_reliable (H := toy_collaborators happy) → ∃ st, (toy_run happy true).1 = inr st).
Proof.
  apply (run_ends_completed_or_failed (H := toy_playwright happy)
           (H0 := toy_collaborators happy)
           toy_url toy_llm_config toy_browser_config (toy_world true)
           (toy_run happy true).1 (toy_run happy true).2).
  unfold toy_run. apply surjective_pairing.
Defined.

(** The completed run of the small page stored what its result holds. *)
Lemma completed_run_on_small_page :
  is_Some (WorkflowState.task_id (final_state happy true)) ∧
  discovered (final_state happy true) (toy_run happy true).2 ∧
  hover_written (final_state happy true) (toy_run happy true).2 ∧
  popup_written (final_state happy true) (toy_run happy true).2 ∧
  WorkflowState.url (final_state happy true) = toy_url ∧
  WorkflowState.result (final_state happy true) = Some (result_of (final_state happy true)).
Proof.
  apply (completed_run_stored_its_artifacts (H := toy_playwright happy)
           (H0 := toy_collaborators happy)
           toy_url toy_llm_config toy_browser_config (toy_world true)
           (final_state happy true) (toy_run happy true).2).
  - by vm_compute.
  - by vm_compute.
Defined.

(** The run of the small page ends the same with a client that is gone and
    with no sink registered. *)
Lemma run_without_client_on_small_page :
  let run w := run_workflow (H := toy_playwright client_gone)
                 (H0 := toy_collaborators client_gone)
                 toy_url toy_llm_config toy_browser_config w in
  (run (toy_world true)).1 = (run (toy_world false)).1 ∧
  store (run (toy_world true)).2 = store (run (toy_world false)).2 ∧
  world (session (run (toy_world true)).2) = world (session (run (toy_world false)).2).
Proof.
  apply (run_outcome_independent_of_sink (H := toy_playwright client_gone)
           (H0 := toy_collaborators client_gone)
           toy_url toy_llm_config toy_browser_config (toy_world true) (toy_world false)).
  split; reflexivity.
Defined.

(** The popup step of the small page, where no popup trigger was confirmed,
    goes through with the generic text although the generator is down. *)
Lemma generation_without_elements_on_small_page :
  (elements_or_empty (WorkflowState.hover_elements analysed_state) = [] →
   ∃ u w' f,
     generate_hover_features_node (H0 := toy_collaborators generator_down) analysed_state (toy_world true) = (inr u, w') ∧
     Update.error_message u = None ∧ Update.hover_features u = Some f ∧
     content f = _generate_generic_hover_feature (WorkflowState.url analysed_state)) ∧
  (elements_or_empty (WorkflowState.popup_elements analysed_state) = [] →
   ∃ u w' f,
     generate_popup_features_node (H0 := toy_collaborators generator_down) analysed_state (toy_world true) = (inr u, w') ∧
     Update.error_message u = None ∧ Update.popup_features u = Some f ∧
     content f = _generate_generic_popup_feature (WorkflowState.url analysed_state)).
Proof.
  apply (generation_without_elements_is_generic (H0 := toy_collaborators generator_down)
           analysed_state (toy_world true)).
  - intros c w. by eexists _, _.
  - intros cfg w. by eexists.
Defined.

(** The entry point on the small page when the page never loads: the
    exception it raises carries "Unknown error". *)
Lemma generate_tests_on_unreachable_page :
  match (toy_generate no_page).1 with
  | inr result => Result.status result = completed
  | inl e =>
      e = "Unknown error" ∧
      (task_truthy (toy_generate no_page).2.2 = true →
       ∃ calls, store (toy_generate no_page).2.1 = calls ++
         [db.update_task_status (toy_generate no_page).2.2 failed None None
            (Some unknown_error_report);
          db.add_log (toy_generate no_page).2.2 "ERROR" unknown_error_report None])
  end.
Proof.
  apply (generate_tests_reports_unknown_error (H := toy_playwright no_page)
           (H0 := toy_collaborators no_page)
           toy_url toy_llm_config toy_browser_config (toy_world true) None
           (toy_generate no_page).1 (toy_generate no_page).2.1 (toy_generate no_page).2.2).
  - intros c w. by eexists _, _.
  - unfold toy_generate. by destruct (generate_tests _ _ _ _) as [r [w' tid']].
Defined.

(** The failed run of the small page when the page never loads left its
    error message in the task row. *)
Lemma failed_run_on_small_page :
  (∃ msg, WorkflowState.error_message (final_state no_page true) = Some msg ∧
     msg ≠ EmptyString ∧
     db.update_task_status (WorkflowState.task_id (final_state no_page true)) failed None None
       (Some msg) ∈ store (toy_run no_page true).2) ∧
  WorkflowState.result (final_state no_page true) = None.
Proof.
  apply (failed_run_is_recorded (H := toy_playwright no_page)
           (H0 := toy_collaborators no_page)
           toy_url toy_llm_config toy_browser_config (toy_world true)
           (final_state no_page true) (toy_run no_page true).2).
  - intros c w. by eexists _, _.
  - by vm_compute.
  - by vm_compute.
  - by vm_compute.
Defined.
